(** * rocket_factory: the weather service

    A shallow embedding of [pkg/models] (the [Weather] record and the
    [WeatherStorage] guarded by a [sync.RWMutex]), of the two HTTP handlers
    of [cmd/http_server/main.go] and of the client of
    [cmd/http_client/main.go], with the properties of the specification, and
    further properties of the code, stated and proved over it.

    Go code is written as programs over a small set of atomic actions (mutex
    operations, map accesses, accesses to heap records, reading the clock).
    [run] executes a program alone from a given world; the records live in a
    heap and the map stores pointers to them, as [map[string]*Weather] does.
    [step] executes a program one action at a time, so that the goroutines
    of the server can take their steps in any order; an access to the map
    takes two steps, and an access that begins while another one that
    conflicts with it is under way is a data race. The client is written as
    functions of what the network gives it. *)

From Stdlib Require Import ZArith Ascii String Floats.PrimFloat Lia.
From stdpp Require Import gmap strings list.

(** ** Data model *)

(** [float64]: IEEE 754 binary64. *)
Definition float64 : Set := float.

(** [time.Time], as an instant: nanoseconds since the Unix epoch. *)
Definition Time : Set := Z.

(** The zero [time.Time]: January 1, year 1, 00:00:00 UTC. *)
Definition zeroTime : Time := (-62135596800000000000)%Z.

(** [models.Weather]. *)
Record Weather : Set := mkWeather {
  City : string;          (* `json:"city"` *)
  Temperature : float64;  (* `json:"temperature"` *)
  UpdatedAt : Time        (* `json:"updated_at"` *)
}.

(** The zero value of [models.Weather], what [var weatherUpdate models.Weather]
    holds. *)
Definition zeroWeather : Weather :=
  {| City := ""; Temperature := 0%float; UpdatedAt := zeroTime |}.

Definition setCity (c : string) (w : Weather) : Weather :=
  {| City := c; Temperature := Temperature w; UpdatedAt := UpdatedAt w |}.
Definition setTemperature (f : float64) (w : Weather) : Weather :=
  {| City := City w; Temperature := f; UpdatedAt := UpdatedAt w |}.
Definition setUpdatedAt (t : Time) (w : Weather) : Weather :=
  {| City := City w; Temperature := Temperature w; UpdatedAt := t |}.

(** Heap addresses of [Weather] records, and [*Weather]. *)
Definition loc : Set := positive.

Inductive pointer : Set :=
| nilptr
| addr (l : loc).

Global Instance pointer_eq_dec : EqDecision pointer.
Proof. solve_decision. Defined.

(** [sync.RWMutex]: whether a writer holds it, and how many readers do. *)
Record RWMutex : Set := mkRWMutex {
  writer : bool;
  readers : nat
}.

Definition unlocked : RWMutex := {| writer := false; readers := 0 |}.

Global Instance RWMutex_eq_dec : EqDecision RWMutex.
Proof. solve_decision. Defined.

(** [models.WeatherStorage]. *)
Record WeatherStorage : Type := mkWeatherStorage {
  mu : RWMutex;
  weathers : gmap string pointer
}.

(** The world a program runs in: the heap of [Weather] records, the storage
    the server shares between its handlers, and the wall clock. *)
Record World : Type := mkWorld {
  heap : gmap loc Weather;
  storage : WeatherStorage;
  clock : Time
}.

Definition withMu (m : RWMutex) (σ : World) : World :=
  {| heap := heap σ;
     storage := {| mu := m; weathers := weathers (storage σ) |};
     clock := clock σ |}.
Definition withWeathers (ws : gmap string pointer) (σ : World) : World :=
  {| heap := heap σ;
     storage := {| mu := mu (storage σ); weathers := ws |};
     clock := clock σ |}.
Definition withHeap (h : gmap loc Weather) (σ : World) : World :=
  {| heap := h; storage := storage σ; clock := clock σ |}.
Definition withClock (t : Time) (σ : World) : World :=
  {| heap := heap σ; storage := storage σ; clock := t |}.

(** ** Programs *)

(** The atomic actions of the Go code. *)
Inductive action : Type -> Type :=
| RLock : action unit                                 (* s.mu.RLock() *)
| RUnlock : action unit                               (* s.mu.RUnlock() *)
| Lock : action unit                                  (* s.mu.Lock() *)
| Unlock : action unit                                (* s.mu.Unlock() *)
| MapLoad (key : string) : action (pointer * bool)    (* v, ok := s.weathers[key] *)
| MapStore (key : string) (v : pointer) : action unit (* s.weathers[key] = v *)
| New (v : Weather) : action pointer                  (* a variable whose address is taken *)
| Load (p : pointer) : action Weather                 (* *p *)
| LoadCity (p : pointer) : action string              (* p.City *)
| Store (p : pointer) (v : Weather) : action unit     (* *p = v *)
| StoreCity (p : pointer) (c : string) : action unit  (* p.City = c *)
| StoreUpdatedAt (p : pointer) (t : Time) : action unit (* p.UpdatedAt = t *)
| Now : action Time.                                  (* time.Now() *)

(** Programs: sequencing of actions, a function body with a deferred call,
    which runs when the body returns or panics, and a panic on its way up. *)
Inductive prog : Type -> Type :=
| Ret {A} (a : A) : prog A
| Act {A} (a : action A) : prog A
| Bind {A B} (m : prog A) (k : A -> prog B) : prog B
| Defer {A} (d : prog unit) (body : prog A) : prog A
| Throw {A} : prog A.

Declare Scope prog_scope.
Delimit Scope prog_scope with prog.
Bind Scope prog_scope with prog.

Notation "x ← y ; z" := (Bind y (fun x => z))
  (at level 20, y at level 100, z at level 200, only parsing) : prog_scope.
Notation "' x ← y ; z" := (Bind y (fun x => z))
  (at level 20, x pattern, y at level 100, z at level 200, only parsing) : prog_scope.
Notation "x ;; z" := (Bind x (fun _ => z))
  (at level 100, z at level 200, only parsing, right associativity) : prog_scope.
#[local] Open Scope prog_scope.

(** What running a program, or one action, leads to. [Blocked]: a lock that
    is not available; run alone, the program never returns. *)
Inductive outcome (A : Type) : Type :=
| Done (a : A) (σ : World)
| Panicked (σ : World)
| Blocked.
Arguments Done {A} a σ.
Arguments Panicked {A} σ.
Arguments Blocked {A}.

(** [sync.RWMutex]: [RLock] waits while a writer holds the mutex, [Lock]
    while anyone does; unlocking a mutex that is not locked is a run-time
    error. Go also holds a new reader back while a writer waits in [Lock];
    the state keeps no account of the writers that wait, and a reader is let
    in whenever no writer holds the mutex: the goroutines have every
    interleaving that Go gives them, and more. *)
Definition rlock (m : RWMutex) : option RWMutex :=
  if writer m then None
  else Some {| writer := false; readers := S (readers m) |}.

Definition runlock (m : RWMutex) : option RWMutex :=
  match readers m with
  | O => None
  | S n => Some {| writer := writer m; readers := n |}
  end.

Definition lock (m : RWMutex) : option RWMutex :=
  if writer m then None
  else match readers m with
       | O => Some {| writer := true; readers := 0 |}
       | S _ => None
       end.

Definition unlock (m : RWMutex) : option RWMutex :=
  if writer m then Some {| writer := false; readers := readers m |}
  else None.

(** The record a pointer refers to; [None] for nil (a dereference panics). *)
Definition deref (p : pointer) (σ : World) : option Weather :=
  match p with
  | nilptr => None
  | addr l => heap σ !! l
  end.

Definition update (p : pointer) (f : Weather -> Weather) (σ : World) : outcome unit :=
  match p with
  | nilptr => Panicked σ
  | addr l =>
      match heap σ !! l with
      | Some w => Done tt (withHeap (<[l := f w]> (heap σ)) σ)
      | None => Panicked σ
      end
  end.

Definition perform {A} (a : action A) (σ : World) : outcome A :=
  match a in action T return outcome T with
  | RLock =>
      match rlock (mu (storage σ)) with
      | Some m => Done tt (withMu m σ)
      | None => Blocked
      end
  | RUnlock =>
      match runlock (mu (storage σ)) with
      | Some m => Done tt (withMu m σ)
      | None => Panicked σ
      end
  | Lock =>
      match lock (mu (storage σ)) with
      | Some m => Done tt (withMu m σ)
      | None => Blocked
      end
  | Unlock =>
      match unlock (mu (storage σ)) with
      | Some m => Done tt (withMu m σ)
      | None => Panicked σ
      end
  | MapLoad key =>
      match weathers (storage σ) !! key with
      | Some v => Done (v, true) σ
      | None => Done (nilptr, false) σ
      end
  | MapStore key v => Done tt (withWeathers (<[key := v]> (weathers (storage σ))) σ)
  | New v =>
      let l := fresh (dom (heap σ)) in
      Done (addr l) (withHeap (<[l := v]> (heap σ)) σ)
  | Load p =>
      match deref p σ with
      | Some w => Done w σ
      | None => Panicked σ
      end
  | LoadCity p =>
      match deref p σ with
      | Some w => Done (City w) σ
      | None => Panicked σ
      end
  | Store p v => update p (fun _ => v) σ
  | StoreCity p c => update p (setCity c) σ
  | StoreUpdatedAt p t => update p (setUpdatedAt t) σ
  | Now => Done (clock σ) σ
  end.

(** Running a program alone. A deferred call runs after the body, also when
    the body panicked, and the panic goes on after it. *)
Fixpoint run {A} (p : prog A) (σ : World) : outcome A :=
  match p with
  | Ret a => Done a σ
  | Act a => perform a σ
  | Bind m k =>
      match run m σ with
      | Done x σ' => run (k x) σ'
      | Panicked σ' => Panicked σ'
      | Blocked => Blocked
      end
  | Defer d body =>
      match run body σ with
      | Done x σ' =>
          match run d σ' with
          | Done _ σ'' => Done x σ''
          | Panicked σ'' => Panicked σ''
          | Blocked => Blocked
          end
      | Panicked σ' =>
          match run d σ' with
          | Done _ σ'' => Panicked σ''
          | Panicked σ'' => Panicked σ''
          | Blocked => Blocked
          end
      | Blocked => Blocked
      end
  | Throw => Panicked σ
  end.

(** ** pkg/models/storage.go *)

(** [NewWeatherStorage]: an empty map, and the zero mutex. *)
Definition NewWeatherStorage : WeatherStorage :=
  {| mu := unlocked; weathers := ∅ |}.

(** [GetWeather]. *)
Definition GetWeather (city : string) : prog pointer :=
  Act RLock;;
  Defer (Act RUnlock) (
    '(weather, ok) ← Act (MapLoad city);
    if negb ok then Ret nilptr
    else Ret weather).

(** [UpdateWeather]. *)
Definition UpdateWeather (weather : pointer) : prog unit :=
  Act Lock;;
  Defer (Act Unlock) (
    key ← Act (LoadCity weather);
    Act (MapStore key weather)).

(** ** encoding/json, as the handlers use it *)

(** A JSON document. A number stands with the [float64] that
    [strconv.ParseFloat] rounds its literal to: an infinity when the literal
    is out of range (such as [1e999]), which the decoder rejects. *)
#[local] Set Warnings "-register-all".
Inductive json : Type :=
| JNull
| JBool (b : bool)
| JNumber (f : float64)
| JString (s : string)
| JArray (items : list json)
| JObject (fields : list (string * json)).

(** The errors the handlers can meet. *)
Inductive error : Set :=
| SyntaxError                          (* the body is not JSON (or is empty) *)
| UnmarshalTypeError (field : string)  (* a value that does not fit the Go field *)
| TimeError                            (* time.Time's UnmarshalJSON refused the value *)
| UnsupportedValueError (f : float64)  (* NaN or an infinity cannot be encoded *)
| MarshalerError.                      (* time.Time's MarshalJSON refused the instant *)

(** [time.Time] implements [json.Marshaler] and [json.Unmarshaler]: the text
    of a JSON string to an instant (RFC 3339), and back. Both can fail: a
    string that is no timestamp, a year outside of 0..9999. *)
Class TimeCodec : Type := {
  UnmarshalJSON : string -> option Time;
  MarshalJSON : Time -> option string
}.

Definition asciiLower (c : ascii) : ascii :=
  let n := nat_of_ascii c in
  if (65 <=? n)%nat && (n <=? 90)%nat then ascii_of_nat (n + 32) else c.

Fixpoint toLower (s : string) : string :=
  match s with
  | EmptyString => EmptyString
  | String c rest => String (asciiLower c) (toLower rest)
  end.

(** The decoder matches an object key with a field name ignoring case. *)
Definition equalFold (s t : string) : bool :=
  String.eqb (toLower s) (toLower t).

Section Handlers.
Context `{TimeCodec}.

(** One member of a JSON object, decoded into a [Weather]: the record after
    it, the error if the value does not fit, and whether decoding stops
    there (an error of [UnmarshalJSON] does; a type error is kept and the
    decoder goes on). Keys that name no field are skipped, and [null]
    leaves a field as it is. *)
Definition decodeField (key : string) (v : json) (w : Weather)
  : Weather * option error :=
  if equalFold key "city" then
    match v with
    | JString s => (setCity s w, None)
    | JNull => (w, None)
    | _ => (w, Some (UnmarshalTypeError "city"))
    end
  else if equalFold key "temperature" then
    match v with
    | JNumber f =>
        if is_finite f then (setTemperature f w, None)
        else (w, Some (UnmarshalTypeError "temperature"))
    | JNull => (w, None)
    | _ => (w, Some (UnmarshalTypeError "temperature"))
    end
  else if equalFold key "updated_at" then
    match v with
    | JNull => (w, None)
    | JString s =>
        match UnmarshalJSON s with
        | Some t => (setUpdatedAt t w, None)
        | None => (w, Some TimeError)
        end
    | _ => (w, Some TimeError)
    end
  else (w, None).

Fixpoint decodeObject (fields : list (string * json)) (w : Weather)
    (saved : option error) : Weather * option error :=
  match fields with
  | [] => (w, saved)
  | (key, v) :: rest =>
      match decodeField key v w with
      | (w', None) => decodeObject rest w' saved
      | (w', Some TimeError) => (w', Some TimeError)
      | (w', Some e) =>
          decodeObject rest w' (match saved with Some _ => saved | None => Some e end)
      end
  end.

(** [json.Unmarshal] of a document into a [Weather]. *)
Definition Unmarshal (doc : json) (w : Weather) : Weather * option error :=
  match doc with
  | JObject fields => decodeObject fields w None
  | JNull => (w, None)
  | _ => (w, Some (UnmarshalTypeError ""))
  end.

(** [json.Marshal] of a [Weather]. *)
Definition Marshal (w : Weather) : json + error :=
  if is_finite (Temperature w) then
    match MarshalJSON (UpdatedAt w) with
    | Some text =>
        inl (JObject [("city", JString (City w));
                      ("temperature", JNumber (Temperature w));
                      ("updated_at", JString text)])
    | None => inr MarshalerError
    end
  else inr (UnsupportedValueError (Temperature w)).

(** ** cmd/http_server/main.go *)

(** The body of a request, as [json.NewDecoder(r.Body).Decode] reads it: no
    JSON value at its start, or the first JSON value (it reads no further). *)
Inductive RequestBody : Type :=
| NotJSON
| Document (doc : json).

Record Request : Type := mkRequest {
  urlCity : string;       (* chi.URLParam(r, urlParamCity) *)
  reqBody : RequestBody   (* r.Body *)
}.

Inductive ResponseBody : Type :=
| Text (s : string)
| JSON (doc : json).

Record Response : Type := mkResponse {
  status : Z;
  body : ResponseBody
}.

Definition StatusOK : Z := 200.
Definition StatusBadRequest : Z := 400.
Definition StatusNotFound : Z := 404.
Definition StatusInternalServerError : Z := 500.

Definition newline : string := String (ascii_of_nat 10) EmptyString.

(** [err.Error()]. *)
Definition Error (e : error) : string :=
  match e with
  | SyntaxError => "invalid character looking for beginning of value"
  | UnmarshalTypeError field =>
      "json: cannot unmarshal value into Go struct field Weather." ++ field
  | TimeError => "Time.UnmarshalJSON: input is not a JSON string"
  | UnsupportedValueError f =>
      "json: unsupported value: " ++
      (if is_nan f then "NaN" else if (f <? 0)%float then "-Inf" else "+Inf")
  | MarshalerError =>
      "json: error calling MarshalJSON for type time.Time: Time.MarshalJSON: year outside of range [0,9999]"
  end.

(** [http.Error(w, msg, code)]. *)
Definition httpError (msg : string) (code : Z) : Response :=
  {| status := code; body := Text (msg ++ newline) |}.

(** [render.JSON(w, r, v)]: the value encoded, with status 200; an internal
    server error when it cannot be encoded. *)
Definition renderJSON (v : Weather) : Response :=
  match Marshal v with
  | inl doc => {| status := StatusOK; body := JSON doc |}
  | inr err => httpError (Error err) StatusInternalServerError
  end.

(** [json.NewDecoder(r.Body).Decode(&weatherUpdate)]. *)
Definition Decode (b : RequestBody) (p : pointer) : prog (option error) :=
  match b with
  | NotJSON => Ret (Some SyntaxError)
  | Document doc =>
      w ← Act (Load p);
      let '(w', err) := Unmarshal doc w in
      Act (Store p w');;
      Ret err
  end.

(** What [Decode] makes of a body when the record it decodes into is the
    zero record: the record it leaves, and its error. *)
Definition payload (b : RequestBody) : Weather * option error :=
  match b with
  | NotJSON => (zeroWeather, Some SyntaxError)
  | Document doc => Unmarshal doc zeroWeather
  end.

(** What the update handler makes of a decoded record before it stores it:
    the city of the path, and the time of the clock. *)
Definition stamped (city : string) (now : Time) (w : Weather) : Weather :=
  setUpdatedAt now (setCity city w).

(** [getWeatherHandler(storage)]. *)
Definition getWeatherHandler (r : Request) : prog Response :=
  let city := urlCity r in
  if decide (city = "") then
    Ret (httpError "City parameter is required" StatusBadRequest)
  else
    weather ← GetWeather city;
    if decide (weather = nilptr) then
      Ret (httpError ("Weather for city '" ++ city ++ "' not found") StatusNotFound)
    else
      v ← Act (Load weather);
      Ret (renderJSON v).

(** [updateWeatherHandler(storage)]. *)
Definition updateWeatherHandler (r : Request) : prog Response :=
  let city := urlCity r in
  if decide (city = "") then
    Ret (httpError "City parameter is required" StatusBadRequest)
  else
    weatherUpdate ← Act (New zeroWeather);
    err ← Decode (reqBody r) weatherUpdate;
    if err is Some _ then
      Ret (httpError "Invalid request body" StatusBadRequest)
    else
      Act (StoreCity weatherUpdate city);;
      now ← Act Now;
      Act (StoreUpdatedAt weatherUpdate now);;
      UpdateWeather weatherUpdate;;
      v ← Act (Load weatherUpdate);
      Ret (renderJSON v).

End Handlers.

(** The server starts with [models.NewWeatherStorage()] and nothing on the
    heap. *)
Definition boot (t : Time) : World :=
  {| heap := ∅; storage := NewWeatherStorage; clock := t |}.

(** How many times a program, run alone, assigns to the map. *)
Fixpoint mapStores {A} (p : prog A) (σ : World) : nat :=
  match p with
  | Ret _ => 0
  | Act a => match a with MapStore _ _ => 1 | _ => 0 end
  | Bind m k =>
      mapStores m σ +
      match run m σ with
      | Done x σ' => mapStores (k x) σ'
      | _ => 0
      end
  | Defer d body =>
      mapStores body σ +
      match run body σ with
      | Done _ σ' | Panicked σ' => mapStores d σ'
      | Blocked => 0
      end
  | Throw => 0
  end.

(** What [GetWeather] finds under a key: the stored pointer, nil if none. *)
Definition stored (city : string) (σ : World) : pointer :=
  default nilptr (weathers (storage σ) !! city).

(** The records of the store, by key. *)
Definition contents (σ : World) : gmap string Weather :=
  omap (fun p => deref p σ) (weathers (storage σ)).

(** No goroutine holds the mutex. *)
Definition idle (σ : World) : Prop := mu (storage σ) = unlocked.

(** ** Sequences of calls *)

(** What happens to a store, one call after the other: calls of the two
    methods by any caller that holds pointers to records, requests served by
    the handlers, and time passing. *)
Inductive op : Type :=
| OpGet (city : string)          (* storage.GetWeather(city) *)
| OpPut (p : pointer)            (* storage.UpdateWeather(p) *)
| OpPutNew (v : Weather)         (* storage.UpdateWeather(&v), v a new record *)
| OpGetRequest (r : Request)     (* GET /api/v1/weather/{city} *)
| OpPutRequest (r : Request)     (* PUT /api/v1/weather/{city} *)
| OpTick (t : Time).             (* the clock moves to t *)

(** The world a call leaves; a call that waits for the mutex leaves it as it
    is. *)
Definition after {A} (o : outcome A) (σ : World) : World :=
  match o with
  | Done _ σ' | Panicked σ' => σ'
  | Blocked => σ
  end.

Section Calls.
Context `{TimeCodec}.

Definition call (o : op) (σ : World) : World :=
  match o with
  | OpGet city => after (run (GetWeather city) σ) σ
  | OpPut p => after (run (UpdateWeather p) σ) σ
  | OpPutNew v => after (run (p ← Act (New v); UpdateWeather p) σ) σ
  | OpGetRequest r => after (run (getWeatherHandler r) σ) σ
  | OpPutRequest r => after (run (updateWeatherHandler r) σ) σ
  | OpTick t => withClock t σ
  end.

Definition execute (ops : list op) (σ : World) : World :=
  foldl (fun σ o => call o σ) σ ops.

(** The key a call writes, if it writes one. *)
Definition written (o : op) (σ : World) : option string :=
  match o with
  | OpPut p => City <$> deref p σ
  | OpPutNew v => Some (City v)
  | OpPutRequest r => Some (urlCity r)
  | _ => None
  end.

(** No call of the sequence writes the key [city]. *)
Fixpoint neverWritten (city : string) (ops : list op) (σ : World) : Prop :=
  match ops with
  | [] => True
  | o :: rest => written o σ ≠ Some city ∧ neverWritten city rest (call o σ)
  end.

(** What the server does to its store: it serves requests, while its clock
    shows instants that [MarshalJSON] can print. *)
Definition served (o : op) : Prop :=
  match o with
  | OpGetRequest _ | OpPutRequest _ => True
  | OpTick t => is_Some (MarshalJSON t)
  | _ => False
  end.

End Calls.

(** Every entry of the map points to a record, and [P] holds of the key
    and the record. *)
Definition records (P : string → Weather → Prop) (σ : World) : Prop :=
  ∀ (c : string) (p : pointer),
    weathers (storage σ) !! c = Some p → ∃ w, deref p σ = Some w ∧ P c w.

(** Every record of the map is stored under its own city. *)
Definition keyed (σ : World) : Prop :=
  records (fun c w => City w = c) σ.

(** A record that [json.Marshal] can encode. *)
Definition encodable `{TimeCodec} (w : Weather) : Prop :=
  is_finite (Temperature w) = true ∧ is_Some (MarshalJSON (UpdatedAt w)).

(** Whether a member of a JSON object fits the [Weather] field it names: a
    string for the city, a number that [float64] holds for the temperature,
    a timestamp for the time of update, [null] for any of them; a key that
    names no field fits. *)
Definition fieldFits `{TimeCodec} (key : string) (v : json) : bool :=
  if equalFold key "city" then
    match v with JString _ | JNull => true | _ => false end
  else if equalFold key "temperature" then
    match v with JNumber f => is_finite f | JNull => true | _ => false end
  else if equalFold key "updated_at" then
    match v with
    | JString s => bool_decide (is_Some (UnmarshalJSON s))
    | JNull => true
    | _ => false
    end
  else true.

(** Whether a JSON document fits a [Weather]: an object all of whose members
    fit, or [null]. *)
Definition fits `{TimeCodec} (doc : json) : bool :=
  match doc with
  | JObject fields => forallb (fun kv => fieldFits kv.1 kv.2) fields
  | JNull => true
  | _ => false
  end.

(** Whether [Decode] accepts a body. *)
Definition decodes `{TimeCodec} (b : RequestBody) : bool :=
  match b with
  | NotJSON => false
  | Document doc => fits doc
  end.

(** The ways a call changes the world, with the key it wrote if it wrote
    one, and the record it stored there. *)
Inductive effect (σ : World) : option (string * Weather) → World → Prop :=
| effect_none : effect σ None σ
| effect_tick (t : Time) : effect σ None (withClock t σ)
| effect_new (w : Weather) :
    effect σ None (withHeap (<[fresh (dom (heap σ)) := w]> (heap σ)) σ)
| effect_put (p : pointer) (w : Weather) :
    deref p σ = Some w →
    effect σ (Some (City w, w))
           (withWeathers (<[City w := p]> (weathers (storage σ))) σ)
| effect_put_new (w : Weather) :
    effect σ (Some (City w, w))
           (withWeathers (<[City w := addr (fresh (dom (heap σ)))]> (weathers (storage σ)))
              (withHeap (<[fresh (dom (heap σ)) := w]> (heap σ)) σ)).

(** The JSON object that [render.JSON] writes for a record. *)
Definition weatherJSON (w : Weather) (text : string) : json :=
  JObject [("city", JString (City w));
           ("temperature", JNumber (Temperature w));
           ("updated_at", JString text)].

(** ** Goroutines *)

(** An access to the map takes time: a goroutine begins it and later ends
    it. [Idle]: not in an access. *)
Inductive access : Set := Idle | InLoad | InStore.

Global Instance access_eq_dec : EqDecision access.
Proof. solve_decision. Defined.

(** What the accesses to the map leave in the log, in the order in which
    they end: the pointer a lookup found under a key, and the pointer an
    assignment put under a key, with the record it points to at that time. *)
Inductive event : Set :=
| Looked (key : string) (v : pointer)
| Assigned (key : string) (v : pointer) (w : option Weather).

(** The state the goroutines share: the world, how many lookups and
    assignments are under way, whether an access began while an assignment
    was under way or an assignment while any access was (a data race), and
    the log. *)
Record Shared : Type := mkShared {
  world : World;
  loading : nat;
  storing : nat;
  raced : bool;
  log : list event
}.

(** The access an action is, if it is one. *)
Definition need {A} (a : action A) : access :=
  match a with
  | MapLoad _ => InLoad
  | MapStore _ _ => InStore
  | _ => Idle
  end.

(** Beginning an access. *)
Definition begin (k : access) (s : Shared) : Shared :=
  match k with
  | Idle => s
  | InLoad =>
      {| world := world s; loading := S (loading s); storing := storing s;
         raced := raced s || (0 <? storing s)%nat; log := log s |}
  | InStore =>
      {| world := world s; loading := loading s; storing := S (storing s);
         raced := raced s || (0 <? loading s + storing s)%nat; log := log s |}
  end.

(** What an action that has been performed leaves in the log. *)
Definition logged {A} (a : action A) : A → World → list event :=
  match a in action T return T → World → list event with
  | MapLoad key => λ x _, [Looked key x.1]
  | MapStore key v => λ _ σ, [Assigned key v (deref v σ)]
  | _ => λ _ _, []
  end.

(** Ending an access (or performing an action that is none): the world the
    action left, one access less under way, and the log. *)
Definition finish (acc : access) (σ : World) (evs : list event) (s : Shared) : Shared :=
  {| world := σ;
     loading := match acc with InLoad => pred (loading s) | _ => loading s end;
     storing := match acc with InStore => pred (storing s) | _ => storing s end;
     raced := raced s;
     log := log s ++ evs |}.

(** One step of a goroutine. *)
Inductive next (A : Type) : Type :=
| Value (a : A)                                   (* it has returned *)
| Thrown                                          (* it has panicked *)
| Waits                                           (* it waits for the mutex *)
| Steps (p : prog A) (acc : access) (s : Shared). (* it goes on *)
Arguments Value {A} a.
Arguments Thrown {A}.
Arguments Waits {A}.
Arguments Steps {A} p acc s.

(** One step of an action: an access to the map begins, and ends at a later
    step, when it is performed; a goroutine that is in an access does
    nothing else before it ends it; the other actions are performed at
    once. *)
Definition stepAct {A} (a : action A) (acc : access) (s : Shared) : next A :=
  if decide (acc = Idle ∧ need a ≠ Idle) then
    Steps (Act a) (need a) (begin (need a) s)
  else if decide (need a = acc) then
    match perform a (world s) with
    | Done x σ => Steps (Ret x) Idle (finish acc σ (logged a x σ) s)
    | Panicked σ => Steps Throw Idle (finish acc σ [] s)
    | Blocked => Waits
    end
  else Waits.

Fixpoint step {A} (p : prog A) (acc : access) (s : Shared) : next A :=
  match p with
  | Ret a => Value a
  | Act a => stepAct a acc s
  | Bind m k =>
      match step m acc s with
      | Value x => Steps (k x) acc s
      | Thrown => Steps Throw acc s
      | Waits => Waits
      | Steps m' acc' s' => Steps (Bind m' k) acc' s'
      end
  | Defer d body =>
      match step body acc s with
      | Value x => Steps (Bind d (λ _, Ret x)) acc s
      | Thrown => Steps (Bind d (λ _, Throw)) acc s
      | Waits => Waits
      | Steps body' acc' s' => Steps (Defer d body') acc' s'
      end
  | Throw => Thrown
  end.

(** The access that a program is about to make, or is making: that of its
    first action. *)
Fixpoint head {A} (p : prog A) : access :=
  match p with
  | Act a => need a
  | Bind m _ => head m
  | Defer _ body => head body
  | _ => Idle
  end.

(** Whether a program is about to take the mutex. *)
Fixpoint acquiring {A} (p : prog A) : bool :=
  match p with
  | Act a => match a with RLock | Lock => true | _ => false end
  | Bind m _ => acquiring m
  | Defer _ body => acquiring body
  | _ => false
  end.

(** A goroutine of the server: the request it serves, what is left of the
    handler, and where it is in an access to the map. *)
Inductive method : Set := GET | PUT.

Record goroutine : Type := mkGoroutine {
  meth : method;
  req : Request;
  code : prog Response;
  phase : access
}.

Section Goroutines.
Context `{TimeCodec}.

Definition handler (m : method) (r : Request) : prog Response :=
  match m with
  | GET => getWeatherHandler r
  | PUT => updateWeatherHandler r
  end.

(** The server at work: a request arrives and a goroutine starts to serve
    it, the clock moves, or one of the goroutines takes a step. *)
Inductive sched : list goroutine * Shared → list goroutine * Shared → Prop :=
| sched_arrive (m : method) (r : Request) (ts : list goroutine) (s : Shared) :
    sched (ts, s)
          (ts ++ [{| meth := m; req := r; code := handler m r; phase := Idle |}], s)
| sched_tick (t : Time) (ts : list goroutine) (s : Shared) :
    sched (ts, s)
          (ts, {| world := withClock t (world s); loading := loading s;
                  storing := storing s; raced := raced s; log := log s |})
| sched_step (i : nat) (g : goroutine) (p : prog Response) (acc : access)
    (ts : list goroutine) (s s' : Shared) :
    ts !! i = Some g →
    step (code g) (phase g) s = Steps p acc s' →
    sched (ts, s)
          (<[i := {| meth := meth g; req := req g; code := p; phase := acc |}]> ts, s').

End Goroutines.

(** The server when it starts. *)
Definition start (t : Time) : list goroutine * Shared :=
  ([], {| world := boot t; loading := 0; storing := 0; raced := false; log := [] |}).

(** A goroutine that is in an access to the map is at the action that makes
    it. *)
Definition aligned (c : list goroutine * Shared) : Prop :=
  ∀ i g, c.1 !! i = Some g → phase g = Idle ∨ head (code g) = phase g.

(** The map that a log of accesses makes, from the empty map. *)
Fixpoint replay (evs : list event) (m : gmap string pointer) : gmap string pointer :=
  match evs with
  | [] => m
  | Looked _ _ :: rest => replay rest m
  | Assigned key v _ :: rest => replay rest (<[key := v]> m)
  end.

(** A log is the history of a map used by one caller at a time: every lookup
    found what the assignments before it had left under its key. *)
Fixpoint legal (evs : list event) (m : gmap string pointer) : Prop :=
  match evs with
  | [] => True
  | Looked key v :: rest => v = default nilptr (m !! key) ∧ legal rest m
  | Assigned key v _ :: rest => legal rest (<[key := v]> m)
  end.

(** ** What a goroutine holds *)

(** The lock a goroutine holds on the mutex of the storage. *)
Inductive holds : Set := Free | ReadLocked | WriteLocked.

Global Instance holds_eq_dec : EqDecision holds.
Proof. solve_decision. Defined.

(** What a goroutine holds and knows: its lock, the records that it alone
    has a pointer to, each with its value, the records it has seen in the
    map, each with the key and the value it was put with, and its own
    accesses to the map. *)
Record ghost : Type := mkGhost {
  held : holds;
  own : gmap loc Weather;
  known : gmap loc (string * Weather);
  seen : list event
}.

Definition setHeld (h : holds) (g : ghost) : ghost :=
  {| held := h; own := own g; known := known g; seen := seen g |}.
Definition setOwn (o : gmap loc Weather) (g : ghost) : ghost :=
  {| held := held g; own := o; known := known g; seen := seen g |}.
Definition publish (l : loc) (key : string) (w : Weather) (g : ghost) : ghost :=
  {| held := held g; own := delete l (own g);
     known := <[l := (key, w)]> (known g);
     seen := Assigned key (addr l) (Some w) :: seen g |}.
Definition learn (l : loc) (key : string) (w : Weather) (g : ghost) : ghost :=
  {| held := held g; own := own g;
     known := <[l := (key, w)]> (known g);
     seen := Looked key (addr l) :: seen g |}.
Definition miss (key : string) (g : ghost) : ghost :=
  {| held := held g; own := own g; known := known g;
     seen := Looked key nilptr :: seen g |}.

(** The value of a record, as far as the goroutine can tell. *)
Definition visible (g : ghost) (l : loc) : option Weather :=
  match own g !! l with
  | Some w => Some w
  | None => snd <$> known g !! l
  end.

(** What a goroutine must hold for an action to be safe, and what it holds
    after it, for every result the action can have: the mutex is taken free
    and released held; the map is read under a lock and assigned to under
    the write lock, with a record the goroutine owns, which it gives up;
    only owned records are written. *)
Definition wpAct {A} (a : action A) (g : ghost) : (A → ghost → Prop) → Prop :=
  match a in action T return (T → ghost → Prop) → Prop with
  | RLock => λ Q, held g = Free ∧ Q tt (setHeld ReadLocked g)
  | RUnlock => λ Q, held g = ReadLocked ∧ Q tt (setHeld Free g)
  | Lock => λ Q, held g = Free ∧ Q tt (setHeld WriteLocked g)
  | Unlock => λ Q, held g = WriteLocked ∧ Q tt (setHeld Free g)
  | MapLoad key => λ Q,
      held g ≠ Free ∧ Q (nilptr, false) (miss key g) ∧
      ∀ l w, own g !! l = None → Q (addr l, true) (learn l key w g)
  | MapStore key v => λ Q,
      held g = WriteLocked ∧
      ∃ l w, v = addr l ∧ own g !! l = Some w ∧ City w = key ∧
             Q tt (publish l key w g)
  | New v => λ Q,
      ∀ l, own g !! l = None → known g !! l = None →
           Q (addr l) (setOwn (<[l := v]> (own g)) g)
  | Load p => λ Q, ∃ l w, p = addr l ∧ visible g l = Some w ∧ Q w g
  | LoadCity p => λ Q, ∃ l w, p = addr l ∧ visible g l = Some w ∧ Q (City w) g
  | Store p v => λ Q,
      ∃ l w, p = addr l ∧ own g !! l = Some w ∧ Q tt (setOwn (<[l := v]> (own g)) g)
  | StoreCity p c => λ Q,
      ∃ l w, p = addr l ∧ own g !! l = Some w ∧
             Q tt (setOwn (<[l := setCity c w]> (own g)) g)
  | StoreUpdatedAt p t => λ Q,
      ∃ l w, p = addr l ∧ own g !! l = Some w ∧
             Q tt (setOwn (<[l := setUpdatedAt t w]> (own g)) g)
  | Now => λ Q, ∀ t, Q t g
  end.

(** The same for a program: [wp p g Q] when [p], run by a goroutine that
    holds [g], is safe whatever the other goroutines do, and [Q] holds of
    its result and of what the goroutine holds when it returns. *)
Fixpoint wp {A} (p : prog A) : ghost → (A → ghost → Prop) → Prop :=
  match p in prog T return ghost → (T → ghost → Prop) → Prop with
  | Ret a => λ g Q, Q a g
  | Act a => λ g Q, wpAct a g Q
  | Bind m k => λ g Q, wp m g (λ x g', wp (k x) g' Q)
  | Defer d body => λ g Q, wp body g (λ x g', wp d g' (λ _ g'', Q x g''))
  | Throw => λ _ _, False
  end.

(** How many goroutines satisfy [f]. *)
Fixpoint count {X} (f : X → bool) (l : list X) : nat :=
  match l with
  | [] => 0
  | x :: rest => (if f x then 1 else 0) + count f rest
  end.

Definition isReader (γ : access * ghost) : bool :=
  bool_decide (held γ.2 = ReadLocked).
Definition inLoad (γ : access * ghost) : bool := bool_decide (γ.1 = InLoad).
Definition inStore (γ : access * ghost) : bool := bool_decide (γ.1 = InStore).

(** The invariant of the server, in four parts. What the goroutines hold
    agrees with the mutex: *)
Record lockInv (m : RWMutex) (γs : list (access * ghost)) : Prop := {
  inv_readers : readers m = count isReader γs;
  inv_writer :
    writer m = false → ∀ i γ, γs !! i = Some γ → held γ.2 ≠ WriteLocked;
  inv_excl :
    ∀ i j γi γj, γs !! i = Some γi → γs !! j = Some γj →
      held γi.2 = WriteLocked → held γj.2 ≠ Free → i = j;
  inv_held :
    writer m = true → ∃ i γ, γs !! i = Some γ ∧ held γ.2 = WriteLocked
}.

(** the accesses under way are those of the goroutines, each under its
    lock, and none of them conflicted: *)
Record accessInv (s : Shared) (γs : list (access * ghost)) : Prop := {
  inv_loading : loading s = count inLoad γs;
  inv_storing : storing s = count inStore γs;
  inv_access :
    ∀ i γ, γs !! i = Some γ →
      match γ.1 with
      | Idle => True
      | InLoad => held γ.2 ≠ Free
      | InStore => held γ.2 = WriteLocked
      end;
  inv_raced : raced s = false
}.

(** the records a goroutine owns are on the heap with the values it knows,
    no other goroutine owns them and they were never put in the map; the
    records that were put in the map, [pub], have the values they were put
    with, and the log tells of each; the accesses a goroutine has made are
    in the log: *)
Record heapInv (h : gmap loc Weather) (evs : list event)
    (pub : gmap loc (string * Weather)) (γs : list (access * ghost)) : Prop := {
  inv_own :
    ∀ i γ l w, γs !! i = Some γ → own γ.2 !! l = Some w →
      h !! l = Some w ∧ pub !! l = None;
  inv_sep :
    ∀ i j γi γj l, i ≠ j → γs !! i = Some γi → γs !! j = Some γj →
      is_Some (own γi.2 !! l) → own γj.2 !! l = None;
  inv_known :
    ∀ i γ l kw, γs !! i = Some γ → known γ.2 !! l = Some kw → pub !! l = Some kw;
  inv_pub :
    ∀ l key w, pub !! l = Some (key, w) →
      h !! l = Some w ∧ City w = key ∧ Assigned key (addr l) (Some w) ∈ evs;
  inv_logged :
    ∀ key v x, Assigned key v x ∈ evs →
      ∃ l w, v = addr l ∧ x = Some w ∧ pub !! l = Some (key, w);
  inv_seen :
    ∀ i γ e, γs !! i = Some γ → e ∈ seen γ.2 → e ∈ evs
}.

(** the map holds pointers to records that were put in it, under their key,
    and it is what the accesses of the log make of the empty map, one after
    the other. *)
Record mapInv (ws : gmap string pointer) (evs : list event)
    (pub : gmap loc (string * Weather)) : Prop := {
  inv_map :
    ∀ key v, ws !! key = Some v → ∃ l w, v = addr l ∧ pub !! l = Some (key, w);
  inv_replay : ws = replay evs ∅;
  inv_legal : legal evs ∅
}.

Definition consistent (γs : list (access * ghost)) (s : Shared)
    (pub : gmap loc (string * Weather)) : Prop :=
  lockInv (mu (storage (world s))) γs ∧
  accessInv s γs ∧
  heapInv (heap (world s)) (log s) pub γs ∧
  mapInv (weathers (storage (world s))) (log s) pub.


(** The log grows by lookups only. *)
Definition lookups (evs' : list event) : Prop :=
  ∀ key v x, Assigned key v x ∉ evs'.

(** A goroutine that held [γ] and now holds [γ'] remembers, besides what it
    did, only accesses of [evs']. *)
Definition remembers (γ γ' : access * ghost) (evs' : list event) : Prop :=
  ∀ e, e ∈ seen γ'.2 → e ∈ seen γ.2 ∨ e ∈ evs'.

(** A goroutine that has just started holds nothing. *)
Definition nothing : ghost :=
  {| held := Free; own := ∅; known := ∅; seen := [] |}.


Section ServerDefs.
Context `{TimeCodec}.

(** What a handler answers, and what the goroutine holds when it does: no
    lock. A GET looked the city up in the map: with nothing found it answers
    404, and with a pointer found it answers with the record that was put
    in the map with this pointer. A PUT that does not answer 400 assigned a
    record to the city, with the time of some instant and the temperature
    of the body, and answers with it. *)
Definition answers (m : method) (r : Request) (rsp : Response) (g : ghost) : Prop :=
  held g = Free ∧
  match m with
  | GET =>
      (urlCity r = "" ∧
       rsp = httpError "City parameter is required" StatusBadRequest) ∨
      (Looked (urlCity r) nilptr ∈ seen g ∧
       rsp = httpError ("Weather for city '" ++ urlCity r ++ "' not found")
                       StatusNotFound) ∨
      ∃ l w, Looked (urlCity r) (addr l) ∈ seen g ∧
             known g !! l = Some (urlCity r, w) ∧ rsp = renderJSON w
  | PUT =>
      (urlCity r = "" ∧
       rsp = httpError "City parameter is required" StatusBadRequest) ∨
      (decodes (reqBody r) = false ∧
       rsp = httpError "Invalid request body" StatusBadRequest) ∨
      ∃ l t, let w := stamped (urlCity r) t (payload (reqBody r)).1 in
        decodes (reqBody r) = true ∧
        Assigned (urlCity r) (addr l) (Some w) ∈ seen g ∧
        rsp = renderJSON w
  end.

(** The invariant of the server: what is left of every handler is safe for
    what its goroutine holds, and what the goroutines hold is consistent
    with the shared state. *)
Definition safe (c : list goroutine * Shared) : Prop :=
  ∃ γs pub,
    consistent γs c.2 pub ∧
    Forall2 (λ t γ, phase t = γ.1 ∧
                    wp (code t) γ.2 (answers (meth t) (req t))) c.1 γs.


(** What the log tells about the response of a handler. *)
Definition observed (m : method) (r : Request) (rsp : Response)
    (evs : list event) : Prop :=
  match m with
  | GET =>
      (urlCity r = "" ∧
       rsp = httpError "City parameter is required" StatusBadRequest) ∨
      (Looked (urlCity r) nilptr ∈ evs ∧
       rsp = httpError ("Weather for city '" ++ urlCity r ++ "' not found")
                       StatusNotFound) ∨
      ∃ l w, Looked (urlCity r) (addr l) ∈ evs ∧
             Assigned (urlCity r) (addr l) (Some w) ∈ evs ∧
             rsp = renderJSON w
  | PUT =>
      (urlCity r = "" ∧
       rsp = httpError "City parameter is required" StatusBadRequest) ∨
      (decodes (reqBody r) = false ∧
       rsp = httpError "Invalid request body" StatusBadRequest) ∨
      ∃ l t, let w := stamped (urlCity r) t (payload (reqBody r)).1 in
        decodes (reqBody r) = true ∧
        Assigned (urlCity r) (addr l) (Some w) ∈ evs ∧
        rsp = renderJSON w
  end.

(** A request arrives. *)
Definition arrive (m : method) (r : Request) (c : list goroutine * Shared)
  : list goroutine * Shared :=
  (c.1 ++ [{| meth := m; req := r; code := handler m r; phase := Idle |}], c.2).

(** The goroutine [i] takes a step, if it can. *)
Definition advance (i : nat) (c : list goroutine * Shared)
  : list goroutine * Shared :=
  match c.1 !! i with
  | Some g =>
      match step (code g) (phase g) c.2 with
      | Steps p acc s' =>
          (<[i := {| meth := meth g; req := req g; code := p; phase := acc |}]> c.1, s')
      | _ => c
      end
  | None => c
  end.

(** The goroutines take steps in the order of the list. *)
Definition schedule (order : list nat) (c : list goroutine * Shared)
  : list goroutine * Shared :=
  foldl (λ c i, advance i c) c order.

End ServerDefs.

(** ** cmd/http_client/main.go *)

Definition serverURL : string := "http://localhost:8080".
Definition defaultCityName : string := "Moscow".

(** [fmt.Sprintf("%s"+weatherAPIPath, serverURL, city)]. *)
Definition weatherURL (city : string) : string :=
  serverURL ++ "/api/v1/weather/" ++ city.

(** What [io.ReadAll(resp.Body)] gives: an error, or the bytes, as
    [json.Unmarshal] reads them. *)
Inductive ReadAll : Type :=
| ReadFailed
| Bytes (b : RequestBody).

(** [http.Response], as far as the client looks at it. *)
Record HTTPResponse : Type := mkHTTPResponse {
  StatusCode : Z;
  Body : ReadAll
}.

(** The network, as the client uses it, over the states [N] of what is at
    the other end: whether [http.NewRequestWithContext] accepts the method
    and the URL, and what [httpClient.Do] gives for a request with a method,
    a URL and a body (nil, or the bytes of a JSON document): no response (an
    error), or the response. *)
Record Transport (N : Type) : Type := mkTransport {
  NewRequest : method → string → bool;
  Do : method → string → option json → N → option HTTPResponse * N
}.
Arguments NewRequest {N} _ _ _.
Arguments Do {N} _ _ _ _ _.

(** The errors of the client, by the message that wraps them. *)
Inductive clientError : Type :=
| GetRequestCreate                               (* "get request create: %w" *)
| ExecutingGetRequest                            (* "executing get request: %w" *)
| GetWeatherData (code : Z) (name : string)      (* "get weather data (status %d): %s" *)
| ReadRespBody                                   (* "read resp body error: %w" *)
| JSONDecode (e : error)                         (* "JSON decode: %w" *)
| JSONEncode (e : error)                         (* "JSON encode: %w" *)
| PutRequestCreate                               (* "put request create: %w" *)
| PutReqExec                                     (* "put req exec: %w" *)
| UpdateWeatherData (code : Z) (name : string).  (* "update weather data (status %d): %s" *)

(** [generateRandomWeather], with the number that [gofakeit.Float64Range]
    draws. *)
Definition generateRandomWeather (draw : float64) : Weather :=
  {| City := ""; Temperature := draw; UpdatedAt := zeroTime |}.

(** How [main] ends. *)
Inductive ending : Type :=
| GetError (e : clientError)         (* "Error: %v" *)
| UpdateError (e : clientError)      (* "Update weather error: %v" *)
| GetUpdatedError (e : clientError)  (* "Get weather error: %v" *)
| Unexpected                         (* "Unexpected: weather data does not exist after update" *)
| Finished (weather : Weather).      (* "Testing finished successfully" *)

Section Client.
Context `{TimeCodec} {N : Type} (T : Transport N).

(** The end of [getWeather] and of [updateWeather]: the body of a response
    with status 200 is read and decoded into a new record. *)
Definition readWeather (resp : HTTPResponse) : option Weather * option clientError :=
  match Body resp with
  | ReadFailed => (None, Some ReadRespBody)
  | Bytes b =>
      match payload b with
      | (_, Some e) => (None, Some (JSONDecode e))
      | (weather, None) => (Some weather, None)
      end
  end.

(** [getWeather(ctx, city)]: the pointer it returns (nil, or a new record)
    and its error, and the state it leaves at the other end. *)
Definition getWeather (city : string) (n : N)
  : (option Weather * option clientError) * N :=
  if negb (NewRequest T GET (weatherURL city)) then ((None, Some GetRequestCreate), n)
  else
    match Do T GET (weatherURL city) None n with
    | (None, n') => ((None, Some ExecutingGetRequest), n')
    | (Some resp, n') =>
        if decide (StatusCode resp = StatusNotFound) then ((None, None), n')
        else if decide (StatusCode resp ≠ StatusOK) then
          ((None, Some (GetWeatherData (StatusCode resp) defaultCityName)), n')
        else (readWeather resp, n')
    end.

(** [updateWeather(ctx, city, weather)]; [weather] is nil or points to a
    record. *)
Definition updateWeather (city : string) (weather : option Weather) (n : N)
  : (option Weather * option clientError) * N :=
  match (match weather with Some w => Marshal w | None => inl JNull end) with
  | inr e => ((None, Some (JSONEncode e)), n)
  | inl jsonData =>
      if negb (NewRequest T PUT (weatherURL city)) then
        ((None, Some PutRequestCreate), n)
      else
        match Do T PUT (weatherURL city) (Some jsonData) n with
        | (None, n') => ((None, Some PutReqExec), n')
        | (Some resp, n') =>
            if decide (StatusCode resp ≠ StatusOK) then
              ((None, Some (UpdateWeatherData (StatusCode resp) defaultCityName)), n')
            else (readWeather resp, n')
        end
  end.

(** [main], with the number drawn for the temperature. *)
Definition main (draw : float64) (n : N) : ending * N :=
  match getWeather defaultCityName n with
  | ((_, Some err), n1) => (GetError err, n1)
  | ((_, None), n1) =>
      let newWeather := generateRandomWeather draw in
      match updateWeather defaultCityName (Some newWeather) n1 with
      | ((_, Some err), n2) => (UpdateError err, n2)
      | ((_, None), n2) =>
          match getWeather defaultCityName n2 with
          | ((_, Some err), n3) => (GetUpdatedError err, n3)
          | ((None, None), n3) => (Unexpected, n3)
          | ((Some weather, None), n3) => (Finished weather, n3)
          end
      end
  end.

End Client.

(** The body of a request, as the server reads it. *)
Definition sentBody (b : option json) : RequestBody :=
  match b with
  | None => NotJSON
  | Some doc => Document doc
  end.

(** The response a handler wrote, as the client receives it: its status,
    and, when its body is a JSON document, bytes that [json.Unmarshal] reads
    as that document (JSON text carries the numbers of [float64] and
    strings, taken to be valid UTF-8, unchanged). *)
Definition received (rsp : Response) (resp : HTTPResponse) : Prop :=
  StatusCode resp = status rsp ∧
  ∀ doc, body rsp = JSON doc → Body resp = Bytes (Document doc).

(** A transport to the server that delivers for a city: a request to the
    URL of the city reaches the handler of its method, with the city as the
    parameter of the path, and the response of the handler reaches the
    client. *)
Definition delivers `{TimeCodec} (T : Transport World) (city : string) : Prop :=
  ∀ (m : method) (b : option json) (σ σ' : World) (rsp : Response),
    run (handler m {| urlCity := city; reqBody := sentBody b |}) σ = Done rsp σ' →
    NewRequest T m (weatherURL city) = true ∧
    ∃ resp, Do T m (weatherURL city) b σ = (Some resp, σ') ∧ received rsp resp.

(** [time.Time] is read back from its JSON text as the instant it was. *)
Definition roundTrips `{TimeCodec} : Prop :=
  ∀ t text, MarshalJSON t = Some text → UnmarshalJSON text = Some t.

(** ** Examples *)

(** For the examples: a codec that knows one timestamp, the Unix epoch. *)
Definition epochCodec : TimeCodec :=
  {| UnmarshalJSON s :=
       if decide (s = "1970-01-01T00:00:00Z") then Some 0%Z else None;
     MarshalJSON t :=
       if decide (t = 0%Z) then Some "1970-01-01T00:00:00Z" else None |}.

(** A world for the examples: one record on the heap of a server that has
    just started. *)
Definition moscow : Weather :=
  {| City := "Moscow"; Temperature := 21.5%float; UpdatedAt := 0%Z |}.
Definition nowhere : Weather :=
  {| City := ""; Temperature := (-3)%float; UpdatedAt := 0%Z |}.
Definition example : World :=
  withHeap (<[2%positive := nowhere]> (<[1%positive := moscow]> ∅)) (boot 0%Z).
Definition putMoscow : Request :=
  {| urlCity := "Moscow";
     reqBody := Document (JObject [("city", JString "Paris");
                                   ("temperature", JNumber 21.5%float);
                                   ("updated_at", JString "1970-01-01T00:00:00Z")]) |}.

Definition getMoscow : Request := {| urlCity := "Moscow"; reqBody := NotJSON |}.
Definition putHot : Request :=
  {| urlCity := "Moscow";
     reqBody := Document (JObject [("temperature", JString "hot")]) |}.

Definition pMoscow : pointer := addr 1%positive.
Definition pNowhere : pointer := addr 2%positive.

(** The world after [putMoscow] was served by a server that has just
    started. *)
Definition moscowServed : World :=
  @execute epochCodec [OpPutRequest putMoscow] (boot 0%Z).

(** A later reading for Moscow, and a world whose map has entries already:
    the records [moscow], [nowhere] and [moscowLater] are on the heap, the
    first two are in the map under their cities, and the clock shows the
    instant 7. *)
Definition moscowLater : Weather :=
  {| City := "Moscow"; Temperature := 25.5%float; UpdatedAt := 5%Z |}.
Definition pMoscowLater : pointer := addr 3%positive.
Definition stocked : World :=
  {| heap := <[3%positive := moscowLater]> (heap example);
     storage := {| mu := unlocked;
                   weathers := <["" := pNowhere]> (<["Moscow" := pMoscow]> ∅) |};
     clock := 7%Z |}.

(** The same world while a writer holds the mutex, and while two readers
    do. *)
Definition writing : World :=
  {| heap := heap stocked;
     storage := {| mu := {| writer := true; readers := 0 |};
                   weathers := weathers (storage stocked) |};
     clock := clock stocked |}.
Definition reading : World :=
  {| heap := heap stocked;
     storage := {| mu := {| writer := false; readers := 2 |};
                   weathers := weathers (storage stocked) |};
     clock := clock stocked |}.

(** A PUT for Moscow whose body names another city, a temperature that is
    not the one stored in [stocked] and a time that is not the one of its
    clock. *)
Definition putCold : Request :=
  {| urlCity := "Moscow";
     reqBody := Document (JObject [("city", JString "Paris");
                                   ("temperature", JNumber (-7.25)%float);
                                   ("updated_at", JString "1970-01-01T00:00:00Z")]) |}.
Definition moscowCold : Weather :=
  {| City := "Moscow"; Temperature := (-7.25)%float; UpdatedAt := 0%Z |}.

(** A PUT whose body gives null for every field. *)
Definition putNulls : Request :=
  {| urlCity := "Moscow";
     reqBody := Document (JObject [("city", JNull); ("temperature", JNull);
                                   ("updated_at", JNull)]) |}.

(** A record that [json.Marshal] cannot encode. *)
Definition feverish : Weather :=
  {| City := "Moscow"; Temperature := nan; UpdatedAt := 0%Z |}.

(** The world after [UpdateWeather(&feverish)] on a server that has just
    started. *)
Definition feverishStored : World :=
  @execute epochCodec [OpPutNew feverish] (boot 0%Z).

(** A PUT that gives no temperature. *)
Definition putNoTemperature : Request :=
  {| urlCity := "Moscow"; reqBody := Document (JObject [("city", JString "Paris")]) |}.

(** Two requests have arrived at a server that has just started. *)
Definition twoRequests : list goroutine * Shared :=
  @arrive epochCodec GET getMoscow (@arrive epochCodec PUT putMoscow (start 0%Z)).

(** The PUT has taken 18 steps: it is assigning to the map; the GET has not
    started. *)
Definition assigning : list goroutine * Shared :=
  schedule (replicate 18 0) twoRequests.

(** The PUT has answered, and then the GET. *)
Definition answered : list goroutine * Shared :=
  schedule (replicate 25 0 ++ replicate 30 1) twoRequests.

(** Three requests have arrived at a server that has just started: two PUTs
    for Moscow and a GET. *)
Definition threeRequests : list goroutine * Shared :=
  @arrive epochCodec GET getMoscow
    (@arrive epochCodec PUT putCold (@arrive epochCodec PUT putMoscow (start 0%Z))).

(** The first PUT has answered. Then the GET took the mutex and began its
    lookup while the second PUT came to wait for the mutex; the GET answered,
    and then the second PUT. *)
Definition sawOld : list goroutine * Shared :=
  schedule (replicate 25 0 ++ replicate 3 2 ++ replicate 14 1 ++
            replicate 12 2 ++ replicate 12 1) threeRequests.

(** The first PUT has answered. Then the second PUT took the mutex and began
    to assign while the GET came to wait for the mutex; the PUT answered, and
    then the GET. *)
Definition sawNew : list goroutine * Shared :=
  schedule (replicate 25 0 ++ replicate 18 1 ++ replicate 3 2 ++
            replicate 10 1 ++ replicate 12 2) threeRequests.

(** A transport for the examples: every request is handed to the handler of
    its method, with [city] as the parameter of the path. *)
Definition loopback `{TimeCodec} (city : string) : Transport World :=
  {| NewRequest _ _ := true;
     Do m _ b σ :=
       match run (handler m {| urlCity := city; reqBody := sentBody b |}) σ with
       | Done rsp σ' =>
           (Some {| StatusCode := status rsp;
                    Body := Bytes match body rsp with
                                  | JSON doc => Document doc
                                  | Text _ => NotJSON
                                  end |}, σ')
       | _ => (None, σ)
       end |}.

(** A codec that knows two timestamps: the Unix epoch and the zero
    [time.Time]. *)
Definition yearOneCodec : TimeCodec :=
  {| UnmarshalJSON s :=
       if decide (s = "1970-01-01T00:00:00Z") then Some 0%Z
       else if decide (s = "0001-01-01T00:00:00Z") then Some zeroTime
       else None;
     MarshalJSON t :=
       if decide (t = 0%Z) then Some "1970-01-01T00:00:00Z"
       else if decide (t = zeroTime) then Some "0001-01-01T00:00:00Z"
       else None |}.

(** * Properties *)

(** ** The mutex *)

Lemma withMu_mu (σ : World) : withMu (mu (storage σ)) σ = σ.
Proof. by destruct σ as [h [m ws] t]. Qed.

Lemma rlock_runlock (m : RWMutex) :
  writer m = false → ∃ m', rlock m = Some m' ∧ runlock m' = Some m.
Proof.
  destruct m as [w n]; simpl; intros ->.
  eexists; split; reflexivity.
Qed.

Lemma lock_unlock (m : RWMutex) :
  m = unlocked → ∃ m', lock m = Some m' ∧ unlock m' = Some m.
Proof. intros ->. eexists; split; reflexivity. Qed.

(** ** GetWeather and UpdateWeather, run alone *)

Lemma GetWeather_run (city : string) (σ : World) :
  writer (mu (storage σ)) = false →
  run (GetWeather city) σ = Done (stored city σ) σ.
Proof.
  intros Hw. destruct σ as [h [[w n] ws] t]; simpl in *; subst w.
  unfold stored; simpl.
  by destruct (ws !! city).
Qed.

Lemma GetWeather_blocked (city : string) (σ : World) :
  writer (mu (storage σ)) = true → run (GetWeather city) σ = Blocked.
Proof.
  intros Hw. destruct σ as [h [[w n] ws] t]; simpl in *; subst w. reflexivity.
Qed.

Lemma UpdateWeather_run (p : pointer) (w : Weather) (σ : World) :
  idle σ → deref p σ = Some w →
  run (UpdateWeather p) σ =
    Done tt (withWeathers (<[City w := p]> (weathers (storage σ))) σ).
Proof.
  unfold idle. intros Hm Hp. destruct σ as [h [m ws] t]; simpl in *; subst m.
  destruct p as [|l]; simpl in *; [done|]. by rewrite Hp.
Qed.

Lemma UpdateWeather_panics (p : pointer) (σ : World) :
  idle σ → deref p σ = None → run (UpdateWeather p) σ = Panicked σ.
Proof.
  unfold idle. intros Hm Hp. destruct σ as [h [m ws] t]; simpl in *; subst m.
  destruct p as [|l]; simpl in *; [done|]. by rewrite Hp.
Qed.

(** ** Running programs step by step *)

Lemma run_bind {A B} (m : prog A) (k : A → prog B) (σ σ' : World) (x : A) :
  run m σ = Done x σ' → run (Bind m k) σ = run (k x) σ'.
Proof. intros Hm. simpl. by rewrite Hm. Qed.

Lemma run_new (v : Weather) (σ : World) :
  run (Act (New v)) σ =
    Done (addr (fresh (dom (heap σ))))
         (withHeap (<[fresh (dom (heap σ)) := v]> (heap σ)) σ).
Proof. reflexivity. Qed.

Lemma fresh_heap (σ : World) : heap σ !! fresh (dom (heap σ)) = None.
Proof. apply not_elem_of_dom, is_fresh. Qed.

Lemma run_load (l : loc) (w : Weather) (σ : World) :
  heap σ !! l = Some w → run (Act (Load (addr l))) σ = Done w σ.
Proof. intros Hl. simpl. by rewrite Hl. Qed.

Lemma run_update (l : loc) (w : Weather) (f : Weather → Weather) (σ : World) :
  heap σ !! l = Some w →
  update (addr l) f σ = Done tt (withHeap (<[l := f w]> (heap σ)) σ).
Proof. intros Hl. simpl. by rewrite Hl. Qed.

(** ** The handlers, run alone *)

Section HandlerRuns.
Context `{TimeCodec}.

Lemma Decode_run (b : RequestBody) (l : loc) (σ : World) :
  heap σ !! l = Some zeroWeather →
  run (Decode b (addr l)) σ =
    Done (payload b).2 (withHeap (<[l := (payload b).1]> (heap σ)) σ).
Proof.
  intros Hl. destruct b as [|doc]; simpl.
  - rewrite insert_id by done. by destruct σ.
  - rewrite Hl. destruct (Unmarshal doc zeroWeather) as [w' err]; simpl.
    by rewrite Hl.
Qed.

Lemma getWeatherHandler_empty (r : Request) (σ : World) :
  urlCity r = "" →
  run (getWeatherHandler r) σ =
    Done (httpError "City parameter is required" StatusBadRequest) σ.
Proof. intros Hc. unfold getWeatherHandler. by rewrite decide_True. Qed.

Lemma getWeatherHandler_run (r : Request) (σ : World) :
  writer (mu (storage σ)) = false → urlCity r ≠ "" →
  run (getWeatherHandler r) σ =
    match stored (urlCity r) σ with
    | nilptr =>
        Done (httpError ("Weather for city '" ++ urlCity r ++ "' not found")
                        StatusNotFound) σ
    | addr l =>
        match heap σ !! l with
        | Some v => Done (renderJSON v) σ
        | None => Panicked σ
        end
    end.
Proof.
  intros Hw Hc. unfold getWeatherHandler. rewrite decide_False by done.
  rewrite (run_bind _ _ _ _ _ (GetWeather_run _ _ Hw)).
  destruct (stored (urlCity r) σ) as [|l]; simpl; [done|].
  by destruct (heap σ !! l).
Qed.

Lemma updateWeatherHandler_empty (r : Request) (σ : World) :
  urlCity r = "" →
  run (updateWeatherHandler r) σ =
    Done (httpError "City parameter is required" StatusBadRequest) σ.
Proof. intros Hc. unfold updateWeatherHandler. by rewrite decide_True. Qed.

Lemma updateWeatherHandler_rejects (r : Request) (σ : World) (w : Weather) (e : error) :
  urlCity r ≠ "" → payload (reqBody r) = (w, Some e) →
  run (updateWeatherHandler r) σ =
    Done (httpError "Invalid request body" StatusBadRequest)
         (withHeap (<[fresh (dom (heap σ)) := w]> (heap σ)) σ).
Proof.
  intros Hc Hp. unfold updateWeatherHandler. rewrite decide_False by done.
  rewrite (run_bind _ _ _ _ _ (run_new _ _)).
  erewrite run_bind; last by (apply Decode_run; simpl; apply lookup_insert_eq).
  rewrite Hp; simpl. by rewrite insert_insert_eq.
Qed.

Lemma updateWeatherHandler_accepts (r : Request) (σ : World) (w : Weather) :
  idle σ → urlCity r ≠ "" → payload (reqBody r) = (w, None) →
  let l := fresh (dom (heap σ)) in
  let v := stamped (urlCity r) (clock σ) w in
  run (updateWeatherHandler r) σ =
    Done (renderJSON v)
         (withWeathers (<[urlCity r := addr l]> (weathers (storage σ)))
            (withHeap (<[l := v]> (heap σ)) σ)).
Proof.
  intros Hi Hc Hp l v. unfold updateWeatherHandler. rewrite decide_False by done.
  rewrite (run_bind _ _ _ _ _ (run_new _ _)).
  erewrite run_bind; last by (apply Decode_run; simpl; apply lookup_insert_eq).
  rewrite Hp. cbn [fst snd]. subst l v.
  destruct σ as [h [m ws] t]. unfold idle in Hi. simpl in Hi. subst m.
  simpl. rewrite !lookup_insert_eq. simpl. rewrite !lookup_insert_eq. simpl.
  rewrite !lookup_insert_eq. simpl. rewrite !lookup_insert_eq.
  by rewrite !insert_insert_eq.
Qed.

End HandlerRuns.

(** ** What one call does to the world *)

Section CallEffects.
Context `{TimeCodec}.

Lemma decodeField_finite (key : string) (v : json) (w : Weather) :
  is_finite (Temperature w) = true →
  is_finite (Temperature (decodeField key v w).1) = true.
Proof.
  intros Hw. unfold decodeField.
  destruct (equalFold key "city"); [by destruct v|].
  destruct (equalFold key "temperature").
  { destruct v as [| |f| | |]; try done. by destruct (is_finite f) eqn:Hf. }
  destruct (equalFold key "updated_at"); [|done].
  destruct v as [| | |s| |]; try done. by destruct (UnmarshalJSON s).
Qed.

Lemma decodeObject_finite (fields : list (string * json)) (w : Weather)
    (saved : option error) :
  is_finite (Temperature w) = true →
  is_finite (Temperature (decodeObject fields w saved).1) = true.
Proof.
  revert w saved. induction fields as [|[key v] fields IH]; intros w saved Hw; [done|].
  simpl. pose proof (decodeField_finite key v w Hw) as Hf.
  destruct (decodeField key v w) as [w' [e|]]; simpl in Hf; [|by apply IH].
  destruct e; try by apply IH. done.
Qed.

Lemma payload_finite (b : RequestBody) :
  is_finite (Temperature (payload b).1) = true.
Proof.
  destruct b as [|doc]; [done|]. simpl.
  destruct doc; try done. by apply decodeObject_finite.
Qed.

Lemma call_effect (o : op) (σ : World) :
  idle σ →
  ∃ k, effect σ k (call o σ) ∧
       (∀ c w, k = Some (c, w) →
          written o σ = Some c ∧
          (served o → is_finite (Temperature w) = true ∧ UpdatedAt w = clock σ)).
Proof.
  intros Hi. assert (Hw : writer (mu (storage σ)) = false) by by rewrite Hi.
  destruct o as [city|p|v|r|r|t]; unfold call, written.
  - rewrite GetWeather_run by done. exists None. split; [constructor|done].
  - destruct (deref p σ) as [w|] eqn:Hp.
    + rewrite (UpdateWeather_run _ w) by done. eexists; split; [by constructor|].
      by intros ?? [= <- <-].
    + rewrite UpdateWeather_panics by done. exists None. split; [constructor|done].
  - rewrite (run_bind _ _ _ _ _ (run_new _ _)).
    rewrite (UpdateWeather_run _ v); [|done|by simpl; rewrite lookup_insert_eq].
    simpl. eexists; split; [apply effect_put_new|]. by intros ?? [= <- <-].
  - destruct (decide (urlCity r = "")) as [Hc|Hc].
    + rewrite getWeatherHandler_empty by done. exists None. split; [constructor|done].
    + rewrite getWeatherHandler_run by done.
      exists None. split; [|done].
      destruct (stored (urlCity r) σ) as [|l]; [constructor|].
      destruct (heap σ !! l); constructor.
  - destruct (decide (urlCity r = "")) as [Hc|Hc].
    + rewrite updateWeatherHandler_empty by done. exists None. split; [constructor|done].
    + destruct (payload (reqBody r)) as [w [e|]] eqn:Hp.
      * rewrite (updateWeatherHandler_rejects _ _ w e) by done.
        exists None. split; [constructor|done].
      * rewrite (updateWeatherHandler_accepts _ _ w) by done.
        simpl. exists (Some (urlCity r, stamped (urlCity r) (clock σ) w)).
        split; [apply (effect_put_new σ (stamped (urlCity r) (clock σ) w))|].
        intros ?? [= <- <-]. split; [done|]. intros _. split; [|done].
        simpl. pose proof (payload_finite (reqBody r)) as Hf. by rewrite Hp in Hf.
  - exists None. split; [constructor|done].
Qed.

End CallEffects.

Lemma effect_idle (σ σ' : World) (k : option (string * Weather)) :
  effect σ k σ' → idle σ → idle σ'.
Proof. by destruct 1. Qed.

Lemma deref_alloc (p : pointer) (w v : Weather) (σ : World) :
  deref p σ = Some w →
  deref p (withHeap (<[fresh (dom (heap σ)) := v]> (heap σ)) σ) = Some w.
Proof.
  destruct p as [|l]; simpl; [done|]. intros Hl.
  rewrite lookup_insert_ne; [done|]. intros <-. by rewrite fresh_heap in Hl.
Qed.

Lemma effect_records (P : string → Weather → Prop) (σ σ' : World)
    (k : option (string * Weather)) :
  effect σ k σ' → (∀ c w, k = Some (c, w) → P c w) →
  records P σ → records P σ'.
Proof.
  unfold records.
  destruct 1 as [|t|v|p w Hp|w]; intros HP Hk c q; simpl; try apply Hk.
  - intros Hq. destruct (Hk c q Hq) as (u & Hu & Hc).
    exists u. split; [|done]. by apply deref_alloc.
  - destruct (decide (City w = c)) as [<-|Hne].
    + rewrite lookup_insert_eq. intros [= <-]. exists w. split; [done|by apply HP].
    + rewrite lookup_insert_ne by done. apply Hk.
  - destruct (decide (City w = c)) as [<-|Hne].
    + rewrite lookup_insert_eq. intros [= <-]. exists w.
      split; [|by apply HP]. simpl. apply lookup_insert_eq.
    + rewrite lookup_insert_ne by done. intros Hq.
      destruct (Hk c q Hq) as (u & Hu & Hc). exists u. split; [|done].
      by apply (deref_alloc q u w σ).
Qed.

Lemma effect_keyed (σ σ' : World) (k : option (string * Weather)) :
  effect σ k σ' → keyed σ → keyed σ'.
Proof.
  intros He. apply (effect_records _ _ _ _ He).
  destruct He; intros c u; try done; by intros [= <- <-].
Qed.

Lemma effect_frame (σ σ' : World) (k : option (string * Weather)) (c : string) :
  effect σ k σ' → (∀ w, k ≠ Some (c, w)) →
  weathers (storage σ') !! c = weathers (storage σ) !! c.
Proof.
  destruct 1 as [|t|v|p w Hp|w]; intros Hne; simpl; try done.
  - apply lookup_insert_ne. intros <-. by apply (Hne w).
  - apply lookup_insert_ne. intros <-. by apply (Hne w).
Qed.

Section Sequences.
Context `{TimeCodec}.

Lemma boot_idle (t : Time) : idle (boot t).
Proof. reflexivity. Qed.

Lemma boot_keyed (t : Time) : keyed (boot t).
Proof. intros c p Hp. simpl in Hp. by rewrite lookup_empty in Hp. Qed.

Lemma execute_cons (o : op) (ops : list op) (σ : World) :
  execute (o :: ops) σ = execute ops (call o σ).
Proof. reflexivity. Qed.

Lemma execute_invariant (ops : list op) (σ : World) :
  idle σ → keyed σ → idle (execute ops σ) ∧ keyed (execute ops σ).
Proof.
  revert σ. induction ops as [|o ops IH]; intros σ Hi Hk; [done|].
  rewrite execute_cons.
  destruct (call_effect o σ Hi) as (k & He & _).
  apply IH; [by eapply effect_idle | by eapply effect_keyed].
Qed.

Lemma execute_absent (city : string) (ops : list op) (σ : World) :
  idle σ → weathers (storage σ) !! city = None →
  neverWritten city ops σ →
  weathers (storage (execute ops σ)) !! city = None.
Proof.
  revert σ. induction ops as [|o ops IH]; intros σ Hi Hc Hn; [done|].
  rewrite execute_cons. destruct Hn as [Ho Hn].
  destruct (call_effect o σ Hi) as (k & He & Hw).
  apply IH; [by eapply effect_idle | | done].
  rewrite (effect_frame _ _ _ city He); [done|].
  intros w ->. apply Ho. by eapply Hw.
Qed.

End Sequences.

(** ** The records of the store after a call *)

Lemma contents_lookup (c : string) (σ : World) :
  contents σ !! c = weathers (storage σ) !! c ≫= λ p, deref p σ.
Proof. unfold contents. by rewrite lookup_omap. Qed.

Lemma effect_contents (σ σ' : World) (k : option (string * Weather)) :
  effect σ k σ' → keyed σ →
  contents σ' = match k with
                | Some (c, w) => <[c := w]> (contents σ)
                | None => contents σ
                end.
Proof.
  intros He Hk. apply map_eq. intros c.
  destruct He as [|t|v|p w Hp|w]; rewrite ?lookup_insert, !contents_lookup; simpl.
  - done.
  - done.
  - destruct (weathers (storage σ) !! c) as [q|] eqn:Hq; simpl; [|done].
    destruct (Hk c q Hq) as (u & Hu & _). rewrite Hu. by apply deref_alloc.
  - rewrite lookup_insert. case_decide; simpl; [by destruct p|done].
  - rewrite lookup_insert. case_decide; simpl; [by rewrite lookup_insert_eq|].
    destruct (weathers (storage σ) !! c) as [q|] eqn:Hq; simpl; [|done].
    destruct (Hk c q Hq) as (u & Hu & _). rewrite Hu. by apply (deref_alloc q u w σ).
Qed.

(** * The properties of the specification *)

Section Store.
Context `{TimeCodec}.

(** C1. After [UpdateWeather(r)] has returned, [GetWeather(r.City)] returns
    the record [r]: the very pointer that was put, which refers to the same
    record. On the handler path the record that is read back is the decoded
    payload with the city of the path and with [UpdatedAt] set to the time
    of the server's clock. Of two updates for the same city, one after the
    other, a later read returns the second. *)
Theorem put_then_get :
  (∀ (σ : World) (p : pointer) (r : Weather),
     idle σ → deref p σ = Some r →
     ∃ σ', run (UpdateWeather p) σ = Done tt σ' ∧
           run (GetWeather (City r)) σ' = Done p σ' ∧
           deref p σ' = Some r) ∧
  (∀ (σ : World) (req : Request) (w : Weather),
     idle σ → urlCity req ≠ "" → payload (reqBody req) = (w, None) →
     ∃ rsp σ' q r,
       run (updateWeatherHandler req) σ = Done rsp σ' ∧
       run (GetWeather (urlCity req)) σ' = Done q σ' ∧
       deref q σ' = Some r ∧
       City r = urlCity req ∧ Temperature r = Temperature w ∧
       UpdatedAt r = clock σ) ∧
  (∀ (σ : World) (p1 p2 : pointer) (r1 r2 : Weather),
     idle σ → deref p1 σ = Some r1 → deref p2 σ = Some r2 →
     City r1 = City r2 →
     ∃ σ1 σ2, run (UpdateWeather p1) σ = Done tt σ1 ∧
              run (UpdateWeather p2) σ1 = Done tt σ2 ∧
              run (GetWeather (City r1)) σ2 = Done p2 σ2 ∧
              deref p2 σ2 = Some r2).
Proof.
  split; [|split].
  - intros σ p r Hi Hp. eexists. split; [by apply UpdateWeather_run|].
    split; [|by destruct p].
    rewrite GetWeather_run by (simpl; by rewrite Hi).
    unfold stored; simpl. by rewrite lookup_insert_eq.
  - intros σ req w Hi Hc Hp.
    eexists _, _, (addr (fresh (dom (heap σ)))),
      (stamped (urlCity req) (clock σ) w).
    split; [by apply updateWeatherHandler_accepts|].
    split; [|split; [|done]].
    + rewrite GetWeather_run by (simpl; by rewrite Hi).
      unfold stored; simpl. by rewrite lookup_insert_eq.
    + simpl. apply lookup_insert_eq.
  - intros σ p1 p2 r1 r2 Hi H1 H2 Hc.
    eexists _, _. split; [by apply UpdateWeather_run|].
    split; [apply (UpdateWeather_run p2 r2); [done|by destruct p2]|].
    split; [|by destruct p2].
    rewrite GetWeather_run by (simpl; by rewrite Hi).
    unfold stored; simpl. by rewrite Hc, lookup_insert_eq.
Qed.

(** C2. In every state that a sequence of calls leads to from a new store,
    every record of the map is stored under its own city. *)
Theorem records_keyed_by_city (t : Time) (ops : list op) :
  keyed (execute ops (boot t)).
Proof. apply execute_invariant; [apply boot_idle | apply boot_keyed]. Qed.

(** C6. A city that no call has written since the store was made is absent:
    [GetWeather] returns nil, as an ordinary result, and changes nothing. *)
Theorem never_written_absent (t : Time) (ops : list op) (city : string) :
  neverWritten city ops (boot t) →
  run (GetWeather city) (execute ops (boot t)) =
    Done nilptr (execute ops (boot t)).
Proof.
  intros Hn.
  destruct (execute_invariant ops (boot t) (boot_idle t) (boot_keyed t)) as [Hi _].
  rewrite GetWeather_run by by rewrite Hi.
  unfold stored. by rewrite (execute_absent city ops (boot t)).
Qed.

End Store.

Section StoreLaws.
Context `{TimeCodec}.

Lemma putRequest_contents (r : Request) (σ : World) :
  idle σ → keyed σ →
  let σ' := call (OpPutRequest r) σ in
  idle σ' ∧ keyed σ' ∧
  contents σ' =
    match payload (reqBody r) with
    | (w, None) =>
        if decide (urlCity r = "") then contents σ
        else <[urlCity r := stamped (urlCity r) (clock σ) w]> (contents σ)
    | _ => contents σ
    end.
Proof.
  intros Hi Hk σ'. subst σ'. unfold call.
  destruct (decide (urlCity r = "")) as [Hc|Hc].
  { rewrite updateWeatherHandler_empty by done. simpl.
    by destruct (payload (reqBody r)) as [w [e|]]. }
  destruct (payload (reqBody r)) as [w [e|]] eqn:Hp.
  - rewrite (updateWeatherHandler_rejects _ _ w e) by done. cbn [after].
    pose proof (effect_new σ w) as He.
    split; [done|]. split; [by eapply effect_keyed|].
    exact (effect_contents _ _ _ He Hk).
  - rewrite (updateWeatherHandler_accepts _ _ w) by done. cbn [after].
    pose proof (effect_put_new σ (stamped (urlCity r) (clock σ) w)) as He.
    split; [done|]. split; [by eapply effect_keyed|].
    exact (effect_contents _ _ _ He Hk).
Qed.

Lemma withClock_contents (t : Time) (σ : World) :
  contents (withClock t σ) = contents σ.
Proof.
  apply map_eq. intros c. rewrite !contents_lookup. simpl.
  destruct (weathers (storage σ) !! c) as [[|l]|]; done.
Qed.

Lemma withClock_keyed (t : Time) (σ : World) : keyed σ → keyed (withClock t σ).
Proof. intros Hk c p Hp. destruct (Hk c p Hp) as (w & Hw & Hc). exists w. by destruct p. Qed.

(** C7. [UpdateWeather] is idempotent: the same call twice leaves the world
    that the call once leaves. On the handler path, where each update stamps
    the time of the clock, the same request served at the times [t1] and
    [t2] leaves the records that serving it once at [t2] leaves. *)
Theorem put_idempotent :
  (∀ (σ : World) (p : pointer),
     run (UpdateWeather p;; UpdateWeather p) σ = run (UpdateWeather p) σ) ∧
  (∀ (σ : World) (req : Request) (t1 t2 : Time),
     idle σ → keyed σ →
     contents (execute [OpTick t1; OpPutRequest req; OpTick t2; OpPutRequest req] σ) =
     contents (execute [OpTick t2; OpPutRequest req] σ)).
Proof.
  split.
  - intros σ p.
    change (run (Bind (UpdateWeather p) (λ _, UpdateWeather p)) σ)
      with (match run (UpdateWeather p) σ with
            | Done x σ' => run (UpdateWeather p) σ'
            | Panicked σ' => Panicked σ'
            | Blocked => Blocked
            end).
    destruct σ as [h [[[] [|n]] ws] t]; try reflexivity.
    destruct p as [|l]; [reflexivity|].
    destruct (h !! l) as [w|] eqn:Hl.
    + rewrite (UpdateWeather_run (addr l) w) by done. simpl.
      rewrite Hl. simpl. by rewrite insert_insert_eq.
    + by rewrite UpdateWeather_panics.
  - intros σ req t1 t2 Hi Hk. rewrite !execute_cons.
    change (call (OpTick t1) σ) with (withClock t1 σ).
    change (call (OpTick t2) σ) with (withClock t2 σ).
    destruct (putRequest_contents req (withClock t1 σ)) as (Hi1 & Hk1 & Hc1);
      [done|by apply withClock_keyed|].
    set (σ1 := call (OpPutRequest req) (withClock t1 σ)) in *.
    change (call (OpTick t2) σ1) with (withClock t2 σ1).
    destruct (putRequest_contents req (withClock t2 σ1)) as (_ & _ & Hc2);
      [done|by apply withClock_keyed|].
    destruct (putRequest_contents req (withClock t2 σ)) as (_ & _ & Hc3);
      [done|by apply withClock_keyed|].
    change (execute [] ?x) with x.
    rewrite Hc2, Hc3. rewrite !withClock_contents. rewrite Hc1.
    rewrite withClock_contents.
    destruct (payload (reqBody req)) as [w [e|]]; [done|].
    case_decide; [done|]. simpl. by rewrite insert_insert_eq.
Qed.

(** C8. [UpdateWeather(r)] changes the entry of the key [r.City] and nothing
    else: the other entries, the heap, the mutex and the clock are as
    before. [GetWeather] leaves the whole world as it found it. *)
Theorem put_get_frame :
  (∀ (σ : World) (p : pointer) (r : Weather),
     idle σ → deref p σ = Some r →
     ∃ σ', run (UpdateWeather p) σ = Done tt σ' ∧
           (∀ c, c ≠ City r →
              weathers (storage σ') !! c = weathers (storage σ) !! c) ∧
           heap σ' = heap σ ∧ mu (storage σ') = mu (storage σ) ∧
           clock σ' = clock σ) ∧
  (∀ (σ : World) (city : string),
     writer (mu (storage σ)) = false →
     run (GetWeather city) σ = Done (stored city σ) σ) ∧
  (∀ (σ : World) (city : string), after (run (GetWeather city) σ) σ = σ).
Proof.
  split; [|split].
  - intros σ p r Hi Hp. eexists. split; [by apply UpdateWeather_run|].
    split; [|done]. intros c Hc. simpl. by rewrite lookup_insert_ne.
  - intros σ city Hw. by apply GetWeather_run.
  - intros σ city. destruct (writer (mu (storage σ))) eqn:Hw.
    + by rewrite GetWeather_blocked.
    + by rewrite GetWeather_run.
Qed.

(** C10. The store does not look at the city: a record whose city is the
    empty string is stored under the empty key and read back from it. Only
    the handlers refuse an empty city. *)
Theorem store_accepts_empty_city :
  (∀ (σ : World) (p : pointer) (r : Weather),
     idle σ → deref p σ = Some r → City r = "" →
     ∃ σ', run (UpdateWeather p) σ = Done tt σ' ∧
           weathers (storage σ') !! "" = Some p ∧
           run (GetWeather "") σ' = Done p σ' ∧
           deref p σ' = Some r) ∧
  (∀ (σ : World) (req : Request),
     urlCity req = "" →
     run (updateWeatherHandler req) σ =
       Done (httpError "City parameter is required" StatusBadRequest) σ ∧
     run (getWeatherHandler req) σ =
       Done (httpError "City parameter is required" StatusBadRequest) σ).
Proof.
  split.
  - intros σ p r Hi Hp Hc. eexists. split; [by apply UpdateWeather_run|].
    rewrite Hc. split; [by simpl; rewrite lookup_insert_eq|].
    split; [|by destruct p].
    rewrite GetWeather_run by (simpl; by rewrite Hi).
    unfold stored; simpl. by rewrite lookup_insert_eq.
  - intros σ req Hc.
    by rewrite updateWeatherHandler_empty, getWeatherHandler_empty.
Qed.

End StoreLaws.

(** ** What the decoder accepts *)

Section Decoding.
Context `{TimeCodec}.

Lemma decodeField_fits (key : string) (v : json) (w : Weather) :
  (decodeField key v w).2 = None ↔ fieldFits key v = true.
Proof.
  unfold decodeField, fieldFits.
  destruct (equalFold key "city"); [by destruct v|].
  destruct (equalFold key "temperature").
  { destruct v as [| |f| | |]; try done. by destruct (is_finite f). }
  destruct (equalFold key "updated_at"); [|done].
  destruct v as [| | |s| |]; try done.
  destruct (UnmarshalJSON s) as [t|]; cbn [snd].
  - by rewrite bool_decide_eq_true_2.
  - rewrite bool_decide_eq_false_2; [done|]. by intros [? ?].
Qed.

Lemma decodeObject_fits (fields : list (string * json)) (w : Weather)
    (saved : option error) :
  (decodeObject fields w saved).2 = None ↔
  saved = None ∧ forallb (λ kv, fieldFits kv.1 kv.2) fields = true.
Proof.
  revert w saved. induction fields as [|[key v] fields IH]; intros w saved; simpl.
  { split; [done|by intros [? _]]. }
  pose proof (decodeField_fits key v w) as Hf.
  destruct (decodeField key v w) as [w' [e|]]; simpl in Hf.
  - assert (Hn : fieldFits key v = false).
    { destruct (fieldFits key v); [|done]. by destruct Hf as [_ Hf]; specialize (Hf eq_refl). }
    rewrite Hn. simpl.
    destruct e; rewrite ?IH; split; try done; try by intros [? ?].
    all: by destruct saved; intros [? ?].
  - rewrite (proj1 Hf eq_refl). simpl. apply IH.
Qed.

Lemma payload_decodes (b : RequestBody) :
  (payload b).2 = None ↔ decodes b = true.
Proof.
  destruct b as [|doc]; simpl; [done|].
  destruct doc; simpl; try done.
  rewrite decodeObject_fits. by split; [intros [_ ?]|].
Qed.

Lemma payload_rejected (b : RequestBody) :
  decodes b = false → ∃ e, payload b = ((payload b).1, Some e).
Proof.
  intros Hd. destruct (payload b) as [w [e|]] eqn:Hp; [by exists e|].
  assert ((payload b).2 = None) as Hn by by rewrite Hp.
  apply payload_decodes in Hn. congruence.
Qed.

Lemma payload_accepted (b : RequestBody) :
  decodes b = true → payload b = ((payload b).1, None).
Proof.
  intros Hd. apply payload_decodes in Hd.
  destruct (payload b) as [w e]; simpl in *. by subst e.
Qed.

Lemma updateWeatherHandler_stores (r : Request) (σ : World) :
  idle σ →
  mapStores (updateWeatherHandler r) σ =
    if decide (urlCity r = "") then 0
    else if decodes (reqBody r) then 1 else 0.
Proof.
  intros Hi. unfold updateWeatherHandler. case_decide; [done|].
  destruct σ as [h [m ws] t]. unfold idle in Hi. simpl in Hi. subst m.
  destruct (decodes (reqBody r)) eqn:Hd.
  - pose proof (payload_accepted _ Hd) as Hp.
    destruct (reqBody r) as [|doc]; [done|]. simpl in Hp.
    simpl. rewrite !lookup_insert_eq. rewrite Hp.
    by repeat (progress (rewrite ?lookup_insert_eq; simpl)).
  - destruct (payload_rejected _ Hd) as [e Hp].
    destruct (reqBody r) as [|doc]; [done|]. simpl in Hp.
    simpl. rewrite !lookup_insert_eq. rewrite Hp.
    by repeat (progress (rewrite ?lookup_insert_eq; simpl)).
Qed.

End Decoding.

(** ** The handlers *)

Section HandlerLaws.
Context `{TimeCodec}.

Lemma renderJSON_encodable (w : Weather) :
  encodable w →
  ∃ text, MarshalJSON (UpdatedAt w) = Some text ∧
          renderJSON w = {| status := StatusOK; body := JSON (weatherJSON w text) |}.
Proof.
  intros [Hf [text Ht]]. exists text. split; [done|].
  unfold renderJSON, Marshal. by rewrite Hf, Ht.
Qed.

Lemma renderJSON_status (w : Weather) :
  is_finite (Temperature w) = true →
  match MarshalJSON (UpdatedAt w) with
  | Some text => renderJSON w = {| status := StatusOK; body := JSON (weatherJSON w text) |}
  | None => status (renderJSON w) = StatusInternalServerError
  end.
Proof.
  intros Hf. unfold renderJSON, Marshal. rewrite Hf.
  by destruct (MarshalJSON (UpdatedAt w)).
Qed.

Lemma call_clock (o : op) (σ : World) :
  idle σ →
  clock (call o σ) = match o with OpTick t => t | _ => clock σ end.
Proof.
  intros Hi. assert (Hw : writer (mu (storage σ)) = false) by by rewrite Hi.
  destruct o as [city|p|v|r|r|t]; unfold call; [..|done].
  - by rewrite GetWeather_run.
  - destruct (deref p σ) as [w|] eqn:Hp.
    + by rewrite (UpdateWeather_run _ w).
    + by rewrite UpdateWeather_panics.
  - rewrite (run_bind _ _ _ _ _ (run_new _ _)).
    by rewrite (UpdateWeather_run _ v); [|done|by simpl; rewrite lookup_insert_eq].
  - destruct (decide (urlCity r = "")) as [Hc|Hc].
    + by rewrite getWeatherHandler_empty.
    + rewrite getWeatherHandler_run by done.
      destruct (stored (urlCity r) σ) as [|l]; [done|].
      by destruct (heap σ !! l).
  - destruct (decide (urlCity r = "")) as [Hc|Hc].
    + by rewrite updateWeatherHandler_empty.
    + destruct (payload (reqBody r)) as [w [e|]] eqn:Hp.
      * by rewrite (updateWeatherHandler_rejects _ _ w e).
      * by rewrite (updateWeatherHandler_accepts _ _ w).
Qed.

(** The states of the server: every record of the map can be encoded, and
    so can the time of the clock. *)
Lemma served_invariant (ops : list op) (σ : World) :
  Forall served ops →
  idle σ → records (λ _ w, encodable w) σ → is_Some (MarshalJSON (clock σ)) →
  idle (execute ops σ) ∧ records (λ _ w, encodable w) (execute ops σ) ∧
  is_Some (MarshalJSON (clock (execute ops σ))).
Proof.
  revert σ. induction ops as [|o ops IH]; intros σ Hs Hi Hr Hc; [done|].
  rewrite execute_cons. inversion Hs as [|? ? Ho Hs']; subst.
  destruct (call_effect o σ Hi) as (k & He & Hk).
  apply IH; [done|by eapply effect_idle| |].
  - apply (effect_records _ _ _ _ He); [|done].
    intros c w Hcw. destruct (Hk c w Hcw) as [_ Hw].
    destruct (Hw Ho) as [Hf Ht]. split; [done|]. by rewrite Ht.
  - rewrite call_clock by done. by destruct o.
Qed.

Lemma boot_records (P : string → Weather → Prop) (t : Time) : records P (boot t).
Proof. intros c p Hp. simpl in Hp. by rewrite lookup_empty in Hp. Qed.

Lemma getWeatherHandler_found (r : Request) (p : pointer) (σ : World) :
  writer (mu (storage σ)) = false → urlCity r ≠ "" →
  records (λ _ w, encodable w) σ →
  weathers (storage σ) !! urlCity r = Some p →
  ∃ v text, deref p σ = Some v ∧ MarshalJSON (UpdatedAt v) = Some text ∧
    run (getWeatherHandler r) σ =
      Done {| status := StatusOK; body := JSON (weatherJSON v text) |} σ.
Proof.
  intros Hw Hc Hr Hp. destruct (Hr _ _ Hp) as (v & Hv & He).
  destruct (renderJSON_encodable v He) as (text & Ht & Hj).
  exists v, text. split; [done|]. split; [done|].
  rewrite getWeatherHandler_run by done. unfold stored. rewrite Hp. simpl.
  destruct p as [|l]; [done|]. simpl in Hv. by rewrite Hv, Hj.
Qed.

Lemma getWeatherHandler_absent (r : Request) (σ : World) :
  writer (mu (storage σ)) = false → urlCity r ≠ "" →
  weathers (storage σ) !! urlCity r = None →
  run (getWeatherHandler r) σ =
    Done (httpError ("Weather for city '" ++ urlCity r ++ "' not found")
                    StatusNotFound) σ.
Proof.
  intros Hw Hc Hp. rewrite getWeatherHandler_run by done.
  unfold stored. by rewrite Hp.
Qed.

End HandlerLaws.

Section HandlerClaims.
Context `{TimeCodec}.

(** C3. A successful update (status 200) had a city in its path and a body
    that decodes; the record it stored, under the city of the path, has that
    city and the time of the server's clock, whatever city and time the body
    gave, and the temperature of the body; the response is that record. *)
Theorem update_stores_path_city_and_time
    (σ σ' : World) (req : Request) (rsp : Response) :
  idle σ →
  run (updateWeatherHandler req) σ = Done rsp σ' →
  status rsp = StatusOK →
  urlCity req ≠ "" ∧ decodes (reqBody req) = true ∧
  ∃ l v text,
    weathers (storage σ') !! urlCity req = Some (addr l) ∧
    heap σ' !! l = Some v ∧
    City v = urlCity req ∧
    UpdatedAt v = clock σ ∧
    Temperature v = Temperature (payload (reqBody req)).1 ∧
    MarshalJSON (clock σ) = Some text ∧
    body rsp = JSON (weatherJSON v text).
Proof.
  intros Hi Hrun Hs.
  destruct (decide (urlCity req = "")) as [Hc|Hc].
  { rewrite updateWeatherHandler_empty in Hrun by done.
    injection Hrun as <- <-. done. }
  split; [done|].
  destruct (decodes (reqBody req)) eqn:Hd.
  - split; [done|]. pose proof (payload_accepted _ Hd) as Hp.
    rewrite (updateWeatherHandler_accepts _ _ _ Hi Hc Hp) in Hrun.
    injection Hrun as <- <-.
    set (v := stamped (urlCity req) (clock σ) (payload (reqBody req)).1) in *.
    assert (Hf : is_finite (Temperature v) = true) by apply payload_finite.
    pose proof (renderJSON_status v Hf) as Hj.
    change (UpdatedAt v) with (clock σ) in Hj.
    destruct (MarshalJSON (clock σ)) as [text|].
    + exists (fresh (dom (heap σ))), v, text. rewrite Hj. simpl.
      by rewrite !lookup_insert_eq.
    + rewrite Hj in Hs. done.
  - destruct (payload_rejected _ Hd) as [e Hp].
    rewrite (updateWeatherHandler_rejects _ _ _ _ Hc Hp) in Hrun.
    injection Hrun as <- <-. done.
Qed.

(** C4. The get handler, on any state of the server: 400 when the city of
    the path is empty; otherwise 404 when the map has no entry for the city;
    otherwise 200, with the stored record as a JSON object of the fields
    city, temperature and updated_at. The store is left as it was. *)
Theorem get_handler_responses (t : Time) (ops : list op) (req : Request) :
  is_Some (MarshalJSON t) → Forall served ops →
  let σ := execute ops (boot t) in
  ∃ rsp, run (getWeatherHandler req) σ = Done rsp σ ∧
    (urlCity req = "" → status rsp = StatusBadRequest) ∧
    (urlCity req ≠ "" → weathers (storage σ) !! urlCity req = None →
       status rsp = StatusNotFound) ∧
    (urlCity req ≠ "" → ∀ p, weathers (storage σ) !! urlCity req = Some p →
       ∃ v text, deref p σ = Some v ∧
         MarshalJSON (UpdatedAt v) = Some text ∧
         rsp = {| status := StatusOK;
                  body := JSON (JObject [("city", JString (City v));
                                         ("temperature", JNumber (Temperature v));
                                         ("updated_at", JString text)]) |}).
Proof.
  intros Ht Hs σ.
  destruct (served_invariant ops (boot t) Hs (boot_idle t) (boot_records _ t) Ht)
    as (Hi & Hr & _). fold σ in Hi, Hr.
  assert (Hw : writer (mu (storage σ)) = false) by by rewrite Hi.
  destruct (decide (urlCity req = "")) as [Hc|Hc].
  { eexists. split; [by apply getWeatherHandler_empty|]. by repeat split. }
  destruct (weathers (storage σ) !! urlCity req) as [p|] eqn:Hp.
  - destruct (getWeatherHandler_found req p σ Hw Hc Hr Hp) as (v & text & Hv & Hm & Hrun).
    eexists. split; [exact Hrun|]. split; [done|]. split; [done|].
    intros _ q [= <-]. by exists v, text.
  - eexists. split; [by apply getWeatherHandler_absent|]. by repeat split.
Qed.

(** C5, amended. The update handler always answers. It answers 400 exactly
    when the city of the path is empty or the body does not decode into a
    [Weather]: the body is not JSON, or it is JSON that does not fit the
    record. Then the store is as it was and the map was not assigned to. When
    it answers 200, the map was assigned to once, at the city of the path. A
    body without a temperature decodes, and so does one with any
    temperature that [float64] holds, and one that gives null for every
    field: null fits each of them. *)
Theorem update_rejects_iff (σ : World) (req : Request) :
  idle σ →
  ∃ rsp σ', run (updateWeatherHandler req) σ = Done rsp σ' ∧
    (status rsp = StatusBadRequest ↔
       urlCity req = "" ∨ decodes (reqBody req) = false) ∧
    (status rsp = StatusBadRequest →
       storage σ' = storage σ ∧ mapStores (updateWeatherHandler req) σ = 0) ∧
    (status rsp = StatusOK →
       mapStores (updateWeatherHandler req) σ = 1 ∧
       mu (storage σ') = mu (storage σ) ∧
       ∃ p, weathers (storage σ') = <[urlCity req := p]> (weathers (storage σ))) ∧
    decodes (Document (JObject [])) = true ∧
    (∀ f, is_finite f = true →
       decodes (Document (JObject [("temperature", JNumber f)])) = true) ∧
    decodes (Document (JObject [("city", JNull); ("temperature", JNull);
                                ("updated_at", JNull)])) = true.
Proof.
  intros Hi. pose proof (updateWeatherHandler_stores req σ Hi) as Hn.
  assert (Htail : decodes (Document (JObject [])) = true ∧
    (∀ f, is_finite f = true →
       decodes (Document (JObject [("temperature", JNumber f)])) = true) ∧
    decodes (Document (JObject [("city", JNull); ("temperature", JNull);
                                ("updated_at", JNull)])) = true).
  { split; [done|]. split; [|done].
    intros f Hf. simpl. unfold fieldFits. simpl. by rewrite Hf. }
  destruct (decide (urlCity req = "")) as [Hc|Hc].
  { eexists _, _. split; [by apply updateWeatherHandler_empty|].
    split; [by split; [left|]|]. split; [done|]. split; [done|exact Htail]. }
  destruct (decodes (reqBody req)) eqn:Hd; simpl in Hn.
  - pose proof (payload_accepted _ Hd) as Hp.
    eexists _, _. split; [by apply updateWeatherHandler_accepts|].
    set (v := stamped (urlCity req) (clock σ) (payload (reqBody req)).1).
    pose proof (renderJSON_status v (payload_finite _)) as Hj.
    assert (Hs : status (renderJSON v) ≠ StatusBadRequest).
    { destruct (MarshalJSON (UpdatedAt v)); by rewrite Hj. }
    split; [split; [done|by intros [?|?]]|]. split; [done|].
    split; [|exact Htail]. intros _. split; [done|]. split; [done|].
    by eexists.
  - destruct (payload_rejected _ Hd) as [e Hp].
    eexists _, _. split; [by eapply updateWeatherHandler_rejects|].
    split; [by split; [right|]|]. split; [done|]. split; [done|exact Htail].
Qed.

End HandlerClaims.

(** * More about the store and the handlers *)

(** ** The store *)



(** X1. [UpdateWeather(nil)] panics at [weather.City]; the deferred [Unlock]
    has run by then: the world is as before the call, the mutex free, and
    the map was not assigned to. A [GetWeather] after the panic is served
    as before. *)
Theorem update_nil_releases_lock (σ : World) (city : string) :
  idle σ →
  run (UpdateWeather nilptr) σ = Panicked σ ∧
  mapStores (UpdateWeather nilptr) σ = 0 ∧
  run (GetWeather city) (after (run (UpdateWeather nilptr) σ) σ) =
    Done (stored city σ) σ.
Proof.
  intros Hi. rewrite UpdateWeather_panics by done.
  split; [done|]. split.
  - destruct σ as [h [m ws] t]. unfold idle in Hi. simpl in Hi. by subst m.
  - simpl. apply GetWeather_run. by rewrite Hi.
Qed.



(** X4. The store keeps the pointer it is given, not a copy of the record:
    what the caller writes through the pointer after [UpdateWeather] is what
    a later [GetWeather] gives, and after a write to [City] the record is
    still under the key of its former city. *)
Theorem store_keeps_pointer (σ : World) (p : pointer) (r : Weather) (c : string) :
  idle σ → deref p σ = Some r →
  ∃ σ', run (UpdateWeather p;; Act (StoreCity p c);;
             q ← GetWeather (City r); Act (Load q)) σ = Done (setCity c r) σ' ∧
        weathers (storage σ') !! City r = Some p ∧
        deref p σ' = Some (setCity c r).
Proof.
  intros Hi Hp. destruct p as [|l]; [done|]. simpl in Hp.
  rewrite (run_bind _ _ _ _ _ (UpdateWeather_run (addr l) r σ Hi Hp)).
  eexists. split; [|split].
  - erewrite run_bind; last first.
    { simpl. rewrite Hp. reflexivity. }
    erewrite run_bind; last first.
    { apply GetWeather_run. simpl. by rewrite Hi. }
    unfold stored. simpl. rewrite lookup_insert_eq. simpl.
    rewrite lookup_insert_eq. reflexivity.
  - simpl. by rewrite lookup_insert_eq.
  - simpl. by rewrite lookup_insert_eq.
Qed.

Section StoreBeyond.
Context `{TimeCodec}.

Lemma effect_kept (σ σ' : World) (k : option (string * Weather)) (c : string) :
  effect σ k σ' → is_Some (weathers (storage σ) !! c) →
  is_Some (weathers (storage σ') !! c).
Proof.
  destruct 1 as [|t|v|p w Hp|w]; simpl; try done.
  - intros Hc. destruct (decide (City w = c)) as [<-|Hne].
    + rewrite lookup_insert_eq. by eexists.
    + by rewrite lookup_insert_ne.
  - intros Hc. destruct (decide (City w = c)) as [<-|Hne].
    + rewrite lookup_insert_eq. by eexists.
    + by rewrite lookup_insert_ne.
Qed.

(** X5. No call removes an entry of the map: a city that has an entry has
    one after any sequence of calls of the two methods and of requests. *)
Theorem entries_never_removed (ops : list op) (σ : World) (c : string) :
  idle σ → is_Some (weathers (storage σ) !! c) →
  is_Some (weathers (storage (execute ops σ)) !! c).
Proof.
  revert σ. induction ops as [|o ops IH]; intros σ Hi Hc; [done|].
  rewrite execute_cons. destruct (call_effect o σ Hi) as (k & He & _).
  apply IH; [by eapply effect_idle|by eapply effect_kept].
Qed.

End StoreBeyond.

(** ** The handlers *)

Section HandlersBeyond.
Context `{TimeCodec}.

Lemma updateWeatherHandler_cases (r : Request) (σ : World) :
  idle σ →
  run (updateWeatherHandler r) σ =
    if decide (urlCity r = "") then
      Done (httpError "City parameter is required" StatusBadRequest) σ
    else if decodes (reqBody r) then
      Done (renderJSON (stamped (urlCity r) (clock σ) (payload (reqBody r)).1))
           (withWeathers (<[urlCity r := addr (fresh (dom (heap σ)))]> (weathers (storage σ)))
              (withHeap (<[fresh (dom (heap σ)) :=
                             stamped (urlCity r) (clock σ) (payload (reqBody r)).1]> (heap σ)) σ))
    else
      Done (httpError "Invalid request body" StatusBadRequest)
           (withHeap (<[fresh (dom (heap σ)) := (payload (reqBody r)).1]> (heap σ)) σ).
Proof.
  intros Hi. case_decide as Hc; [by apply updateWeatherHandler_empty|].
  destruct (decodes (reqBody r)) eqn:Hd.
  - by apply updateWeatherHandler_accepts; [..|apply payload_accepted].
  - destruct (payload_rejected _ Hd) as [e Hp]. by eapply updateWeatherHandler_rejects.
Qed.

(** X6. A GET for the city of a PUT that was not answered 400 is answered
    with the response of the PUT, status and body, also when the clock has
    moved since: both render the record that the PUT stored. *)
Theorem put_then_get_same_response
    (σ σ' : World) (put get : Request) (rsp : Response) (t : Time) :
  idle σ →
  run (updateWeatherHandler put) σ = Done rsp σ' →
  status rsp ≠ StatusBadRequest →
  urlCity get = urlCity put →
  run (getWeatherHandler get) (withClock t σ') = Done rsp (withClock t σ').
Proof.
  intros Hi Hrun Hs Hc. rewrite updateWeatherHandler_cases in Hrun by done.
  case_decide as Hcity; [by injection Hrun as <- <-|].
  destruct (decodes (reqBody put)); [|by injection Hrun as <- <-].
  injection Hrun as <- <-.
  rewrite getWeatherHandler_run; [|by simpl; rewrite Hi|by rewrite Hc].
  unfold stored. simpl. rewrite Hc, lookup_insert_eq. simpl.
  by rewrite lookup_insert_eq.
Qed.

(** X7. On any state in which every entry of the map points to a record,
    the get handler answers, and leaves the world as it was. It answers 500
    exactly when the map has an entry for the city of the path whose record
    [json.Marshal] cannot encode (a NaN or infinite temperature, a time
    outside of the years 0 to 9999): [UpdateWeather] checks nothing of a
    record, so a caller other than the update handler can store one. *)
Theorem get_handler_unencodable (σ : World) (req : Request) :
  writer (mu (storage σ)) = false → records (λ _ _, True) σ →
  ∃ rsp, run (getWeatherHandler req) σ = Done rsp σ ∧
    (status rsp = StatusInternalServerError ↔
       urlCity req ≠ "" ∧
       ∃ p v, weathers (storage σ) !! urlCity req = Some p ∧ deref p σ = Some v ∧
              ¬ encodable v).
Proof.
  intros Hw Hr. destruct (decide (urlCity req = "")) as [Hc|Hc].
  { eexists. split; [by apply getWeatherHandler_empty|]. split; [done|]. by intros [? _]. }
  rewrite getWeatherHandler_run by done. unfold stored.
  destruct (weathers (storage σ) !! urlCity req) as [p|] eqn:Hp; simpl.
  2:{ eexists. split; [done|]. split; [done|]. by intros [_ (? & ? & ? & _)]. }
  destruct (Hr _ _ Hp) as (v & Hv & _). destruct p as [|l]; [done|].
  simpl in Hv. rewrite Hv. eexists. split; [done|].
  unfold renderJSON, Marshal, encodable.
  destruct (is_finite (Temperature v)) eqn:Hf.
  - destruct (MarshalJSON (UpdatedAt v)) as [text|] eqn:Ht; simpl.
    + split; [done|]. intros [_ (p & v' & [= <-] & Hv' & Hn)].
      simpl in Hv'. rewrite Hv in Hv'. injection Hv' as <-.
      destruct Hn. rewrite Hf, Ht. by split.
    + split; [|done]. intros _. split; [done|]. exists (addr l), v.
      split; [done|]. split; [done|]. rewrite Ht. intros [_ [? ?]]. done.
  - simpl. split; [|done]. intros _. split; [done|]. exists (addr l), v.
    split; [done|]. split; [done|]. rewrite Hf. by intros [? _].
Qed.

Lemma updateWeatherHandler_blocked (r : Request) (σ : World) :
  mu (storage σ) ≠ unlocked → urlCity r ≠ "" → decodes (reqBody r) = true →
  run (updateWeatherHandler r) σ = Blocked.
Proof.
  intros Hm Hc Hd. pose proof (payload_accepted _ Hd) as Hp.
  unfold updateWeatherHandler. rewrite decide_False by done.
  rewrite (run_bind _ _ _ _ _ (run_new _ _)).
  erewrite run_bind; last by (apply Decode_run; simpl; apply lookup_insert_eq).
  rewrite Hp. cbn [fst snd].
  destruct σ as [h [m ws] t]. simpl in Hm.
  simpl. rewrite !lookup_insert_eq. simpl. rewrite !lookup_insert_eq. simpl.
  destruct m as [[] [|n]]; try done.
Qed.

(** X8. Whatever the request and the state, the update handler leaves every
    record that was on the heap as it was: the record it stores is a new
    one, and it writes to no other. *)
Theorem update_handler_fresh_record (σ : World) (req : Request) (l : loc) (w : Weather) :
  heap σ !! l = Some w →
  heap (after (run (updateWeatherHandler req) σ) σ) !! l = Some w.
Proof.
  intros Hl.
  assert (Hne : fresh (dom (heap σ)) ≠ l).
  { intros <-. by rewrite fresh_heap in Hl. }
  destruct (decide (urlCity req = "")) as [Hc|Hc].
  { by rewrite updateWeatherHandler_empty. }
  destruct (decodes (reqBody req)) eqn:Hd.
  - destruct (decide (mu (storage σ) = unlocked)) as [Hi|Hi].
    + rewrite updateWeatherHandler_cases by done.
      rewrite decide_False, Hd by done. simpl. by rewrite lookup_insert_ne.
    + by rewrite updateWeatherHandler_blocked.
  - destruct (payload_rejected _ Hd) as [e Hp].
    rewrite (updateWeatherHandler_rejects _ _ _ _ Hc Hp). simpl.
    by rewrite lookup_insert_ne.
Qed.

(** X9. A handler waits for the mutex only on a request that it does not
    reject, and only while the mutex is held: the get handler waits only
    when the path has a city and the mutex is not free, and it does wait
    when the path has a city and a writer holds the mutex; the update
    handler waits exactly when the path has a city, the body decodes and
    anyone holds the mutex. A request answered 400 is answered whatever the
    state of the mutex. Nothing is said of the get handler while only
    readers hold the mutex: whether [RLock] passes then depends on the
    writers that wait. *)
Theorem handlers_wait_for_mutex (σ : World) (req : Request) :
  (run (getWeatherHandler req) σ = Blocked →
     urlCity req ≠ "" ∧ mu (storage σ) ≠ unlocked) ∧
  (urlCity req ≠ "" → writer (mu (storage σ)) = true →
     run (getWeatherHandler req) σ = Blocked) ∧
  (run (updateWeatherHandler req) σ = Blocked ↔
     urlCity req ≠ "" ∧ decodes (reqBody req) = true ∧ mu (storage σ) ≠ unlocked) ∧
  (urlCity req = "" →
     run (getWeatherHandler req) σ =
       Done (httpError "City parameter is required" StatusBadRequest) σ ∧
     run (updateWeatherHandler req) σ =
       Done (httpError "City parameter is required" StatusBadRequest) σ).
Proof.
  split; [|split; [|split]].
  - destruct (decide (urlCity req = "")) as [Hc|Hc].
    { by rewrite getWeatherHandler_empty. }
    destruct (writer (mu (storage σ))) eqn:Hw.
    + intros _. split; [done|]. intros Hm. by rewrite Hm in Hw.
    + rewrite getWeatherHandler_run by done.
      destruct (stored (urlCity req) σ) as [|l]; [done|].
      by destruct (heap σ !! l).
  - intros Hc Hw. unfold getWeatherHandler. rewrite decide_False by done.
    destruct σ as [h [[w n] ws] t]. simpl in Hw. by subst w.
  - destruct (decide (urlCity req = "")) as [Hc|Hc].
    { rewrite updateWeatherHandler_empty by done. split; [done|]. by intros [? _]. }
    destruct (decodes (reqBody req)) eqn:Hd.
    + destruct (decide (mu (storage σ) = unlocked)) as [Hi|Hi].
      * rewrite updateWeatherHandler_cases by done.
        rewrite decide_False, Hd by done. split; [done|]. by intros (_ & _ & ?).
      * by rewrite updateWeatherHandler_blocked.
    + destruct (payload_rejected _ Hd) as [e Hp].
      rewrite (updateWeatherHandler_rejects _ _ _ _ Hc Hp).
      split; [done|]. by intros (_ & ? & _).
  - intros Hc. split.
    + by apply getWeatherHandler_empty.
    + by apply updateWeatherHandler_empty.
Qed.

Lemma decodeField_temperature (key : string) (v : json) (w : Weather) :
  (equalFold key "temperature" = true → v = JNull) →
  Temperature (decodeField key v w).1 = Temperature w.
Proof.
  intros Hk. unfold decodeField.
  destruct (equalFold key "city"); [by destruct v|].
  destruct (equalFold key "temperature").
  { by rewrite Hk. }
  destruct (equalFold key "updated_at"); [|done].
  destruct v as [| | |s| |]; try done. by destruct (UnmarshalJSON s).
Qed.

Lemma decodeObject_temperature (fields : list (string * json)) (w : Weather)
    (saved : option error) :
  (∀ key v, (key, v) ∈ fields → equalFold key "temperature" = true → v = JNull) →
  Temperature (decodeObject fields w saved).1 = Temperature w.
Proof.
  revert w saved. induction fields as [|[key v] fields IH]; intros w saved Hk; [done|].
  simpl. pose proof (decodeField_temperature key v w) as Hf.
  rewrite <- Hf by (apply Hk; apply list_elem_of_here).
  assert (Hk' : ∀ key v, (key, v) ∈ fields → equalFold key "temperature" = true → v = JNull).
  { intros k' v' Hin. apply Hk. by apply list_elem_of_further. }
  destruct (decodeField key v w) as [w' [e|]]; simpl; [|by apply IH].
  destruct e; try by apply IH. done.
Qed.

(** X10. A PUT whose body is a JSON object that decodes and gives no
    temperature (no member named temperature in any letter case, other than
    null ones) is accepted, and the record stored has the temperature 0. *)
Theorem update_without_temperature (σ : World) (req : Request)
    (fields : list (string * json)) :
  idle σ → urlCity req ≠ "" →
  reqBody req = Document (JObject fields) → decodes (reqBody req) = true →
  (∀ key v, (key, v) ∈ fields → equalFold key "temperature" = true → v = JNull) →
  ∃ rsp σ' l,
    run (updateWeatherHandler req) σ = Done rsp σ' ∧
    weathers (storage σ') !! urlCity req = Some (addr l) ∧
    heap σ' !! l = Some {| City := urlCity req; Temperature := 0%float;
                           UpdatedAt := clock σ |}.
Proof.
  intros Hi Hc Hb Hd Hk. rewrite updateWeatherHandler_cases by done.
  rewrite decide_False, Hd by done.
  eexists _, _, _. split; [done|]. simpl. rewrite !lookup_insert_eq.
  split; [done|]. f_equal. unfold stamped, setUpdatedAt, setCity. simpl. f_equal.
  rewrite Hb. simpl. by rewrite decodeObject_temperature.
Qed.

End HandlersBeyond.

(** * Goroutines *)

(** ** Counting *)

Lemma count_insert {X} (f : X → bool) (l : list X) (i : nat) (x y : X) :
  l !! i = Some x →
  count f (<[i := y]> l) + (if f x then 1 else 0) =
  count f l + (if f y then 1 else 0).
Proof.
  revert i. induction l as [|z l IH]; intros [|i] Hi; simplify_eq/=; [lia|].
  specialize (IH i Hi). lia.
Qed.

Lemma count_snoc {X} (f : X → bool) (l : list X) (x : X) :
  count f (l ++ [x]) = count f l + (if f x then 1 else 0).
Proof. induction l as [|z l IH]; simpl; lia. Qed.

Lemma count_lookup {X} (f : X → bool) (l : list X) (i : nat) (x : X) :
  l !! i = Some x → f x = true → 0 < count f l.
Proof.
  revert i. induction l as [|z l IH]; intros [|i] Hi Hf; simplify_eq/=.
  - rewrite Hf. lia.
  - specialize (IH i Hi Hf). lia.
Qed.

Lemma count_none {X} (f : X → bool) (l : list X) :
  (∀ i x, l !! i = Some x → f x = false) → count f l = 0.
Proof.
  induction l as [|z l IH]; intros Hl; [done|]. simpl.
  rewrite (Hl 0 z eq_refl). simpl. apply IH. intros i x Hi. by apply (Hl (S i)).
Qed.

(** ** The invariant, step by step *)

Ltac inserted H :=
  apply list_lookup_insert_Some in H as [(<- & <- & ?)|(? & H)].

Lemma isReader_held (γ γ' : access * ghost) :
  held γ'.2 = held γ.2 → isReader γ' = isReader γ.
Proof. unfold isReader. by intros ->. Qed.

Lemma isReader_true (γ : access * ghost) :
  held γ.2 = ReadLocked → isReader γ = true.
Proof. intros Hh. unfold isReader. by rewrite Hh. Qed.

Lemma isReader_false (γ : access * ghost) :
  held γ.2 ≠ ReadLocked → isReader γ = false.
Proof. intros Hh. unfold isReader. by apply bool_decide_eq_false_2. Qed.

Section Locks.
Context (m : RWMutex) (γs : list (access * ghost)) (i : nat) (γ : access * ghost).
Hypothesis Hinv : lockInv m γs.
Hypothesis Hi : γs !! i = Some γ.

Lemma lockInv_frame (γ' : access * ghost) :
  held γ'.2 = held γ.2 → lockInv m (<[i := γ']> γs).
Proof.
  intros Hh. destruct Hinv as [Hr Hw Hx Hd]. constructor.
  - pose proof (count_insert isReader γs i γ γ' Hi) as Hc.
    rewrite (isReader_held γ γ' Hh) in Hc. lia.
  - intros Hm j γj Hj. inserted Hj; [rewrite Hh|]; by eapply Hw.
  - intros j k γj γk Hj Hk Hj' Hk'. inserted Hj; inserted Hk; try done.
    + rewrite Hh in Hj'. by eapply (Hx i k).
    + rewrite Hh in Hk'. by eapply (Hx j i).
    + by eapply Hx.
  - intros Hm. destruct (Hd Hm) as (j & γj & Hj & Hj').
    destruct (decide (j = i)) as [->|Hne].
    + exists i, γ'. split; [apply list_lookup_insert_eq; by eapply lookup_lt_Some|].
      rewrite Hh. congruence.
    + exists j, γj. split; [by rewrite list_lookup_insert_ne|done].
Qed.

Lemma lockInv_rlock (m' : RWMutex) (γ' : access * ghost) :
  held γ.2 = Free → rlock m = Some m' → held γ'.2 = ReadLocked →
  lockInv m' (<[i := γ']> γs).
Proof.
  intros Hf Hl Hh. destruct Hinv as [Hr Hw Hx Hd].
  unfold rlock in Hl. destruct (writer m) eqn:Hm; [done|]. simplify_eq/=.
  constructor; simpl.
  - pose proof (count_insert isReader γs i γ γ' Hi) as Hc.
    rewrite (isReader_true γ'), (isReader_false γ) in Hc by congruence. lia.
  - intros _ j γj Hj. inserted Hj; [by rewrite Hh|]. by eapply Hw.
  - intros j k γj γk Hj Hk Hj' Hk'. inserted Hj; inserted Hk; try done.
    + congruence.
    + by destruct (Hw eq_refl j γj Hj).
    + by destruct (Hw eq_refl j γj Hj).
  - done.
Qed.

Lemma lockInv_runlock :
  held γ.2 = ReadLocked →
  ∃ m', runlock m = Some m' ∧
        ∀ γ', held γ'.2 = Free → lockInv m' (<[i := γ']> γs).
Proof.
  intros Hh. destruct Hinv as [Hr Hw Hx Hd].
  assert (0 < readers m) as Hpos.
  { rewrite Hr. eapply count_lookup; [done|]. unfold isReader. by rewrite Hh. }
  unfold runlock. destruct (readers m) as [|n] eqn:Hn; [lia|].
  eexists. split; [done|]. intros γ' Hf. constructor; simpl.
  - pose proof (count_insert isReader γs i γ γ' Hi) as Hc.
    rewrite (isReader_true γ), (isReader_false γ') in Hc by congruence. lia.
  - intros Hm j γj Hj. inserted Hj; [by rewrite Hf|]. by eapply Hw.
  - intros j k γj γk Hj Hk Hj' Hk'. inserted Hj; inserted Hk;
      first [done | congruence | by eapply Hx].
  - intros Hm. destruct (Hd Hm) as (j & γj & Hj & Hj').
    exists j, γj. split; [|done]. rewrite list_lookup_insert_ne; [done|].
    intros <-. congruence.
Qed.

Lemma lockInv_lock (m' : RWMutex) (γ' : access * ghost) :
  held γ.2 = Free → lock m = Some m' → held γ'.2 = WriteLocked →
  lockInv m' (<[i := γ']> γs).
Proof.
  intros Hf Hl Hh. destruct Hinv as [Hr Hw Hx Hd].
  unfold lock in Hl. destruct (writer m) eqn:Hm; [done|].
  destruct (readers m) eqn:Hn; [|done]. simplify_eq/=.
  assert (Hnone : ∀ j γj, γs !! j = Some γj → held γj.2 = Free).
  { intros j γj Hj. destruct (held γj.2) eqn:Hj'; [done| |].
    - assert (0 < count isReader γs); [|lia].
      eapply count_lookup; [done|]. by apply isReader_true.
    - by destruct (Hw eq_refl j γj Hj). }
  constructor; simpl.
  - pose proof (count_insert isReader γs i γ γ' Hi) as Hc.
    rewrite (isReader_false γ'), (isReader_false γ) in Hc by congruence. lia.
  - done.
  - intros j k γj γk Hj Hk Hj' Hk'. inserted Hj; inserted Hk; try done.
    + by rewrite (Hnone k γk Hk) in Hk'.
    + by rewrite (Hnone j γj Hj) in Hj'.
    + by rewrite (Hnone j γj Hj) in Hj'.
  - intros _. exists i, γ'.
    split; [apply list_lookup_insert_eq; by eapply lookup_lt_Some|done].
Qed.

Lemma lockInv_unlock :
  held γ.2 = WriteLocked →
  ∃ m', unlock m = Some m' ∧
        ∀ γ', held γ'.2 = Free → lockInv m' (<[i := γ']> γs).
Proof.
  intros Hh. destruct Hinv as [Hr Hw Hx Hd].
  unfold unlock. destruct (writer m) eqn:Hm.
  2:{ by destruct (Hw eq_refl i γ Hi). }
  eexists. split; [done|]. intros γ' Hf. constructor; simpl.
  - pose proof (count_insert isReader γs i γ γ' Hi) as Hc.
    rewrite (isReader_false γ'), (isReader_false γ) in Hc by congruence. lia.
  - intros _ j γj Hj. inserted Hj; [by rewrite Hf|].
    intros Hj'. assert (j = i); [|done].
    eapply (Hx j i); [done..|]. by rewrite Hh.
  - intros j k γj γk Hj Hk Hj' Hk'. inserted Hj; inserted Hk;
      first [done | congruence | by eapply Hx].
  - done.
Qed.

End Locks.

Lemma inLoad_phase (γ : access * ghost) (k : access) :
  γ.1 = k → inLoad γ = bool_decide (k = InLoad).
Proof. unfold inLoad. by intros ->. Qed.

Lemma inStore_phase (γ : access * ghost) (k : access) :
  γ.1 = k → inStore γ = bool_decide (k = InStore).
Proof. unfold inStore. by intros ->. Qed.

Section Accesses.
Context (s : Shared) (γs : list (access * ghost)) (i : nat) (γ : access * ghost).
Hypothesis Hinv : accessInv s γs.
Hypothesis Hi : γs !! i = Some γ.

Lemma accessInv_idle (γ' : access * ghost) (σ : World) (evs : list event) :
  γ.1 = Idle → γ'.1 = Idle →
  accessInv (finish Idle σ evs s) (<[i := γ']> γs).
Proof.
  intros Hk Hk'. destruct Hinv as [Hl Hs Ha Hr]. constructor; simpl; [| | |done].
  - pose proof (count_insert inLoad γs i γ γ' Hi) as Hc.
    rewrite (inLoad_phase γ Idle), (inLoad_phase γ' Idle) in Hc by done.
    simpl in Hc. lia.
  - pose proof (count_insert inStore γs i γ γ' Hi) as Hc.
    rewrite (inStore_phase γ Idle), (inStore_phase γ' Idle) in Hc by done.
    simpl in Hc. lia.
  - intros j γj Hj. inserted Hj; [by rewrite Hk'|by eapply Ha].
Qed.

Lemma accessInv_quiet (m : RWMutex) :
  lockInv m γs → γ.1 = Idle → held γ.2 ≠ Free →
  storing s = 0 ∧ (held γ.2 = WriteLocked → loading s = 0).
Proof.
  intros [_ _ Hx _] Hk Hh. destruct Hinv as [Hl Hs Ha Hr]. split.
  - rewrite Hs. apply count_none. intros j γj Hj.
    unfold inStore. apply bool_decide_eq_false_2. intros Hj'.
    pose proof (Ha j γj Hj) as Haj. rewrite Hj' in Haj.
    assert (j = i) as -> by by eapply (Hx j i).
    congruence.
  - intros Hw. rewrite Hl. apply count_none. intros j γj Hj.
    unfold inLoad. apply bool_decide_eq_false_2. intros Hj'.
    pose proof (Ha j γj Hj) as Haj. rewrite Hj' in Haj.
    assert (i = j) as <- by by eapply (Hx i j).
    congruence.
Qed.

Lemma accessInv_begin (m : RWMutex) (k : access) :
  lockInv m γs → γ.1 = Idle → k ≠ Idle →
  held γ.2 ≠ Free → (k = InStore → held γ.2 = WriteLocked) →
  accessInv (begin k s) (<[i := (k, γ.2)]> γs).
Proof.
  intros Hlock Hk Hne Hh Hw.
  destruct (accessInv_quiet m Hlock Hk Hh) as [Hs0 Hl0].
  destruct Hinv as [Hl Hs Ha Hr].
  pose proof (count_insert inLoad γs i γ (k, γ.2) Hi) as Hcl.
  pose proof (count_insert inStore γs i γ (k, γ.2) Hi) as Hcs.
  rewrite (inLoad_phase γ Idle), (inLoad_phase (k, γ.2) k) in Hcl by done.
  rewrite (inStore_phase γ Idle), (inStore_phase (k, γ.2) k) in Hcs by done.
  destruct k; [done| |]; simpl in *.
  - constructor; simpl; [lia|lia| |by rewrite Hr, Hs0].
    intros j γj Hj. inserted Hj; [done|by eapply Ha].
  - constructor; simpl; [lia|lia| |by rewrite Hr, Hs0, Hl0 by auto].
    intros j γj Hj. inserted Hj; [by apply Hw|by eapply Ha].
Qed.

Lemma accessInv_end (γ' : access * ghost) (σ : World) (evs : list event) :
  γ'.1 = Idle →
  accessInv (finish γ.1 σ evs s) (<[i := γ']> γs).
Proof.
  intros Hk'. destruct Hinv as [Hl Hs Ha Hr].
  pose proof (count_insert inLoad γs i γ γ' Hi) as Hcl.
  pose proof (count_insert inStore γs i γ γ' Hi) as Hcs.
  rewrite (inLoad_phase γ γ.1), (inLoad_phase γ' Idle) in Hcl by done.
  rewrite (inStore_phase γ γ.1), (inStore_phase γ' Idle) in Hcs by done.
  constructor; simpl; [| | |done].
  - destruct γ.1; simpl in *; lia.
  - destruct γ.1; simpl in *; lia.
  - intros j γj Hj. inserted Hj; [by rewrite Hk'|by eapply Ha].
Qed.

End Accesses.

Lemma accessInv_world (s s' : Shared) (γs : list (access * ghost)) :
  loading s' = loading s → storing s' = storing s → raced s' = raced s →
  accessInv s γs → accessInv s' γs.
Proof.
  intros Hl Hs Hr [? ? ? ?].
  constructor; [congruence|congruence|done|congruence].
Qed.

Section Heaps.
Context (h : gmap loc Weather) (evs : list event)
  (pub : gmap loc (string * Weather))
  (γs : list (access * ghost)) (i : nat) (γ : access * ghost).
Hypothesis Hinv : heapInv h evs pub γs.
Hypothesis Hi : γs !! i = Some γ.

Lemma heapInv_seen (γ' : access * ghost) (evs' : list event) :
  remembers γ γ' evs' →
  ∀ j γj e, <[i := γ']> γs !! j = Some γj → e ∈ seen γj.2 → e ∈ evs ++ evs'.
Proof.
  intros Hs j γj e Hj He. apply elem_of_app. inserted Hj.
  - destruct (Hs e He) as [He'|He']; [left|by right].
    by eapply (inv_seen _ _ _ _ Hinv).
  - left. by eapply (inv_seen _ _ _ _ Hinv).
Qed.

Lemma heapInv_logged (evs' : list event) :
  lookups evs' →
  ∀ key v x, Assigned key v x ∈ evs ++ evs' →
    ∃ l w, v = addr l ∧ x = Some w ∧ pub !! l = Some (key, w).
Proof.
  intros Hl key v x Hin. apply elem_of_app in Hin as [Hin|Hin].
  - by eapply (inv_logged _ _ _ _ Hinv).
  - by destruct (Hl key v x).
Qed.

Lemma heapInv_pub (evs' : list event) :
  ∀ l key w, pub !! l = Some (key, w) →
    h !! l = Some w ∧ City w = key ∧ Assigned key (addr l) (Some w) ∈ evs ++ evs'.
Proof.
  intros l key w Hl. destruct (inv_pub _ _ _ _ Hinv l key w Hl) as (? & ? & ?).
  split; [done|]. split; [done|]. apply elem_of_app. by left.
Qed.

Lemma heapInv_frame (γ' : access * ghost) (evs' : list event) :
  own γ'.2 = own γ.2 → known γ'.2 = known γ.2 →
  remembers γ γ' evs' → lookups evs' →
  heapInv h (evs ++ evs') pub (<[i := γ']> γs).
Proof.
  intros Ho Hk Hs Hl. pose proof (heapInv_seen γ' evs' Hs) as Hseen.
  pose proof (heapInv_logged evs' Hl) as Hlogged.
  pose proof (heapInv_pub evs') as Hpub'.
  destruct Hinv as [Hown Hsep Hkn Hpub Hlog _]. constructor; [| | |done..].
  - intros j γj l w Hj. inserted Hj; [rewrite Ho|]; by eapply Hown.
  - intros j k γj γk l Hne Hj Hk'. inserted Hj; inserted Hk'; try done.
    + rewrite Ho. by eapply (Hsep i k γ γk).
    + rewrite Ho. by eapply (Hsep j i γj γ).
    + by eapply (Hsep j k γj γk).
  - intros j γj l kw Hj. inserted Hj; [rewrite Hk|]; by eapply Hkn.
Qed.

Lemma heapInv_visible (l : loc) (w : Weather) :
  visible γ.2 l = Some w → h !! l = Some w.
Proof.
  destruct Hinv as [Hown Hsep Hkn Hpub Hlog _]. unfold visible.
  destruct (own γ.2 !! l) as [w'|] eqn:Ho.
  - intros [= <-]. by eapply Hown.
  - destruct (known γ.2 !! l) as [[key w']|] eqn:Hk; [|done].
    intros [= <-]. by eapply Hpub, Hkn.
Qed.

Lemma heapInv_fresh (j : nat) (γj : access * ghost) :
  γs !! j = Some γj →
  own γj.2 !! fresh (dom h) = None ∧ known γj.2 !! fresh (dom h) = None ∧
  pub !! fresh (dom h) = None.
Proof.
  intros Hj. destruct Hinv as [Hown Hsep Hkn Hpub Hlog _].
  assert (Hf : h !! fresh (dom h) = None) by apply not_elem_of_dom, is_fresh.
  assert (Hp : pub !! fresh (dom h) = None).
  { destruct (pub !! fresh (dom h)) as [[key w]|] eqn:Hp; [|done].
    destruct (Hpub _ _ _ Hp) as [Hh _]. congruence. }
  split; [|split; [|done]].
  - destruct (own γj.2 !! fresh (dom h)) as [w|] eqn:Ho; [|done].
    destruct (Hown _ _ _ _ Hj Ho) as [Hh _]. congruence.
  - destruct (known γj.2 !! fresh (dom h)) as [kw|] eqn:Hk; [|done].
    pose proof (Hkn _ _ _ _ Hj Hk). congruence.
Qed.

Lemma heapInv_write (γ' : access * ghost) (l : loc) (v : Weather) :
  (is_Some (own γ.2 !! l) ∨ l = fresh (dom h)) →
  own γ'.2 = <[l := v]> (own γ.2) → known γ'.2 = known γ.2 →
  seen γ'.2 = seen γ.2 →
  heapInv (<[l := v]> h) (evs ++ []) pub (<[i := γ']> γs).
Proof.
  intros Hl Ho Hk Hs. pose proof heapInv_fresh as Hfresh.
  assert (Hseen : remembers γ γ' []) by (intros e; rewrite Hs; by left).
  pose proof (heapInv_seen γ' [] Hseen) as Hseen'.
  assert (Hnil : lookups []) by (intros ???; apply not_elem_of_nil).
  pose proof (heapInv_logged [] Hnil) as Hlogged.
  pose proof (heapInv_pub []) as Hpub'.
  destruct Hinv as [Hown Hsep Hkn Hpub Hlog _].
  assert (Hother : ∀ j γj, i ≠ j → γs !! j = Some γj → own γj.2 !! l = None).
  { intros j γj Hne Hj. destruct Hl as [Hl| ->].
    - by eapply (Hsep i j).
    - by apply (Hfresh j γj). }
  assert (Hp : pub !! l = None).
  { destruct Hl as [[w Hl]| ->].
    - by eapply Hown.
    - by apply (Hfresh i γ). }
  constructor; [| | | |done..].
  - intros j γj l' w Hj. inserted Hj.
    + rewrite Ho. destruct (decide (l = l')) as [<-|Hne].
      * rewrite !lookup_insert_eq. by intros [= <-].
      * rewrite !lookup_insert_ne by done. by eapply Hown.
    + intros Hw. destruct (decide (l = l')) as [<-|Hne].
      * rewrite (Hother j γj) in Hw by done. done.
      * rewrite lookup_insert_ne by done. by eapply Hown.
  - intros j k γj γk l' Hne Hj Hk'. inserted Hj; inserted Hk'; try done.
    + rewrite Ho. destruct (decide (l = l')) as [<-|Hne'].
      * intros _. by eapply Hother.
      * rewrite lookup_insert_ne by done. by eapply (Hsep i k γ γk).
    + rewrite Ho. destruct (decide (l = l')) as [<-|Hne'].
      * intros [w Hw]. rewrite (Hother j γj) in Hw by done. done.
      * rewrite lookup_insert_ne by done. by eapply (Hsep j i γj γ).
    + by eapply (Hsep j k γj γk).
  - intros j γj l' kw Hj. inserted Hj; [rewrite Hk|]; by eapply Hkn.
  - intros l' key w Hl'. destruct (Hpub' l' key w Hl') as [? ?].
    split; [|done]. rewrite lookup_insert_ne; [done|]. intros <-. congruence.
Qed.

Lemma heapInv_learn (γ' : access * ghost) (l : loc) (kw : string * Weather)
    (evs' : list event) :
  pub !! l = Some kw →
  own γ'.2 = own γ.2 → known γ'.2 = <[l := kw]> (known γ.2) →
  remembers γ γ' evs' → lookups evs' →
  heapInv h (evs ++ evs') pub (<[i := γ']> γs).
Proof.
  intros Hl Ho Hk Hs Hlk. pose proof (heapInv_seen γ' evs' Hs) as Hseen.
  pose proof (heapInv_logged evs' Hlk) as Hlogged.
  pose proof (heapInv_pub evs') as Hpub'.
  destruct Hinv as [Hown Hsep Hkn Hpub Hlog _].
  constructor; [| | |done..].
  - intros j γj l' w Hj. inserted Hj; [rewrite Ho|]; by eapply Hown.
  - intros j k γj γk l' Hne Hj Hk'. inserted Hj; inserted Hk'; try done.
    + rewrite Ho. by eapply (Hsep i k γ γk).
    + rewrite Ho. by eapply (Hsep j i γj γ).
    + by eapply (Hsep j k γj γk).
  - intros j γj l' kw' Hj. inserted Hj; [|by eapply Hkn].
    rewrite Hk. destruct (decide (l = l')) as [<-|Hne].
    + rewrite lookup_insert_eq. by intros [= <-].
    + rewrite lookup_insert_ne by done. by eapply Hkn.
Qed.

Lemma heapInv_publish (a : access) (l : loc) (key : string) (w : Weather) :
  own γ.2 !! l = Some w → City w = key →
  heapInv h (evs ++ [Assigned key (addr l) (Some w)])
          (<[l := (key, w)]> pub) (<[i := (a, publish l key w γ.2)]> γs).
Proof.
  intros Hl Hcity.
  assert (Hs : remembers γ (a, publish l key w γ.2) [Assigned key (addr l) (Some w)]).
  { intros e He. simpl in He. apply elem_of_cons in He as [->|He]; [|by left].
    right. by apply list_elem_of_singleton. }
  pose proof (heapInv_seen _ _ Hs) as Hseen.
  destruct Hinv as [Hown Hsep Hkn Hpub Hlog _].
  destruct (Hown _ _ _ _ Hi Hl) as [Hh Hp].
  constructor; [| | | | |done].
  - intros j γj l' w' Hj. inserted Hj; simpl.
    + destruct (decide (l = l')) as [<-|Hne].
      * by rewrite lookup_delete_eq.
      * rewrite lookup_delete_ne, lookup_insert_ne by done. by eapply Hown.
    + intros Hw. destruct (decide (l = l')) as [<-|Hne].
      * rewrite (Hsep i j γ γj l) in Hw by done. done.
      * rewrite lookup_insert_ne by done. by eapply Hown.
  - intros j k γj γk l' Hne Hj Hk'. inserted Hj; inserted Hk'; simpl; try done.
    + destruct (decide (l = l')) as [<-|Hne'].
      * rewrite lookup_delete_eq. by intros [? ?].
      * rewrite lookup_delete_ne by done. by eapply (Hsep i k γ γk).
    + destruct (decide (l = l')) as [<-|Hne'].
      * intros _. by rewrite lookup_delete_eq.
      * rewrite lookup_delete_ne by done. by eapply (Hsep j i γj γ).
    + by eapply (Hsep j k γj γk).
  - intros j γj l' kw Hj. inserted Hj; simpl.
    + destruct (decide (l = l')) as [<-|Hne].
      * rewrite !lookup_insert_eq. by intros [= <-].
      * rewrite !lookup_insert_ne by done. by eapply Hkn.
    + intros Hk. pose proof (Hkn _ _ _ _ Hj Hk) as Hp'.
      rewrite lookup_insert_ne; [done|]. intros <-. congruence.
  - intros l' key' w'. destruct (decide (l = l')) as [<-|Hne].
    + rewrite lookup_insert_eq. intros [= <- <-]. split; [done|]. split; [done|].
      apply elem_of_app. right. by apply list_elem_of_singleton.
    + rewrite lookup_insert_ne by done. intros Hl'.
      destruct (Hpub l' key' w' Hl') as (? & ? & ?).
      split; [done|]. split; [done|]. apply elem_of_app. by left.
  - intros key' v x Hin. apply elem_of_app in Hin as [Hin|Hin].
    + destruct (Hlog key' v x Hin) as (l' & w' & -> & -> & Hl').
      exists l', w'. split; [done|]. split; [done|].
      rewrite lookup_insert_ne; [done|]. intros <-. congruence.
    + apply list_elem_of_singleton in Hin as [= -> -> ->].
      exists l, w. by rewrite lookup_insert_eq.
Qed.

End Heaps.

Lemma replay_lookup (evs : list event) (m : gmap string pointer)
    (key : string) (v : pointer) :
  replay evs m !! key = Some v →
  m !! key = Some v ∨ ∃ x, Assigned key v x ∈ evs.
Proof.
  revert m. induction evs as [|[k u|k u x] evs IH]; intros m Hv; simpl in Hv.
  - by left.
  - destruct (IH m Hv) as [?|[y Hy]]; [by left|].
    right. exists y. by apply list_elem_of_further.
  - destruct (IH _ Hv) as [Hm|[y Hy]].
    + destruct (decide (k = key)) as [->|Hne].
      * rewrite lookup_insert_eq in Hm. injection Hm as ->.
        right. exists x. apply list_elem_of_here.
      * rewrite lookup_insert_ne in Hm by done. by left.
    + right. exists y. by apply list_elem_of_further.
Qed.

Lemma replay_app (evs evs' : list event) (m : gmap string pointer) :
  replay (evs ++ evs') m = replay evs' (replay evs m).
Proof.
  revert m. induction evs as [|[key v|key v w] evs IH]; intros m; simpl; auto.
Qed.

Lemma legal_app (evs evs' : list event) (m : gmap string pointer) :
  legal (evs ++ evs') m ↔ legal evs m ∧ legal evs' (replay evs m).
Proof.
  revert m. induction evs as [|[key v|key v w] evs IH]; intros m; simpl.
  - tauto.
  - rewrite IH. tauto.
  - apply IH.
Qed.

Section Maps.
Context (ws : gmap string pointer) (evs : list event)
  (pub : gmap loc (string * Weather)).
Hypothesis Hinv : mapInv ws evs pub.

Lemma mapInv_looked (key : string) :
  mapInv ws (evs ++ [Looked key (default nilptr (ws !! key))]) pub.
Proof.
  destruct Hinv as [Hm Hr Hl]. constructor; [done| |].
  - by rewrite replay_app.
  - apply legal_app. split; [done|]. simpl. by rewrite <- Hr.
Qed.

Lemma mapInv_assigned (key : string) (l : loc) (w : Weather) (x : option Weather) :
  pub !! l = None →
  mapInv (<[key := addr l]> ws) (evs ++ [Assigned key (addr l) x])
         (<[l := (key, w)]> pub).
Proof.
  intros Hp. destruct Hinv as [Hm Hr Hl]. constructor.
  - intros key' v. destruct (decide (key = key')) as [<-|Hne].
    + rewrite lookup_insert_eq. intros [= <-]. exists l, w.
      by rewrite lookup_insert_eq.
    + rewrite lookup_insert_ne by done. intros Hv.
      destruct (Hm key' v Hv) as (l' & w' & -> & Hl').
      exists l', w'. split; [done|]. rewrite lookup_insert_ne; [done|].
      intros <-. congruence.
  - rewrite replay_app. simpl. by rewrite <- Hr.
  - apply legal_app. by split.
Qed.

End Maps.

Lemma begin_world (k : access) (s : Shared) : world (begin k s) = world s.
Proof. by destruct k. Qed.

Lemma begin_log (k : access) (s : Shared) : log (begin k s) = log s.
Proof. by destruct k. Qed.

Lemma lookups_nil : lookups [].
Proof. intros ???. apply not_elem_of_nil. Qed.

Lemma lookups_looked (key : string) (v : pointer) : lookups [Looked key v].
Proof. intros ??? Hin. by apply list_elem_of_singleton in Hin. Qed.

Lemma remembers_same (γ γ' : access * ghost) (evs' : list event) :
  seen γ'.2 = seen γ.2 → remembers γ γ' evs'.
Proof. intros Hs e. rewrite Hs. by left. Qed.

Lemma remembers_new (γ γ' : access * ghost) (e : event) :
  seen γ'.2 = e :: seen γ.2 → remembers γ γ' [e].
Proof.
  intros Hs e'. rewrite Hs. intros [->|He]%elem_of_cons; [|by left].
  right. by apply list_elem_of_singleton.
Qed.

Lemma stepAct_sound {A} (a : action A) (Q : A → ghost → Prop)
    (γs : list (access * ghost)) (s s' : Shared)
    (pub : gmap loc (string * Weather)) (i : nat) (acc acc' : access)
    (g : ghost) (p' : prog A) :
  consistent γs s pub → γs !! i = Some (acc, g) →
  wpAct a g Q → stepAct a acc s = Steps p' acc' s' →
  ∃ g' pub', wp p' g' Q ∧ consistent (<[i := (acc', g')]> γs) s' pub'.
Proof.
  intros (HL & HA & HH & HM) Hi Hwp Hstep. unfold stepAct in Hstep.
  assert (Hquiet : ∀ γ',
    own γ'.2 = own g → known γ'.2 = known g → seen γ'.2 = seen g →
    heapInv (heap (world s)) (log s ++ []) pub (<[i := γ']> γs)).
  { intros γ' ? ? ?. apply (heapInv_frame _ _ _ _ _ _ HH Hi); try done.
    - by apply remembers_same.
    - apply lookups_nil. }
  case_decide as Hb.
  { (* an access begins *)
    destruct Hb as [-> Hb]. injection Hstep as <- <- <-.
    exists g, pub. split; [done|].
    assert (held g ≠ Free ∧ (need a = InStore → held g = WriteLocked)) as [Hh Hw].
    { destruct a; try done; simpl in Hwp.
      - by destruct Hwp as [? _].
      - destruct Hwp as [-> _]. done. }
    unfold consistent. rewrite begin_world, begin_log.
    split; [by apply (lockInv_frame _ _ _ _ HL Hi)|].
    split; [by apply (accessInv_begin _ _ _ _ HA Hi _ _ HL)|].
    split; [|done]. rewrite <- (app_nil_r (log s)). by apply Hquiet. }
  case_decide as Hn; [|done]. subst acc.
  destruct a; simpl in Hwp, Hstep, Hi.
  - (* RLock *)
    destruct Hwp as [Hf HQ].
    destruct (rlock (mu (storage (world s)))) as [m'|] eqn:Hm; [|done].
    injection Hstep as <- <- <-. exists (setHeld ReadLocked g), pub.
    split; [done|]. split; [|split; [|split]]; simpl.
    + by eapply (lockInv_rlock _ _ _ _ HL Hi).
    + by apply (accessInv_idle _ _ _ _ HA Hi).
    + by apply Hquiet.
    + by rewrite app_nil_r.
  - (* RUnlock *)
    destruct Hwp as [Hf HQ].
    destruct (lockInv_runlock _ _ _ _ HL Hi Hf) as (m' & Hm & HL').
    rewrite Hm in Hstep.
    injection Hstep as <- <- <-. exists (setHeld Free g), pub.
    split; [done|]. split; [|split; [|split]]; simpl.
    + by apply HL'.
    + by apply (accessInv_idle _ _ _ _ HA Hi).
    + by apply Hquiet.
    + by rewrite app_nil_r.
  - (* Lock *)
    destruct Hwp as [Hf HQ].
    destruct (lock (mu (storage (world s)))) as [m'|] eqn:Hm; [|done].
    injection Hstep as <- <- <-. exists (setHeld WriteLocked g), pub.
    split; [done|]. split; [|split; [|split]]; simpl.
    + by eapply (lockInv_lock _ _ _ _ HL Hi).
    + by apply (accessInv_idle _ _ _ _ HA Hi).
    + by apply Hquiet.
    + by rewrite app_nil_r.
  - (* Unlock *)
    destruct Hwp as [Hf HQ].
    destruct (lockInv_unlock _ _ _ _ HL Hi Hf) as (m' & Hm & HL').
    rewrite Hm in Hstep.
    injection Hstep as <- <- <-. exists (setHeld Free g), pub.
    split; [done|]. split; [|split; [|split]]; simpl.
    + by apply HL'.
    + by apply (accessInv_idle _ _ _ _ HA Hi).
    + by apply Hquiet.
    + by rewrite app_nil_r.
  - (* MapLoad *)
    destruct Hwp as (Hh & Hnil & Hfound).
    pose proof (mapInv_looked _ _ _ HM key) as HM'.
    destruct (weathers (storage (world s)) !! key) as [v|] eqn:Hv.
    + destruct (inv_map _ _ _ HM key v Hv) as (l & w & -> & Hl).
      assert (Ho : own g !! l = None).
      { destruct (own g !! l) as [w'|] eqn:Ho; [|done].
        destruct (inv_own _ _ _ _ HH i _ l w' Hi Ho). congruence. }
      injection Hstep as <- <- <-. exists (learn l key w g), pub.
      split; [by apply Hfound|]. split; [|split; [|split]]; simpl.
      * by apply (lockInv_frame _ _ _ _ HL Hi).
      * by apply (accessInv_end _ _ _ _ HA Hi).
      * apply (heapInv_learn _ _ _ _ _ _ HH Hi _ l (key, w)); try done.
        -- by apply remembers_new.
        -- apply lookups_looked.
      * done.
    + injection Hstep as <- <- <-. exists (miss key g), pub.
      split; [done|]. split; [|split; [|split]]; simpl.
      * by apply (lockInv_frame _ _ _ _ HL Hi).
      * by apply (accessInv_end _ _ _ _ HA Hi).
      * apply (heapInv_frame _ _ _ _ _ _ HH Hi); try done.
        -- by apply remembers_new.
        -- apply lookups_looked.
      * done.
  - (* MapStore *)
    destruct Hwp as (Hh & l & w & -> & Ho & Hcity & HQ).
    destruct (inv_own _ _ _ _ HH i _ l w Hi Ho) as [Hl Hp].
    injection Hstep as <- <- <-. exists (publish l key w g), (<[l := (key, w)]> pub).
    split; [done|]. split; [|split; [|split]]; simpl.
    + by apply (lockInv_frame _ _ _ _ HL Hi).
    + by apply (accessInv_end _ _ _ _ HA Hi).
    + rewrite Hl. by apply (heapInv_publish _ _ _ _ _ _ HH Hi).
    + by apply mapInv_assigned.
  - (* New *)
    destruct (heapInv_fresh _ _ _ _ HH i _ Hi) as (Ho & Hk & Hp). simpl in Ho, Hk.
    injection Hstep as <- <- <-.
    eexists (setOwn _ g), pub.
    split; [by apply Hwp|]. split; [|split; [|split]]; simpl.
    + by apply (lockInv_frame _ _ _ _ HL Hi).
    + by apply (accessInv_idle _ _ _ _ HA Hi).
    + apply (heapInv_write _ _ _ _ _ _ HH Hi); auto.
    + by rewrite app_nil_r.
  - (* Load *)
    destruct Hwp as (l & w & -> & Hv & HQ).
    pose proof (heapInv_visible _ _ _ _ _ _ HH Hi l w Hv) as Hl.
    simpl in Hstep. rewrite Hl in Hstep. injection Hstep as <- <- <-.
    exists g, pub. split; [done|]. split; [|split; [|split]]; simpl.
    + by apply (lockInv_frame _ _ _ _ HL Hi).
    + by apply (accessInv_idle _ _ _ _ HA Hi).
    + by apply Hquiet.
    + by rewrite app_nil_r.
  - (* LoadCity *)
    destruct Hwp as (l & w & -> & Hv & HQ).
    pose proof (heapInv_visible _ _ _ _ _ _ HH Hi l w Hv) as Hl.
    simpl in Hstep. rewrite Hl in Hstep. injection Hstep as <- <- <-.
    exists g, pub. split; [done|]. split; [|split; [|split]]; simpl.
    + by apply (lockInv_frame _ _ _ _ HL Hi).
    + by apply (accessInv_idle _ _ _ _ HA Hi).
    + by apply Hquiet.
    + by rewrite app_nil_r.
  - (* Store *)
    destruct Hwp as (l & w & -> & Ho & HQ).
    destruct (inv_own _ _ _ _ HH i _ l w Hi Ho) as [Hl Hp].
    simpl in Hstep. rewrite Hl in Hstep. injection Hstep as <- <- <-.
    eexists (setOwn _ g), pub. split; [exact HQ|]. split; [|split; [|split]]; simpl.
    + by apply (lockInv_frame _ _ _ _ HL Hi).
    + by apply (accessInv_idle _ _ _ _ HA Hi).
    + apply (heapInv_write _ _ _ _ _ _ HH Hi); eauto.
    + by rewrite app_nil_r.
  - (* StoreCity *)
    destruct Hwp as (l & w & -> & Ho & HQ).
    destruct (inv_own _ _ _ _ HH i _ l w Hi Ho) as [Hl Hp].
    simpl in Hstep. rewrite Hl in Hstep. injection Hstep as <- <- <-.
    eexists (setOwn _ g), pub. split; [exact HQ|]. split; [|split; [|split]]; simpl.
    + by apply (lockInv_frame _ _ _ _ HL Hi).
    + by apply (accessInv_idle _ _ _ _ HA Hi).
    + apply (heapInv_write _ _ _ _ _ _ HH Hi); eauto.
    + by rewrite app_nil_r.
  - (* StoreUpdatedAt *)
    destruct Hwp as (l & w & -> & Ho & HQ).
    destruct (inv_own _ _ _ _ HH i _ l w Hi Ho) as [Hl Hp].
    simpl in Hstep. rewrite Hl in Hstep. injection Hstep as <- <- <-.
    eexists (setOwn _ g), pub. split; [exact HQ|]. split; [|split; [|split]]; simpl.
    + by apply (lockInv_frame _ _ _ _ HL Hi).
    + by apply (accessInv_idle _ _ _ _ HA Hi).
    + apply (heapInv_write _ _ _ _ _ _ HH Hi); eauto.
    + by rewrite app_nil_r.
  - (* Now *)
    injection Hstep as <- <- <-.
    exists g, pub. split; [by apply Hwp|]. split; [|split; [|split]]; simpl.
    + by apply (lockInv_frame _ _ _ _ HL Hi).
    + by apply (accessInv_idle _ _ _ _ HA Hi).
    + by apply Hquiet.
    + by rewrite app_nil_r.
Qed.

Lemma stepAct_moves {A} (a : action A) (acc : access) (s : Shared) :
  (∀ x, stepAct a acc s ≠ Value x) ∧ stepAct a acc s ≠ Thrown.
Proof.
  unfold stepAct. repeat case_decide; try done.
  by destruct (perform a (world s)).
Qed.

Lemma step_value {A} (p : prog A) (acc : access) (s : Shared) (x : A)
    (g : ghost) (Q : A → ghost → Prop) :
  step p acc s = Value x → wp p g Q → Q x g.
Proof.
  destruct p as [A a|A a|A B m k|A d body|A]; simpl.
  - by intros [= ->].
  - intros Hs. by destruct (proj1 (stepAct_moves a acc s) x).
  - by destruct (step m acc s).
  - by destruct (step body acc s).
  - done.
Qed.

Lemma step_thrown {A} (p : prog A) (acc : access) (s : Shared)
    (g : ghost) (Q : A → ghost → Prop) :
  step p acc s = Thrown → wp p g Q → False.
Proof.
  destruct p as [A a|A a|A B m k|A d body|A]; simpl.
  - done.
  - intros Hs. by destruct (proj2 (stepAct_moves a acc s)).
  - by destruct (step m acc s).
  - by destruct (step body acc s).
  - done.
Qed.

(** A step of a goroutine whose program is safe keeps the invariant, and
    what is left of the program is safe. *)
Lemma step_sound {A} (p : prog A) :
  ∀ (Q : A → ghost → Prop) (γs : list (access * ghost)) (s s' : Shared)
    (pub : gmap loc (string * Weather)) (i : nat) (acc acc' : access)
    (g : ghost) (p' : prog A),
  consistent γs s pub → γs !! i = Some (acc, g) →
  wp p g Q → step p acc s = Steps p' acc' s' →
  ∃ g' pub', wp p' g' Q ∧ consistent (<[i := (acc', g')]> γs) s' pub'.
Proof.
  induction p as [A a|A a|A B m IHm k IHk|A d IHd body IHb|A];
    intros Q γs s s' pub i acc acc' g p' Hinv Hi Hwp Hstep; simpl in Hstep.
  - done.
  - by eapply stepAct_sound.
  - destruct (step m acc s) as [x| | |m' acc'' s''] eqn:Hm;
      [| |done|]; injection Hstep as <- <- <-.
    + exists g, pub. split; [exact (step_value m acc s x g _ Hm Hwp)|].
      by rewrite list_insert_id.
    + by destruct (step_thrown m acc s g _ Hm Hwp).
    + destruct (IHm _ _ _ _ _ _ _ _ _ _ Hinv Hi Hwp Hm) as (g' & pub' & Hwp' & Hinv').
      by exists g', pub'.
  - destruct (step body acc s) as [x| | |b' acc'' s''] eqn:Hb;
      [| |done|]; injection Hstep as <- <- <-.
    + exists g, pub. split; [exact (step_value body acc s x g _ Hb Hwp)|].
      by rewrite list_insert_id.
    + by destruct (step_thrown body acc s g _ Hb Hwp).
    + destruct (IHb _ _ _ _ _ _ _ _ _ _ Hinv Hi Hwp Hb) as (g' & pub' & Hwp' & Hinv').
      by exists g', pub'.
  - done.
Qed.

Section HandlersSafe.
Context `{TimeCodec}.

Lemma getWeatherHandler_safe (r : Request) :
  wp (getWeatherHandler r) nothing (answers GET r).
Proof.
  unfold getWeatherHandler. case_decide as Hc.
  { split; [done|]. by left. }
  simpl. split; [done|]. split; [done|]. split.
  - split; [done|]. split; [done|]. right. left.
    split; [|done]. simpl. apply list_elem_of_here.
  - intros l w _. split; [done|].
    exists l, w. split; [done|]. split.
    + unfold visible. simpl. by rewrite lookup_empty, lookup_insert_eq.
    + split; [done|]. right. right. exists l, w. simpl.
      split; [apply list_elem_of_here|]. by rewrite lookup_insert_eq.
Qed.

Ltac owned :=
  eexists _, _; split; [reflexivity|];
  split; [by unfold visible; simpl;
             repeat (progress (rewrite ?lookup_delete_eq, ?lookup_insert_eq; simpl))|].

Lemma updateWeatherHandler_safe (r : Request) :
  wp (updateWeatherHandler r) nothing (answers PUT r).
Proof.
  destruct r as [city b]. unfold updateWeatherHandler, answers. simpl.
  case_decide as Hc.
  { split; [done|]. by left. }
  simpl. intros l _ _.
  destruct (decodes b) eqn:Hd.
  - pose proof (payload_accepted _ Hd) as Hp.
    destruct b as [|doc]; [done|]. simpl in Hp |- *.
    owned. rewrite Hp. simpl. owned. rewrite ?insert_insert_eq.
    owned. intros t. rewrite ?insert_insert_eq.
    owned. rewrite ?insert_insert_eq.
    split; [done|]. owned. split; [done|]. owned.
    split; [done|]. split; [done|]. owned.
    split; [reflexivity|]. right. right. exists l, t. simpl.
    split; [done|]. split; [apply list_elem_of_here|done].
  - destruct (payload_rejected _ Hd) as [e Hp].
    destruct b as [|doc]; simpl in Hp |- *.
    + split; [done|]. right. by left.
    + owned. rewrite Hp. simpl. owned.
      split; [done|]. right. by left.
Qed.

Lemma handler_safe (m : method) (r : Request) :
  wp (handler m r) nothing (answers m r).
Proof.
  destruct m; [apply getWeatherHandler_safe|apply updateWeatherHandler_safe].
Qed.

End HandlersSafe.

Ltac snoc H := apply lookup_snoc_Some in H as [(? & H)|(? & <-)].

Lemma consistent_arrive (γs : list (access * ghost)) (s : Shared)
    (pub : gmap loc (string * Weather)) :
  consistent γs s pub → consistent (γs ++ [(Idle, nothing)]) s pub.
Proof.
  intros ([Hr Hw Hx Hd] & [Hl Hs Ha Hrc] & [Hown Hsep Hkn Hpub Hlog Hseen] & HM).
  split; [|split; [|split; [|done]]].
  - constructor.
    + rewrite count_snoc. simpl. lia.
    + intros Hm j γj Hj. snoc Hj; [by eapply Hw|done].
    + intros j k γj γk Hj Hk Hj' Hk'. snoc Hj; snoc Hk; try done.
      by eapply Hx.
    + intros Hm. destruct (Hd Hm) as (j & γj & Hj & Hj').
      exists j, γj. split; [|done]. by apply lookup_app_l_Some.
  - constructor; [| | |done].
    + rewrite count_snoc. simpl. lia.
    + rewrite count_snoc. simpl. lia.
    + intros j γj Hj. snoc Hj; [by eapply Ha|done].
  - constructor; [| | |done|done|].
    + intros j γj l w Hj. snoc Hj; [by eapply Hown|done].
    + intros j k γj γk l Hne Hj Hk [w Ho]. snoc Hj; snoc Hk;
        first [by eapply (Hsep j k) | by apply lookup_empty
              | by rewrite lookup_empty in Ho | lia].
    + intros j γj l kw Hj. snoc Hj; [by eapply Hkn|done].
    + intros j γj e Hj He. snoc Hj; [by eapply Hseen|].
      by apply elem_of_nil in He.
Qed.

Lemma consistent_tick (γs : list (access * ghost)) (s : Shared)
    (pub : gmap loc (string * Weather)) (t : Time) :
  consistent γs s pub →
  consistent γs {| world := withClock t (world s); loading := loading s;
                   storing := storing s; raced := raced s; log := log s |} pub.
Proof.
  intros (HL & HA & HH & HM). split; [done|]. split; [|done].
  by apply (accessInv_world s).
Qed.

Lemma consistent_start (t : Time) : consistent [] (start t).2 ∅.
Proof.
  split; [|split; [|split]]; constructor; try done.
  intros key v x Hin. by apply elem_of_nil in Hin.
Qed.

Section Reachable.
Context `{TimeCodec}.

Lemma safe_start (t : Time) : safe (start t).
Proof. exists [], ∅. split; [apply consistent_start|constructor]. Qed.

Lemma safe_sched (c c' : list goroutine * Shared) :
  sched c c' → safe c → safe c'.
Proof.
  intros Hs (γs & pub & Hinv & Hts).
  destruct Hs as [m r ts s|t ts s|i g p acc ts s s' Hi Hstep]; simpl in *.
  - exists (γs ++ [(Idle, nothing)]), pub. split; [by apply consistent_arrive|].
    apply Forall2_app; [done|]. constructor; [|constructor].
    split; [done|]. apply handler_safe.
  - exists γs, pub. split; [by apply consistent_tick|done].
  - destruct (Forall2_lookup_l _ _ _ _ _ Hts Hi) as ([a gh] & Hγ & Ha & Hwp).
    simpl in Ha, Hwp. rewrite Ha in Hstep.
    destruct (step_sound _ _ _ _ _ _ _ _ _ _ _ Hinv Hγ Hwp Hstep)
      as (g' & pub' & Hwp' & Hinv').
    exists (<[i := (acc, g')]> γs), pub'. split; [done|].
    by apply Forall2_insert.
Qed.

Lemma safe_reachable (t : Time) (c : list goroutine * Shared) :
  rtc sched (start t) c → safe c.
Proof.
  revert c. apply rtc_ind_r; [apply safe_start|].
  intros c c' _ Hs Hc. by eapply safe_sched.
Qed.

End Reachable.

Section Scheduling.
Context `{TimeCodec}.

Lemma sched_arrive' (m : method) (r : Request) (c : list goroutine * Shared) :
  sched c (arrive m r c).
Proof. destruct c as [ts s]. apply sched_arrive. Qed.

Lemma rtc_advance (i : nat) (c : list goroutine * Shared) :
  rtc sched c (advance i c).
Proof.
  destruct c as [ts s]. unfold advance. simpl.
  destruct (ts !! i) as [g|] eqn:Hi; [|done].
  destruct (step (code g) (phase g) s) as [| | |p acc s'] eqn:Hs; try done.
  apply rtc_once. by eapply sched_step.
Qed.

Lemma rtc_schedule (order : list nat) (c : list goroutine * Shared) :
  rtc sched c (schedule order c).
Proof.
  revert c. induction order as [|i order IH]; intros c; [done|].
  simpl. etrans; [apply rtc_advance|apply IH].
Qed.

End Scheduling.

(** ** What holds of the server at work *)

Lemma step_value_head {A} (p : prog A) (acc : access) (s : Shared) (x : A) :
  step p acc s = Value x → p = Ret x.
Proof.
  destruct p as [A a|A a|A B m k|A d body|A]; simpl.
  - by intros [= ->].
  - intros Hs. by destruct (proj1 (stepAct_moves a acc s) x).
  - by destruct (step m acc s).
  - by destruct (step body acc s).
  - done.
Qed.

Lemma step_thrown_head {A} (p : prog A) (acc : access) (s : Shared) :
  step p acc s = Thrown → p = Throw.
Proof.
  destruct p as [A a|A a|A B m k|A d body|A]; simpl.
  - done.
  - intros Hs. by destruct (proj2 (stepAct_moves a acc s)).
  - by destruct (step m acc s).
  - by destruct (step body acc s).
  - done.
Qed.

Lemma step_head {A} (p : prog A) :
  ∀ (acc acc' : access) (s s' : Shared) (p' : prog A),
  acc = Idle ∨ head p = acc →
  step p acc s = Steps p' acc' s' → acc' = Idle ∨ head p' = acc'.
Proof.
  induction p as [A a|A a|A B m IHm k IHk|A d IHd body IHb|A];
    intros acc acc' s s' p' Ha Hstep; simpl in Hstep.
  - done.
  - unfold stepAct in Hstep. case_decide.
    + injection Hstep as <- <- <-. by right.
    + case_decide; [|done].
      destruct (perform a (world s)); [| |done]; injection Hstep as <- <- <-; by left.
  - destruct (step m acc s) as [x| | |m' acc'' s''] eqn:Hm;
      [| |done|]; injection Hstep as <- <- <-.
    + apply step_value_head in Hm as ->. simpl in Ha. left. by destruct Ha.
    + apply step_thrown_head in Hm as ->. simpl in Ha. left. by destruct Ha.
    + simpl. by eapply IHm.
  - destruct (step body acc s) as [x| | |b' acc'' s''] eqn:Hb;
      [| |done|]; injection Hstep as <- <- <-.
    + apply step_value_head in Hb as ->. simpl in Ha. left. by destruct Ha.
    + apply step_thrown_head in Hb as ->. simpl in Ha. left. by destruct Ha.
    + simpl. by eapply IHb.
  - done.
Qed.

(** A goroutine waits only for the mutex, and holds no lock then. *)
Lemma step_waits {A} (p : prog A) :
  ∀ (acc : access) (s : Shared) (g : ghost) (Q : A → ghost → Prop),
  acc = Idle ∨ head p = acc → wp p g Q → step p acc s = Waits →
  held g = Free ∧ lock (mu (storage (world s))) = None.
Proof.
  induction p as [A a|A a|A B m IHm k IHk|A d IHd body IHb|A];
    intros acc s g Q Ha Hwp Hstep; simpl in Hstep.
  - done.
  - unfold stepAct in Hstep. case_decide as Hb; [done|].
    case_decide as Hn.
    + subst acc.
      destruct a; simpl in Hstep, Hwp; unfold update in Hstep;
        repeat case_match; simplify_eq.
      * destruct Hwp as [Hf _]. split; [done|].
        unfold rlock in *. unfold lock. by case_match.
      * by destruct Hwp as [Hf _].
    + simpl in Ha. destruct Ha as [->|Ha]; [|done].
      destruct (decide (need a = Idle)) as [Hi|Hi]; [done|].
      destruct Hb. by split.
  - destruct (step m acc s) as [x| | |m' acc'' s''] eqn:Hm; try done.
    by eapply IHm.
  - destruct (step body acc s) as [x| | |b' acc'' s''] eqn:Hb; try done.
    by eapply IHb.
  - done.
Qed.

Lemma count_pos {X} (f : X → bool) (l : list X) :
  0 < count f l → ∃ i x, l !! i = Some x ∧ f x = true.
Proof.
  induction l as [|z l IH]; simpl; [lia|].
  destruct (f z) eqn:Hz.
  - intros _. by exists 0, z.
  - intros Hl. destruct IH as (i & x & Hi & Hx); [lia|]. by exists (S i), x.
Qed.

Section Concurrent.
Context `{TimeCodec}.

Lemma reachable_ghost (t : Time) (c : list goroutine * Shared) :
  rtc sched (start t) c →
  ∃ γs pub, consistent γs c.2 pub ∧
    ∀ i g, c.1 !! i = Some g →
      ∃ γ, γs !! i = Some γ ∧ phase g = γ.1 ∧
           wp (code g) γ.2 (answers (meth g) (req g)).
Proof.
  intros Hc. destruct (safe_reachable t c Hc) as (γs & pub & Hinv & Hts).
  exists γs, pub. split; [done|]. intros i g Hi.
  by apply (Forall2_lookup_l _ _ _ _ _ Hts Hi).
Qed.

(** C9. With any number of goroutines at work on the one store, however
    they are interleaved: no access to the map ever met a conflicting one;
    while a goroutine assigns to the map it holds the mutex as a writer
    and no other goroutine is at the map, looking up or assigning; the
    accesses of all goroutines, in the order in which they ended, are the
    history of a map used by one caller at a time, and the map is what the
    assignments made of the empty one. A GET that has answered looked its
    city up at one point of that history: if no assignment to its city came
    before that point it answers 404; otherwise it found the pointer of the
    latest assignment to its city before that point, and what it answers is
    the record of that assignment, whole, as it was assigned and as it
    still is on the heap, whatever was assigned since. *)
Theorem concurrent_store (t : Time) (c : list goroutine * Shared) :
  rtc sched (start t) c →
  raced c.2 = false ∧
  (∀ i j gi gj, c.1 !! i = Some gi → c.1 !! j = Some gj →
     phase gi = InStore → phase gj ≠ Idle → i = j) ∧
  (∀ i g, c.1 !! i = Some g → phase g = InStore →
     writer (mu (storage (world c.2))) = true) ∧
  legal (log c.2) ∅ ∧
  weathers (storage (world c.2)) = replay (log c.2) ∅ ∧
  (∀ i g rsp, c.1 !! i = Some g → meth g = GET → urlCity (req g) ≠ "" →
     code g = Ret rsp →
     ∃ before after,
       log c.2 =
         before ++
         Looked (urlCity (req g))
                (default nilptr (replay before ∅ !! urlCity (req g))) :: after ∧
       match replay before ∅ !! urlCity (req g) with
       | None =>
           rsp = httpError ("Weather for city '" ++ urlCity (req g) ++ "' not found")
                           StatusNotFound
       | Some v =>
           ∃ l w, v = addr l ∧
             Assigned (urlCity (req g)) (addr l) (Some w) ∈ before ∧
             heap (world c.2) !! l = Some w ∧
             rsp = renderJSON w
       end).
Proof.
  intros Hc. destruct (reachable_ghost t c Hc) as (γs & pub & Hinv & Hts).
  destruct Hinv as (HL & HA & HH & HM).
  assert (Hheld : ∀ i g, c.1 !! i = Some g → phase g ≠ Idle →
            ∃ γ, γs !! i = Some γ ∧ held γ.2 ≠ Free ∧
                 (phase g = InStore → held γ.2 = WriteLocked)).
  { intros i g Hi Hp. destruct (Hts i g Hi) as (γ & Hγ & Hph & _).
    exists γ. split; [done|]. pose proof (inv_access _ _ HA i γ Hγ) as Ha.
    rewrite <- Hph in Ha. destruct (phase g); [done|by split|].
    split; [by rewrite Ha|done]. }
  split; [apply (inv_raced _ _ HA)|]. split; [|split; [|split; [|split]]].
  - intros i j gi gj Hi Hj Hpi Hpj.
    destruct (Hheld i gi Hi) as (γi & Hγi & _ & Hwi); [by rewrite Hpi|].
    destruct (Hheld j gj Hj Hpj) as (γj & Hγj & Hfj & _).
    eapply (inv_excl _ _ HL i j); eauto.
  - intros i g Hi Hp.
    destruct (Hheld i g Hi) as (γ & Hγ & _ & Hw); [by rewrite Hp|].
    destruct (writer (mu (storage (world c.2)))) eqn:Hm; [done|].
    by destruct (inv_writer _ _ HL Hm i γ Hγ); auto.
  - apply (inv_legal _ _ _ HM).
  - apply (inv_replay _ _ _ HM).
  - intros i g rsp Hi Hm Hcity Hret.
    destruct (Hts i g Hi) as (γ & Hγ & _ & Hwp).
    rewrite Hret in Hwp. simpl in Hwp. destruct Hwp as [_ Hwp].
    rewrite Hm in Hwp.
    assert (Hseen : ∀ e, e ∈ seen γ.2 → e ∈ log c.2).
    { intros e. by apply (inv_seen _ _ _ _ HH i γ e). }
    assert (Hfound : ∀ v, Looked (urlCity (req g)) v ∈ log c.2 →
              ∃ before after,
                log c.2 = before ++ Looked (urlCity (req g)) v :: after ∧
                v = default nilptr (replay before ∅ !! urlCity (req g)) ∧
                ∀ u, replay before ∅ !! urlCity (req g) = Some u →
                  ∃ l w, u = addr l ∧
                    Assigned (urlCity (req g)) (addr l) (Some w) ∈ before ∧
                    pub !! l = Some (urlCity (req g), w)).
    { intros v Hin. apply list_elem_of_split in Hin as (before & after & Hlog).
      exists before, after. split; [done|].
      pose proof (inv_legal _ _ _ HM) as Hlegal. rewrite Hlog in Hlegal.
      apply legal_app in Hlegal as [_ [Hv _]]. split; [done|].
      intros u Hu. apply replay_lookup in Hu as [Hu|[x Hx]]; [done|].
      assert (Hx' : Assigned (urlCity (req g)) u x ∈ log c.2).
      { rewrite Hlog. apply elem_of_app. by left. }
      destruct (inv_logged _ _ _ _ HH _ _ _ Hx') as (l & w & -> & -> & Hl).
      by exists l, w. }
    destruct Hwp as [[? _]|[[Hl ->]|(l & w & Hl & Hk & ->)]]; [done| |].
    + destruct (Hfound _ (Hseen _ Hl)) as (before & after & Hlog & Hv & Hu).
      exists before, after. rewrite <- Hv. split; [done|].
      destruct (replay before ∅ !! urlCity (req g)) as [u|]; [|done].
      destruct (Hu u eq_refl) as (l & w & -> & _). done.
    + destruct (Hfound _ (Hseen _ Hl)) as (before & after & Hlog & Hv & Hu).
      exists before, after. rewrite <- Hv. split; [done|].
      destruct (replay before ∅ !! urlCity (req g)) as [u|]; [|done].
      simpl in Hv. subst u.
      destruct (Hu _ eq_refl) as (l' & w' & [= <-] & Hin & Hp).
      pose proof (inv_known _ _ _ _ HH i γ l _ Hγ Hk) as Hp'.
      rewrite Hp in Hp'. injection Hp' as ->.
      exists l, w. split; [done|]. split; [done|]. split; [|done].
      by apply (inv_pub _ _ _ _ HH l (urlCity (req g)) w).
Qed.

(** X11. Whatever requests arrive and however the goroutines that serve
    them take their steps: no access to the map begins while an assignment
    to it is under way, and no assignment while any access is (no data
    race); while a goroutine assigns to the map none of the others is in an
    access to it, and a writer holds the mutex; while one looks a key up,
    the mutex is held. *)
Theorem accesses_exclusive (t : Time) (c : list goroutine * Shared) :
  rtc sched (start t) c →
  raced c.2 = false ∧
  (∀ i j gi gj, c.1 !! i = Some gi → c.1 !! j = Some gj →
     phase gi = InStore → phase gj ≠ Idle → i = j) ∧
  (∀ i g, c.1 !! i = Some g → phase g = InStore →
     writer (mu (storage (world c.2))) = true) ∧
  (∀ i g, c.1 !! i = Some g → phase g = InLoad →
     writer (mu (storage (world c.2))) = true ∨
     0 < readers (mu (storage (world c.2)))).
Proof.
  intros Hc. destruct (reachable_ghost t c Hc) as (γs & pub & Hinv & Hts).
  destruct Hinv as (HL & HA & HH & HM).
  assert (Hheld : ∀ i g, c.1 !! i = Some g → phase g ≠ Idle →
            ∃ γ, γs !! i = Some γ ∧ held γ.2 ≠ Free ∧
                 (phase g = InStore → held γ.2 = WriteLocked)).
  { intros i g Hi Hp. destruct (Hts i g Hi) as (γ & Hγ & Hph & _).
    exists γ. split; [done|]. pose proof (inv_access _ _ HA i γ Hγ) as Ha.
    rewrite <- Hph in Ha. destruct (phase g); [done|by split|].
    split; [by rewrite Ha|done]. }
  assert (Hunlocked : writer (mu (storage (world c.2))) = false →
            ∀ i γ, γs !! i = Some γ → held γ.2 ≠ WriteLocked).
  { intros Hw i γ Hγ. apply (inv_writer _ _ HL Hw i γ Hγ). }
  split; [apply (inv_raced _ _ HA)|]. split; [|split].
  - intros i j gi gj Hi Hj Hpi Hpj.
    destruct (Hheld i gi Hi) as (γi & Hγi & _ & Hwi); [by rewrite Hpi|].
    destruct (Hheld j gj Hj Hpj) as (γj & Hγj & Hfj & _).
    eapply (inv_excl _ _ HL i j); eauto.
  - intros i g Hi Hp.
    destruct (Hheld i g Hi) as (γ & Hγ & _ & Hw); [by rewrite Hp|].
    destruct (writer (mu (storage (world c.2)))) eqn:Hm; [done|].
    by destruct (Hunlocked eq_refl i γ Hγ); auto.
  - intros i g Hi Hp.
    destruct (Hheld i g Hi) as (γ & Hγ & Hf & _); [by rewrite Hp|].
    destruct (writer (mu (storage (world c.2)))) eqn:Hm; [by left|right].
    rewrite (inv_readers _ _ HL). eapply count_lookup; [done|].
    apply isReader_true. destruct (held γ.2) eqn:Hh; [done|done|].
    by destruct (Hunlocked eq_refl i γ Hγ).
Qed.

(** X12. However the goroutines of the server take their steps, none of
    them panics: no handler dereferences nil or a pointer to nothing, and
    none unlocks a mutex that is not locked. *)
Theorem handlers_never_panic (t : Time) (c : list goroutine * Shared)
    (i : nat) (g : goroutine) :
  rtc sched (start t) c → c.1 !! i = Some g →
  code g ≠ Throw ∧ step (code g) (phase g) c.2 ≠ Thrown.
Proof.
  intros Hc Hi. destruct (reachable_ghost t c Hc) as (γs & pub & _ & Hts).
  destruct (Hts i g Hi) as (γ & _ & _ & Hwp).
  assert (Hne : code g ≠ Throw) by (intros Ht; by rewrite Ht in Hwp).
  split; [done|]. by intros Ht%step_thrown_head.
Qed.

(** X14. A record that was put in the map is never written again: in every
    later state of the server, whatever the goroutines do, the pointer that
    was assigned points to the record as it was when it was assigned. *)
Theorem stored_records_immutable (t : Time) (c : list goroutine * Shared)
    (key : string) (v : pointer) (x : option Weather) :
  rtc sched (start t) c → Assigned key v x ∈ log c.2 →
  ∃ l w, v = addr l ∧ x = Some w ∧ heap (world c.2) !! l = Some w.
Proof.
  intros Hc Hin. destruct (reachable_ghost t c Hc) as (γs & pub & Hinv & _).
  destruct Hinv as (_ & _ & HH & _).
  destruct (inv_logged _ _ _ _ HH key v x Hin) as (l & w & -> & -> & Hl).
  exists l, w. split; [done|]. split; [done|].
  by apply (inv_pub _ _ _ _ HH l key w).
Qed.

(** X15. With any number of goroutines at work, in every state of the
    server every entry of the map points to a record on the heap whose city
    is the key. *)
Theorem concurrent_records_keyed (t : Time) (c : list goroutine * Shared)
    (key : string) (p : pointer) :
  rtc sched (start t) c → weathers (storage (world c.2)) !! key = Some p →
  ∃ l w, p = addr l ∧ heap (world c.2) !! l = Some w ∧ City w = key.
Proof.
  intros Hc Hp. destruct (reachable_ghost t c Hc) as (γs & pub & Hinv & _).
  destruct Hinv as (_ & _ & HH & HM).
  destruct (inv_map _ _ _ HM key p Hp) as (l & w & -> & Hl).
  destruct (inv_pub _ _ _ _ HH l key w Hl) as (Hh & Hcity & _).
  by exists l, w.
Qed.

(** X16. What a handler has answered, in a server with any number of
    goroutines, is what the log of the accesses to the map tells: a GET
    answered 404 looked its city up and found nothing; a GET answered with a
    record found, under its city, the pointer of one assignment, and rendered
    the record of that assignment, whole; a PUT not answered 400 assigned the
    record it answers with, which has the city of the path and the
    temperature of the body. *)
Theorem responses_explained (t : Time) (c : list goroutine * Shared)
    (i : nat) (g : goroutine) (rsp : Response) :
  rtc sched (start t) c → c.1 !! i = Some g → code g = Ret rsp →
  observed (meth g) (req g) rsp (log c.2).
Proof.
  intros Hc Hi Hret. destruct (reachable_ghost t c Hc) as (γs & pub & Hinv & Hts).
  destruct Hinv as (_ & _ & HH & _).
  destruct (Hts i g Hi) as (γ & Hγ & _ & Hwp).
  rewrite Hret in Hwp. simpl in Hwp. destruct Hwp as [_ Hwp].
  assert (Hseen : ∀ e, e ∈ seen γ.2 → e ∈ log c.2).
  { intros e. by apply (inv_seen _ _ _ _ HH i γ e). }
  unfold observed. destruct (meth g).
  - destruct Hwp as [?|[[Hl ->]|(l & w & Hl & Hk & ->)]]; [by left| |].
    + right. left. split; [|done]. by apply Hseen.
    + right. right. exists l, w. split; [by apply Hseen|]. split; [|done].
      by apply (inv_pub _ _ _ _ HH l), (inv_known _ _ _ _ HH i γ).
  - destruct Hwp as [?|[?|(l & t' & Hd & Hl & ->)]]; [by left|by right; left|].
    right. right. exists l, t'. split; [done|]. split; [|done]. by apply Hseen.
Qed.

End Concurrent.

(** ** Progress *)

Section Progress.
Context `{TimeCodec}.

Lemma aligned_start (t : Time) : aligned (start t).
Proof. intros i g Hi. done. Qed.

Lemma aligned_sched (c c' : list goroutine * Shared) :
  sched c c' → aligned c → aligned c'.
Proof.
  intros Hs Hc.
  destruct Hs as [m r ts s|t ts s|i g p acc ts s s' Hi Hstep]; simpl in *.
  - intros j gj Hj. simpl in Hj.
    apply lookup_snoc_Some in Hj as [(? & Hj)|(? & <-)]; [by apply (Hc j)|by left].
  - done.
  - intros j gj Hj. simpl in Hj.
    apply list_lookup_insert_Some in Hj as [(<- & <- & ?)|(? & Hj)]; [|by apply (Hc j)].
    simpl. eapply step_head; [|done]. destruct (Hc i g Hi) as [->|?]; auto.
Qed.

Lemma aligned_reachable (t : Time) (c : list goroutine * Shared) :
  rtc sched (start t) c → aligned c.
Proof.
  revert c. apply rtc_ind_r; [apply aligned_start|].
  intros c c' _ Hs Hc. by eapply aligned_sched.
Qed.

Lemma wp_holding {A} (p : prog A) :
  ∀ (g : ghost) (Q : A → ghost → Prop),
  wp p g Q → held g ≠ Free → acquiring p = false.
Proof.
  induction p as [A a|A a|A B m IHm k IHk|A d IHd body IHb|A];
    intros g Q Hwp Hh; simpl; try done.
  - destruct a; try done; by destruct Hwp as [Hf _].
  - by eapply IHm.
  - by eapply IHb.
Qed.

(** X17. The server does not deadlock. In every state it reaches: while
    the mutex is free, every handler that has not answered can take a step;
    while the mutex is held, some goroutine can take a step that is not an
    attempt to take the mutex, namely one that holds it. So a goroutine only
    ever waits for the mutex, and for a goroutine that can go on, whichever
    of the goroutines that wait gets the mutex next. *)
Theorem no_deadlock (t : Time) (c : list goroutine * Shared) :
  rtc sched (start t) c →
  (mu (storage (world c.2)) = unlocked →
   ∀ i g, c.1 !! i = Some g → (∀ rsp, code g ≠ Ret rsp) →
     ∃ p acc s', step (code g) (phase g) c.2 = Steps p acc s') ∧
  (mu (storage (world c.2)) ≠ unlocked →
   ∃ j gj p acc s', c.1 !! j = Some gj ∧ acquiring (code gj) = false ∧
     step (code gj) (phase gj) c.2 = Steps p acc s').
Proof.
  intros Hc.
  pose proof (aligned_reachable t c Hc) as Hal.
  destruct (safe_reachable t c Hc) as (γs & pub & Hinv & Hts).
  destruct Hinv as (HL & HA & HH & HM).
  split.
  - intros Hfree i g Hi Hret.
    destruct (Forall2_lookup_l _ _ _ _ _ Hts Hi) as (γ & Hγ & Hp & Hwp).
    destruct (step (code g) (phase g) c.2) as [x| | |p acc s'] eqn:Hs.
    + apply step_value_head in Hs. by destruct (Hret x).
    + apply step_thrown_head in Hs. by rewrite Hs in Hwp.
    + destruct (step_waits _ _ _ _ _ (Hal i g Hi) Hwp Hs) as [_ Hbusy].
      by rewrite Hfree in Hbusy.
    + by exists p, acc, s'.
  - intros Hbusy.
    assert (Hholder : ∃ j γj, γs !! j = Some γj ∧ held γj.2 ≠ Free).
    { destruct (writer (mu (storage (world c.2)))) eqn:Hw.
      - destruct (inv_held _ _ HL Hw) as (j & γj & Hj & Hh).
        exists j, γj. split; [done|congruence].
      - destruct (count_pos isReader γs) as (j & γj & Hj & Hr).
        { rewrite <- (inv_readers _ _ HL).
          destruct (mu (storage (world c.2))) as [w [|n]]; simpl in *; [|lia].
          by subst w. }
        exists j, γj. split; [done|].
        unfold isReader in Hr. apply bool_decide_eq_true in Hr. congruence. }
    destruct Hholder as (j & γj & Hj & Hh).
    destruct (Forall2_lookup_r _ _ _ _ _ Hts Hj) as (gj & Hgj & Hp & Hwp).
    exists j, gj.
    destruct (step (code gj) (phase gj) c.2) as [x| | |p acc s'] eqn:Hs.
    + apply step_value_head in Hs. rewrite Hs in Hwp. simpl in Hwp.
      by destruct Hwp as [Hf _].
    + apply step_thrown_head in Hs. by rewrite Hs in Hwp.
    + by destruct (step_waits _ _ _ _ _ (Hal j gj Hgj) Hwp Hs) as [Hf _].
    + exists p, acc, s'. split; [done|]. split; [|done]. by eapply wp_holding.
Qed.

End Progress.


(** * The client *)

Section ClientLaws.
Context `{TimeCodec}.

Lemma Unmarshal_Marshal (w w0 : Weather) (doc : json) :
  roundTrips → Marshal w = inl doc → Unmarshal doc w0 = (w, None).
Proof.
  intros Hrt. unfold Marshal.
  destruct (is_finite (Temperature w)) eqn:Hf; [|done].
  destruct (MarshalJSON (UpdatedAt w)) as [text|] eqn:Ht; [|done].
  intros [= <-]. unfold Unmarshal, decodeObject, decodeField.
  change (equalFold "city" "city") with true.
  change (equalFold "temperature" "city") with false.
  change (equalFold "temperature" "temperature") with true.
  change (equalFold "updated_at" "city") with false.
  change (equalFold "updated_at" "temperature") with false.
  change (equalFold "updated_at" "updated_at") with true.
  cbn iota. rewrite Hf. cbn iota. rewrite (Hrt _ _ Ht). by destruct w.
Qed.

Lemma Marshal_encodable (w : Weather) :
  encodable w →
  ∃ doc, Marshal w = inl doc ∧
         renderJSON w = {| status := StatusOK; body := JSON doc |}.
Proof.
  intros [Hf [text Ht]]. unfold renderJSON, Marshal. rewrite Hf, Ht. by eexists.
Qed.

Lemma payload_Marshal (w : Weather) (doc : json) :
  roundTrips → Marshal w = inl doc → payload (Document doc) = (w, None).
Proof. intros Hrt Hm. simpl. by apply Unmarshal_Marshal. Qed.

Lemma decodes_Marshal (w : Weather) (doc : json) :
  roundTrips → Marshal w = inl doc → decodes (Document doc) = true.
Proof.
  intros Hrt Hm. apply payload_decodes. by rewrite (payload_Marshal w).
Qed.

Lemma readWeather_rendered (v : Weather) (resp : HTTPResponse) :
  roundTrips → encodable v → received (renderJSON v) resp →
  StatusCode resp = StatusOK ∧ readWeather resp = (Some v, None).
Proof.
  intros Hrt He [Hs Hb]. destruct (Marshal_encodable v He) as (doc & Hm & Hj).
  rewrite Hj in Hs, Hb. split; [done|].
  unfold readWeather. rewrite (Hb doc eq_refl).
  by rewrite (payload_Marshal v).
Qed.

Section Served.
Context (T : Transport World) (city : string).
Hypothesis Hrt : roundTrips.
Hypothesis HT : delivers T city.

Lemma getWeather_served (σ : World) :
  city ≠ "" → writer (mu (storage σ)) = false →
  records (λ _ w, encodable w) σ →
  getWeather T city σ = ((contents σ !! city, None), σ).
Proof.
  intros Hc Hw Hr. unfold getWeather.
  set (r := {| urlCity := city; reqBody := sentBody None |}).
  rewrite contents_lookup.
  destruct (weathers (storage σ) !! city) as [p|] eqn:Hp; simpl.
  - destruct (getWeatherHandler_found r p σ Hw Hc Hr Hp) as (v & text & Hv & Ht & Hrun).
    destruct (HT GET None σ σ _ Hrun) as (Hn & resp & HD & Hs & Hb).
    rewrite Hn, HD. simpl in *.
    rewrite Hs, decide_False by done.
    rewrite decide_False by (intros Hx; by apply Hx). rewrite Hv.
    unfold readWeather. rewrite (Hb _ eq_refl).
    rewrite (payload_Marshal v); [done|done|].
    destruct (Hr _ _ Hp) as (v' & Hv' & Hf & _). rewrite Hv in Hv'. injection Hv' as <-.
    unfold Marshal. by rewrite Hf, Ht.
  - pose proof (getWeatherHandler_absent r σ Hw Hc Hp) as Hrun.
    destruct (HT GET None σ σ _ Hrun) as (Hn & resp & HD & Hs & Hb).
    rewrite Hn, HD. simpl in *. by rewrite decide_True.
Qed.

Lemma updateWeather_served (w : Weather) (σ : World) :
  city ≠ "" → idle σ → encodable w → is_Some (MarshalJSON (clock σ)) →
  let v := stamped city (clock σ) w in
  let l := fresh (dom (heap σ)) in
  updateWeather T city (Some w) σ =
    ((Some v, None),
     withWeathers (<[city := addr l]> (weathers (storage σ)))
       (withHeap (<[l := v]> (heap σ)) σ)).
Proof.
  intros Hc Hi He Hnow v l. unfold updateWeather.
  destruct (Marshal_encodable w He) as (doc & Hm & _). rewrite Hm.
  set (r := {| urlCity := city; reqBody := sentBody (Some doc) |}).
  pose proof (updateWeatherHandler_cases r σ Hi) as Hrun.
  rewrite decide_False in Hrun by done. simpl in Hrun.
  change (fits doc) with (decodes (Document doc)) in Hrun.
  rewrite (decodes_Marshal w) in Hrun by done.
  change (Unmarshal doc zeroWeather) with (payload (Document doc)) in Hrun.
  rewrite (payload_Marshal w) in Hrun by done. simpl in Hrun.
  destruct (HT PUT (Some doc) σ _ _ Hrun) as (Hn & resp & HD & Hrcv).
  rewrite Hn, HD. simpl.
  assert (Hv : encodable v).
  { destruct He as [Hf _]. by split. }
  destruct (readWeather_rendered v resp Hrt Hv Hrcv) as [Hs Hread].
  rewrite Hs, decide_False by (intros Hx; by apply Hx). by rewrite Hread.
Qed.

Lemma updateWeather_nil_served (σ : World) :
  city ≠ "" → idle σ → is_Some (MarshalJSON (clock σ)) →
  let v := stamped city (clock σ) zeroWeather in
  let l := fresh (dom (heap σ)) in
  updateWeather T city None σ =
    ((Some v, None),
     withWeathers (<[city := addr l]> (weathers (storage σ)))
       (withHeap (<[l := v]> (heap σ)) σ)).
Proof.
  intros Hc Hi Hnow v l. unfold updateWeather.
  set (r := {| urlCity := city; reqBody := sentBody (Some JNull) |}).
  pose proof (updateWeatherHandler_cases r σ Hi) as Hrun.
  rewrite decide_False in Hrun by done. simpl in Hrun.
  destruct (HT PUT (Some JNull) σ _ _ Hrun) as (Hn & resp & HD & Hrcv).
  rewrite Hn, HD. simpl.
  assert (Hv : encodable v) by by split.
  destruct (readWeather_rendered v resp Hrt Hv Hrcv) as [Hs Hread].
  rewrite Hs, decide_False by (intros Hx; by apply Hx). by rewrite Hread.
Qed.

Lemma updateWeather_then_get (w : Weather) (σ : World) :
  city ≠ "" → idle σ → keyed σ → records (λ _ w, encodable w) σ →
  encodable w → is_Some (MarshalJSON (clock σ)) →
  let v := stamped city (clock σ) w in
  ∃ σ', updateWeather T city (Some w) σ = ((Some v, None), σ') ∧
        getWeather T city σ' = ((Some v, None), σ') ∧
        contents σ' = <[city := v]> (contents σ).
Proof.
  intros Hc Hi Hk Hr He Hnow v.
  pose proof (updateWeather_served w σ Hc Hi He Hnow) as Hu.
  simpl in Hu. fold v in Hu.
  eexists. split; [exact Hu|].
  pose proof (effect_put_new σ v) as Heff. simpl in Heff.
  split.
  - rewrite getWeather_served; try done.
    + rewrite contents_lookup. simpl. rewrite lookup_insert_eq. simpl.
      by rewrite lookup_insert_eq.
    + simpl. by rewrite Hi.
    + apply (effect_records _ _ _ _ Heff); [|done].
      intros c u [= <- <-]. destruct He as [Hf _]. by split.
  - exact (effect_contents _ _ _ Heff Hk).
Qed.

End Served.

End ClientLaws.

Section ClientTheorems.
Context `{TimeCodec}.

Lemma execute_snoc (ops : list op) (o : op) (σ : World) :
  execute (ops ++ [o]) σ = call o (execute ops σ).
Proof. unfold execute. by rewrite foldl_app. Qed.

Lemma loopback_delivers (city : string) : delivers (loopback city) city.
Proof.
  intros m b σ σ' rsp Hrun. split; [done|]. simpl. rewrite Hrun.
  eexists. split; [done|]. split; [done|]. simpl. by intros doc ->.
Qed.

(** X18. On every state the server reaches by serving requests, with a
    transport that delivers, the client's [getWeather] returns what the store
    holds for the city, decoded from the response: the stored record, or nil
    without an error when there is none. The server is left as it was. *)
Theorem client_get_reads_store (T : Transport World) (city : string)
    (t : Time) (ops : list op) :
  roundTrips → delivers T city → city ≠ "" →
  is_Some (MarshalJSON t) → Forall served ops →
  let σ := execute ops (boot t) in
  getWeather T city σ = ((contents σ !! city, None), σ).
Proof.
  intros Hrt HT Hc Ht Hs σ.
  destruct (served_invariant ops (boot t) Hs (boot_idle t) (boot_records _ t) Ht)
    as (Hi & Hr & _). fold σ in Hi, Hr.
  apply getWeather_served; try done. by rewrite Hi.
Qed.

(** X19. The client's [updateWeather] with a record that can be encoded,
    on every state the server reaches by serving requests: it returns the
    record as the server stored it, with the city of the URL (whatever city
    the record had), the temperature that was sent and the time of the
    server's clock, and a [getWeather] for the city after it returns the same
    record. *)
Theorem client_update_then_get (T : Transport World) (city : string)
    (w : Weather) (t : Time) (ops : list op) :
  roundTrips → delivers T city → city ≠ "" →
  is_Some (MarshalJSON t) → Forall served ops → encodable w →
  let σ := execute ops (boot t) in
  let v := {| City := city; Temperature := Temperature w; UpdatedAt := clock σ |} in
  ∃ σ', updateWeather T city (Some w) σ = ((Some v, None), σ') ∧
        getWeather T city σ' = ((Some v, None), σ') ∧
        contents σ' = <[city := v]> (contents σ).
Proof.
  intros Hrt HT Hc Ht Hs He σ v.
  destruct (served_invariant ops (boot t) Hs (boot_idle t) (boot_records _ t) Ht)
    as (Hi & Hr & Hnow). fold σ in Hi, Hr, Hnow.
  pose proof (execute_invariant ops (boot t) (boot_idle t) (boot_keyed t)) as [_ Hk].
  fold σ in Hk.
  by apply (updateWeather_then_get T city Hrt HT w σ).
Qed.

(** X20. [updateWeather] with a nil record does not fail: [json.Marshal]
    encodes nil as null, which the server decodes into the zero record, so
    the server stores, and the client gets back, a record for the city with
    the temperature 0 and the time of the server's clock. *)
Theorem client_update_nil (T : Transport World) (city : string)
    (t : Time) (ops : list op) :
  roundTrips → delivers T city → city ≠ "" →
  is_Some (MarshalJSON t) → Forall served ops →
  let σ := execute ops (boot t) in
  let v := {| City := city; Temperature := 0%float; UpdatedAt := clock σ |} in
  ∃ σ', updateWeather T city None σ = ((Some v, None), σ') ∧
        weathers (storage σ') !! city = Some (addr (fresh (dom (heap σ)))) ∧
        heap σ' !! fresh (dom (heap σ)) = Some v.
Proof.
  intros Hrt HT Hc Ht Hs σ v.
  destruct (served_invariant ops (boot t) Hs (boot_idle t) (boot_records _ t) Ht)
    as (Hi & Hr & Hnow). fold σ in Hi, Hr, Hnow.
  eexists. split; [by apply (updateWeather_nil_served T city Hrt HT σ)|].
  simpl. by rewrite !lookup_insert_eq.
Qed.

(** X21. [updateWeather] with a record that [json.Marshal] cannot encode (a
    NaN or infinite temperature, a time outside of the years 0 to 9999)
    returns the error of the encoder, whatever the transport: the result
    depends on no response, and what is at the other end is left as it
    was. *)
Theorem client_update_unencodable {N : Type} (T : Transport N) (city : string)
    (w : Weather) (n : N) :
  ¬ encodable w →
  ∃ e, Marshal w = inr e ∧
       updateWeather T city (Some w) n = ((None, Some (JSONEncode e)), n).
Proof.
  intros He. unfold updateWeather, encodable in *.
  destruct (Marshal w) as [doc|e] eqn:Hm; [|by exists e].
  destruct He. unfold Marshal in Hm.
  destruct (is_finite (Temperature w)); [|done].
  destruct (MarshalJSON (UpdatedAt w)); [|done]. by split.
Qed.

(** X22. [getWeather] returns neither a record nor an error exactly when
    the request was made and answered with status 404; [updateWeather] never
    does: a 404 is an error to it. *)
Theorem client_absent_only_on_404 {N : Type} (T : Transport N) (city : string)
    (weather : option Weather) (n : N) :
  ((getWeather T city n).1 = (None, None) ↔
     NewRequest T GET (weatherURL city) = true ∧
     ∃ resp, (Do T GET (weatherURL city) None n).1 = Some resp ∧
             StatusCode resp = StatusNotFound) ∧
  (updateWeather T city weather n).1 ≠ (None, None).
Proof.
  assert (Hread : ∀ resp, readWeather resp ≠ (None, None)).
  { intros resp. unfold readWeather. destruct (Body resp) as [|b]; [done|].
    by destruct (payload b) as [u [e|]]. }
  split.
  - unfold getWeather. destruct (NewRequest T GET (weatherURL city)); simpl.
    2:{ split; [done|]. by intros [? _]. }
    destruct (Do T GET (weatherURL city) None n) as [[resp|] n']; simpl.
    2:{ split; [done|]. by intros [_ (? & ? & _)]. }
    case_decide as H404; simpl.
    { split; [|done]. intros _. split; [done|]. by exists resp. }
    case_decide; simpl.
    + split; [done|]. by intros [_ (? & [= <-] & ?)].
    + split; [by intros ?%Hread|]. by intros [_ (? & [= <-] & ?)].
  - unfold updateWeather.
    destruct (match weather with Some w => Marshal w | None => inl JNull end); [|done].
    destruct (NewRequest T PUT (weatherURL city)); simpl; [|done].
    destruct (Do T PUT (weatherURL city) (Some j) n) as [[resp|] n']; simpl; [|done].
    case_decide; simpl; [done|]. apply Hread.
Qed.

(** X23. [main] of the client against a server that has served any
    requests, with a transport that delivers and a finite number drawn for
    the temperature: the three calls succeed, and [main] ends at "Testing
    finished successfully" with the record of Moscow that the server stored,
    which has the temperature drawn and the time of the server's clock. *)
Theorem client_main_finishes (T : Transport World) (draw : float64)
    (t : Time) (ops : list op) :
  roundTrips → delivers T defaultCityName →
  is_Some (MarshalJSON t) → Forall served ops →
  is_Some (MarshalJSON zeroTime) → is_finite draw = true →
  let σ := execute ops (boot t) in
  let v := {| City := "Moscow"; Temperature := draw; UpdatedAt := clock σ |} in
  ∃ σ', main T draw σ = (Finished v, σ') ∧
        contents σ' = <["Moscow" := v]> (contents σ).
Proof.
  intros Hrt HT Ht Hs Hz Hf σ v.
  destruct (served_invariant ops (boot t) Hs (boot_idle t) (boot_records _ t) Ht)
    as (Hi & Hr & Hnow). fold σ in Hi, Hr, Hnow.
  pose proof (execute_invariant ops (boot t) (boot_idle t) (boot_keyed t)) as [_ Hk].
  fold σ in Hk.
  assert (Hw : writer (mu (storage σ)) = false) by by rewrite Hi.
  destruct (updateWeather_then_get T defaultCityName Hrt HT
              (generateRandomWeather draw) σ) as (σ' & Hu & Hg & Hc); try done.
  simpl in Hu, Hg, Hc. fold v in Hu, Hg, Hc.
  exists σ'. split; [|done]. unfold main.
  rewrite (getWeather_served T defaultCityName Hrt HT σ) by done.
  by rewrite Hu, Hg.
Qed.

End ClientTheorems.

(** * The theorems at work *)

Lemma put_then_get_witness :
  (∃ σ', run (UpdateWeather pMoscowLater) stocked = Done tt σ' ∧
         run (GetWeather "Moscow") σ' = Done pMoscowLater σ' ∧
         deref pMoscowLater σ' = Some moscowLater) ∧
  (∃ rsp σ' q r,
     run (@updateWeatherHandler epochCodec putCold) stocked = Done rsp σ' ∧
     run (GetWeather "Moscow") σ' = Done q σ' ∧
     deref q σ' = Some r ∧
     City r = "Moscow" ∧ Temperature r = (-7.25)%float ∧ UpdatedAt r = 7%Z) ∧
  (∃ σ1 σ2, run (UpdateWeather pMoscow) stocked = Done tt σ1 ∧
            run (UpdateWeather pMoscowLater) σ1 = Done tt σ2 ∧
            run (GetWeather "Moscow") σ2 = Done pMoscowLater σ2 ∧
            deref pMoscowLater σ2 = Some moscowLater) ∧
  stored "Moscow" stocked = pMoscow ∧ deref pMoscow stocked = Some moscow ∧
  moscow ≠ moscowLater.
Proof.
  split; [|split; [|split]].
  - apply (proj1 (@put_then_get epochCodec) stocked pMoscowLater moscowLater);
      reflexivity.
  - apply (proj1 (proj2 (@put_then_get epochCodec)) stocked putCold
             {| City := "Paris"; Temperature := (-7.25)%float; UpdatedAt := 0%Z |}).
    + reflexivity.
    + discriminate.
    + reflexivity.
  - apply (proj2 (proj2 (@put_then_get epochCodec)) stocked pMoscow pMoscowLater
             moscow moscowLater); reflexivity.
  - split; [reflexivity|]. split; [reflexivity|]. discriminate.
Defined.

Lemma never_written_absent_witness :
  run (GetWeather "Paris")
      (@execute epochCodec [OpPutNew moscow; OpGet "Paris"; OpPutRequest putMoscow]
         (boot 0%Z)) =
  Done nilptr
      (@execute epochCodec [OpPutNew moscow; OpGet "Paris"; OpPutRequest putMoscow]
         (boot 0%Z)).
Proof.
  apply (@never_written_absent epochCodec 0%Z
           [OpPutNew moscow; OpGet "Paris"; OpPutRequest putMoscow] "Paris").
  simpl. repeat split; discriminate.
Defined.

Lemma put_idempotent_witness :
  run (UpdateWeather pMoscow;; UpdateWeather pMoscow) example =
    run (UpdateWeather pMoscow) example ∧
  contents (@execute epochCodec
              [OpTick 0%Z; OpPutRequest putMoscow; OpTick 5%Z; OpPutRequest putMoscow]
              (boot 0%Z)) =
  contents (@execute epochCodec [OpTick 5%Z; OpPutRequest putMoscow] (boot 0%Z)).
Proof.
  split.
  - apply (proj1 (@put_idempotent epochCodec) example pMoscow).
  - apply (proj2 (@put_idempotent epochCodec) (boot 0%Z) putMoscow 0%Z 5%Z).
    + apply boot_idle.
    + apply boot_keyed.
Defined.

Lemma put_get_frame_witness :
  (∃ σ', run (UpdateWeather pMoscowLater) stocked = Done tt σ' ∧
         (∀ c, c ≠ "Moscow" →
            weathers (storage σ') !! c = weathers (storage stocked) !! c) ∧
         heap σ' = heap stocked ∧ mu (storage σ') = mu (storage stocked) ∧
         clock σ' = clock stocked) ∧
  run (GetWeather "Moscow") stocked = Done (stored "Moscow" stocked) stocked ∧
  after (run (GetWeather "Moscow") stocked) stocked = stocked ∧
  weathers (storage stocked) !! "" = Some pNowhere ∧
  weathers (storage stocked) !! "Moscow" = Some pMoscow.
Proof.
  split; [|split; [|split]].
  - apply (proj1 put_get_frame stocked pMoscowLater moscowLater); reflexivity.
  - apply (proj1 (proj2 put_get_frame) stocked "Moscow"). reflexivity.
  - apply (proj2 (proj2 put_get_frame) stocked "Moscow").
  - split; reflexivity.
Defined.

Lemma store_accepts_empty_city_witness :
  ∃ σ', run (UpdateWeather pNowhere) example = Done tt σ' ∧
        weathers (storage σ') !! "" = Some pNowhere ∧
        run (GetWeather "") σ' = Done pNowhere σ' ∧
        deref pNowhere σ' = Some nowhere.
Proof.
  apply (proj1 (@store_accepts_empty_city epochCodec) example pNowhere nowhere);
    reflexivity.
Defined.

Lemma update_stores_path_city_and_time_witness :
  urlCity putMoscow ≠ "" ∧ @decodes epochCodec (reqBody putMoscow) = true ∧
  ∃ l v text,
    weathers (storage moscowServed) !! "Moscow" = Some (addr l) ∧
    heap moscowServed !! l = Some v ∧
    City v = "Moscow" ∧
    UpdatedAt v = 0%Z ∧
    Temperature v = 21.5%float ∧
    @MarshalJSON epochCodec 0%Z = Some text ∧
    body (mkResponse 200 (JSON (weatherJSON moscow "1970-01-01T00:00:00Z"))) =
      JSON (weatherJSON v text).
Proof.
  apply (@update_stores_path_city_and_time epochCodec (boot 0%Z) moscowServed putMoscow
           (mkResponse 200 (JSON (weatherJSON moscow "1970-01-01T00:00:00Z")))).
  - reflexivity.
  - vm_compute. reflexivity.
  - reflexivity.
Defined.

Lemma get_handler_responses_witness :
  ∃ rsp, run (@getWeatherHandler epochCodec getMoscow) moscowServed =
           Done rsp moscowServed ∧
    (urlCity getMoscow = "" → status rsp = StatusBadRequest) ∧
    (urlCity getMoscow ≠ "" →
       weathers (storage moscowServed) !! urlCity getMoscow = None →
       status rsp = StatusNotFound) ∧
    (urlCity getMoscow ≠ "" →
       ∀ p, weathers (storage moscowServed) !! urlCity getMoscow = Some p →
       ∃ v text, deref p moscowServed = Some v ∧
         @MarshalJSON epochCodec (UpdatedAt v) = Some text ∧
         rsp = {| status := StatusOK;
                  body := JSON (JObject [("city", JString (City v));
                                         ("temperature", JNumber (Temperature v));
                                         ("updated_at", JString text)]) |}).
Proof.
  apply (@get_handler_responses epochCodec 0%Z [OpPutRequest putMoscow] getMoscow).
  - by eexists.
  - by repeat constructor.
Defined.

Lemma update_rejects_iff_witness :
  (∃ rsp σ', run (@updateWeatherHandler epochCodec putHot) stocked = Done rsp σ' ∧
    (status rsp = StatusBadRequest ↔
       urlCity putHot = "" ∨ @decodes epochCodec (reqBody putHot) = false) ∧
    (status rsp = StatusBadRequest →
       storage σ' = storage stocked ∧
       mapStores (@updateWeatherHandler epochCodec putHot) stocked = 0) ∧
    (status rsp = StatusOK →
       mapStores (@updateWeatherHandler epochCodec putHot) stocked = 1 ∧
       mu (storage σ') = mu (storage stocked) ∧
       ∃ p, weathers (storage σ') = <[urlCity putHot := p]> (weathers (storage stocked))) ∧
    @decodes epochCodec (Document (JObject [])) = true ∧
    (∀ f, is_finite f = true →
       @decodes epochCodec (Document (JObject [("temperature", JNumber f)])) = true) ∧
    @decodes epochCodec
      (Document (JObject [("city", JNull); ("temperature", JNull);
                          ("updated_at", JNull)])) = true) ∧
  (∃ rsp σ', run (@updateWeatherHandler epochCodec putNulls) (boot 0%Z) = Done rsp σ' ∧
    (status rsp = StatusBadRequest ↔
       urlCity putNulls = "" ∨ @decodes epochCodec (reqBody putNulls) = false) ∧
    (status rsp = StatusBadRequest →
       storage σ' = storage (boot 0%Z) ∧
       mapStores (@updateWeatherHandler epochCodec putNulls) (boot 0%Z) = 0) ∧
    (status rsp = StatusOK →
       mapStores (@updateWeatherHandler epochCodec putNulls) (boot 0%Z) = 1 ∧
       mu (storage σ') = mu (storage (boot 0%Z)) ∧
       ∃ p, weathers (storage σ') =
              <[urlCity putNulls := p]> (weathers (storage (boot 0%Z)))) ∧
    @decodes epochCodec (Document (JObject [])) = true ∧
    (∀ f, is_finite f = true →
       @decodes epochCodec (Document (JObject [("temperature", JNumber f)])) = true) ∧
    @decodes epochCodec
      (Document (JObject [("city", JNull); ("temperature", JNull);
                          ("updated_at", JNull)])) = true) ∧
  match run (@updateWeatherHandler epochCodec putHot) stocked with
  | Done rsp _ => status rsp = StatusBadRequest
  | _ => False
  end ∧
  match run (@updateWeatherHandler epochCodec putNulls) (boot 0%Z) with
  | Done rsp _ => status rsp = StatusOK
  | _ => False
  end.
Proof.
  split; [|split; [|split]].
  - apply (@update_rejects_iff epochCodec stocked putHot). reflexivity.
  - apply (@update_rejects_iff epochCodec (boot 0%Z) putNulls). reflexivity.
  - vm_compute. reflexivity.
  - vm_compute. reflexivity.
Defined.

(** C5, as the specification states it, fails: a body that is JSON, with a
    city in the path, is answered 400 when a value does not fit its field. *)
Lemma json_body_rejected :
  urlCity putHot ≠ "" ∧
  reqBody putHot = Document (JObject [("temperature", JString "hot")]) ∧
  run (@updateWeatherHandler epochCodec putHot) (boot 0%Z) =
    Done (httpError "Invalid request body" StatusBadRequest)
         (withHeap {[1%positive := zeroWeather]} (boot 0%Z)).
Proof. split; [discriminate|]. split; [reflexivity|]. vm_compute. reflexivity. Qed.

Lemma threeRequests_reachable (order : list nat) :
  rtc (@sched epochCodec) (start 0%Z) (schedule order threeRequests).
Proof.
  eapply rtc_l; [apply (@sched_arrive' epochCodec PUT putMoscow)|].
  eapply rtc_l; [apply (@sched_arrive' epochCodec PUT putCold)|].
  eapply rtc_l; [apply (@sched_arrive' epochCodec GET getMoscow)|].
  apply rtc_schedule.
Qed.

(** The GET of [sawOld] answers with the record of the first PUT, the GET of
    [sawNew] with that of the second. *)
Lemma concurrent_store_witness :
  (sawOld.1 !! 2 =
     Some {| meth := GET; req := getMoscow;
             code := Ret (@renderJSON epochCodec moscow); phase := Idle |} ∧
   raced sawOld.2 = false ∧
   log sawOld.2 =
     [Assigned "Moscow" (addr 1%positive) (Some moscow);
      Looked "Moscow" (addr 1%positive);
      Assigned "Moscow" (addr 2%positive) (Some moscowCold)] ∧
   ∃ before after,
     log sawOld.2 =
       before ++
       Looked "Moscow" (default nilptr (replay before ∅ !! "Moscow")) :: after ∧
     match replay before ∅ !! "Moscow" with
     | None =>
         @renderJSON epochCodec moscow =
           httpError ("Weather for city '" ++ "Moscow" ++ "' not found") StatusNotFound
     | Some v =>
         ∃ l w, v = addr l ∧
           Assigned "Moscow" (addr l) (Some w) ∈ before ∧
           heap (world sawOld.2) !! l = Some w ∧
           @renderJSON epochCodec moscow = @renderJSON epochCodec w
     end) ∧
  (sawNew.1 !! 2 =
     Some {| meth := GET; req := getMoscow;
             code := Ret (@renderJSON epochCodec moscowCold); phase := Idle |} ∧
   raced sawNew.2 = false ∧
   log sawNew.2 =
     [Assigned "Moscow" (addr 1%positive) (Some moscow);
      Assigned "Moscow" (addr 2%positive) (Some moscowCold);
      Looked "Moscow" (addr 2%positive)] ∧
   ∃ before after,
     log sawNew.2 =
       before ++
       Looked "Moscow" (default nilptr (replay before ∅ !! "Moscow")) :: after ∧
     match replay before ∅ !! "Moscow" with
     | None =>
         @renderJSON epochCodec moscowCold =
           httpError ("Weather for city '" ++ "Moscow" ++ "' not found") StatusNotFound
     | Some v =>
         ∃ l w, v = addr l ∧
           Assigned "Moscow" (addr l) (Some w) ∈ before ∧
           heap (world sawNew.2) !! l = Some w ∧
           @renderJSON epochCodec moscowCold = @renderJSON epochCodec w
     end).
Proof.
  split.
  - split; [vm_compute; reflexivity|].
    destruct (@concurrent_store epochCodec 0%Z sawOld (threeRequests_reachable _))
      as (Hr & _ & _ & _ & _ & Hg).
    split; [exact Hr|]. split; [vm_compute; reflexivity|].
    apply (Hg 2 {| meth := GET; req := getMoscow;
                   code := Ret (@renderJSON epochCodec moscow); phase := Idle |}
              (@renderJSON epochCodec moscow)).
    + vm_compute. reflexivity.
    + reflexivity.
    + discriminate.
    + reflexivity.
  - split; [vm_compute; reflexivity|].
    destruct (@concurrent_store epochCodec 0%Z sawNew (threeRequests_reachable _))
      as (Hr & _ & _ & _ & _ & Hg).
    split; [exact Hr|]. split; [vm_compute; reflexivity|].
    apply (Hg 2 {| meth := GET; req := getMoscow;
                   code := Ret (@renderJSON epochCodec moscowCold); phase := Idle |}
              (@renderJSON epochCodec moscowCold)).
    + vm_compute. reflexivity.
    + reflexivity.
    + discriminate.
    + reflexivity.
Defined.

Lemma twoRequests_reachable (order : list nat) :
  rtc (@sched epochCodec) (start 0%Z) (schedule order twoRequests).
Proof.
  eapply rtc_l; [apply (@sched_arrive' epochCodec PUT putMoscow)|].
  eapply rtc_l; [apply (@sched_arrive' epochCodec GET getMoscow)|].
  apply rtc_schedule.
Qed.

Lemma epochCodec_roundTrips : @roundTrips epochCodec.
Proof.
  intros t text. simpl. case_decide; [|done]. intros [= <-]. by subst t.
Qed.

Lemma yearOneCodec_roundTrips : @roundTrips yearOneCodec.
Proof.
  intros t text. simpl. case_decide; [intros [= <-]; by subst t|].
  case_decide; [|done]. intros [= <-]. by subst t.
Qed.

Lemma records_weaken (P : string → Weather → Prop) (σ : World) :
  records P σ → records (λ _ _, True) σ.
Proof. intros Hr c p Hp. destruct (Hr c p Hp) as (w & Hw & _). by exists w. Qed.

Lemma update_nil_releases_lock_witness :
  run (UpdateWeather nilptr) example = Panicked example ∧
  mapStores (UpdateWeather nilptr) example = 0 ∧
  run (GetWeather "Moscow") (after (run (UpdateWeather nilptr) example) example) =
    Done (stored "Moscow" example) example.
Proof. apply (update_nil_releases_lock example "Moscow"). reflexivity. Defined.



Lemma store_keeps_pointer_witness :
  ∃ σ', run (UpdateWeather pMoscow;; Act (StoreCity pMoscow "Paris");;
             q ← GetWeather "Moscow"; Act (Load q)) example =
          Done (setCity "Paris" moscow) σ' ∧
        weathers (storage σ') !! "Moscow" = Some pMoscow ∧
        deref pMoscow σ' = Some (setCity "Paris" moscow).
Proof.
  apply (store_keeps_pointer example pMoscow moscow "Paris"); reflexivity.
Defined.

Lemma entries_never_removed_witness :
  is_Some (weathers (storage (@execute epochCodec
             [OpPutRequest putHot; OpGet "Moscow"; OpPutNew nowhere] moscowServed))
           !! "Moscow").
Proof.
  apply (@entries_never_removed epochCodec
           [OpPutRequest putHot; OpGet "Moscow"; OpPutNew nowhere] moscowServed "Moscow").
  - reflexivity.
  - by eexists.
Defined.

Lemma put_then_get_same_response_witness :
  run (@getWeatherHandler epochCodec getMoscow) (withClock 5%Z moscowServed) =
    Done (mkResponse 200 (JSON (weatherJSON moscow "1970-01-01T00:00:00Z")))
         (withClock 5%Z moscowServed).
Proof.
  apply (@put_then_get_same_response epochCodec (boot 0%Z) moscowServed
           putMoscow getMoscow).
  - reflexivity.
  - vm_compute. reflexivity.
  - discriminate.
  - reflexivity.
Defined.

Lemma get_handler_unencodable_witness :
  ∃ rsp, run (@getWeatherHandler epochCodec getMoscow) feverishStored =
           Done rsp feverishStored ∧
    (status rsp = StatusInternalServerError ↔
       urlCity getMoscow ≠ "" ∧
       ∃ p v, weathers (storage feverishStored) !! urlCity getMoscow = Some p ∧
              deref p feverishStored = Some v ∧ ¬ @encodable epochCodec v).
Proof.
  apply (@get_handler_unencodable epochCodec feverishStored getMoscow).
  - reflexivity.
  - apply (records_weaken (λ c w, City w = c)).
    apply (@execute_invariant epochCodec); [apply boot_idle|apply boot_keyed].
Defined.

Lemma update_handler_fresh_record_witness :
  heap (after (run (@updateWeatherHandler epochCodec putMoscow) example) example)
    !! 1%positive = Some moscow.
Proof.
  apply (@update_handler_fresh_record epochCodec example putMoscow 1%positive moscow).
  reflexivity.
Defined.

Lemma handlers_wait_for_mutex_witness :
  run (@getWeatherHandler epochCodec getMoscow) writing = Blocked ∧
  run (@updateWeatherHandler epochCodec putCold) writing = Blocked ∧
  run (@updateWeatherHandler epochCodec putCold) reading = Blocked ∧
  (run (@updateWeatherHandler epochCodec putHot) writing = Blocked → False) ∧
  (run (@getWeatherHandler epochCodec getMoscow) stocked = Blocked → False).
Proof.
  split; [|split; [|split; [|split]]].
  - apply (proj1 (proj2 (@handlers_wait_for_mutex epochCodec writing getMoscow)));
      [discriminate|reflexivity].
  - apply (proj1 (proj2 (proj2 (@handlers_wait_for_mutex epochCodec writing putCold)))).
    split; [discriminate|]. split; [reflexivity|discriminate].
  - apply (proj1 (proj2 (proj2 (@handlers_wait_for_mutex epochCodec reading putCold)))).
    split; [discriminate|]. split; [reflexivity|discriminate].
  - intros Hb.
    apply (proj1 (proj2 (proj2 (@handlers_wait_for_mutex epochCodec writing putHot))))
      in Hb as (_ & Hd & _).
    discriminate Hd.
  - intros Hb.
    apply (proj1 (@handlers_wait_for_mutex epochCodec stocked getMoscow))
      in Hb as [_ Hm].
    by apply Hm.
Defined.

Lemma update_without_temperature_witness :
  ∃ rsp σ' l,
    run (@updateWeatherHandler epochCodec putNoTemperature) (boot 0%Z) = Done rsp σ' ∧
    weathers (storage σ') !! "Moscow" = Some (addr l) ∧
    heap σ' !! l = Some {| City := "Moscow"; Temperature := 0%float; UpdatedAt := 0%Z |}.
Proof.
  apply (@update_without_temperature epochCodec (boot 0%Z) putNoTemperature
           [("city", JString "Paris")]).
  - reflexivity.
  - discriminate.
  - reflexivity.
  - reflexivity.
  - intros key v Hin. apply list_elem_of_singleton in Hin as [= -> ->].
    discriminate.
Defined.

Lemma accesses_exclusive_witness :
  raced assigning.2 = false ∧
  (∀ i j gi gj, assigning.1 !! i = Some gi → assigning.1 !! j = Some gj →
     phase gi = InStore → phase gj ≠ Idle → i = j) ∧
  (∀ i g, assigning.1 !! i = Some g → phase g = InStore →
     writer (mu (storage (world assigning.2))) = true) ∧
  (∀ i g, assigning.1 !! i = Some g → phase g = InLoad →
     writer (mu (storage (world assigning.2))) = true ∨
     0 < readers (mu (storage (world assigning.2)))).
Proof.
  apply (@accesses_exclusive epochCodec 0%Z assigning), twoRequests_reachable.
Defined.

Lemma handlers_never_panic_witness :
  code {| meth := GET; req := getMoscow;
          code := @handler epochCodec GET getMoscow; phase := Idle |} ≠ Throw ∧
  step (@handler epochCodec GET getMoscow) Idle assigning.2 ≠ Thrown.
Proof.
  apply (@handlers_never_panic epochCodec 0%Z assigning 1
           {| meth := GET; req := getMoscow;
              code := @handler epochCodec GET getMoscow; phase := Idle |}).
  - apply twoRequests_reachable.
  - vm_compute. reflexivity.
Defined.

Lemma stored_records_immutable_witness :
  ∃ l w, addr 1%positive = addr l ∧ Some moscow = Some w ∧
         heap (world answered.2) !! l = Some w.
Proof.
  apply (@stored_records_immutable epochCodec 0%Z answered "Moscow"
           (addr 1%positive) (Some moscow)).
  - apply twoRequests_reachable.
  - vm_compute. apply list_elem_of_here.
Defined.

Lemma concurrent_records_keyed_witness :
  ∃ l w, addr 1%positive = addr l ∧ heap (world answered.2) !! l = Some w ∧
         City w = "Moscow".
Proof.
  apply (@concurrent_records_keyed epochCodec 0%Z answered "Moscow" (addr 1%positive)).
  - apply twoRequests_reachable.
  - vm_compute. reflexivity.
Defined.

Lemma responses_explained_witness :
  @observed epochCodec GET getMoscow
    (mkResponse 200 (JSON (weatherJSON moscow "1970-01-01T00:00:00Z")))
    (log answered.2).
Proof.
  apply (@responses_explained epochCodec 0%Z answered 1
           {| meth := GET; req := getMoscow;
              code := Ret (mkResponse 200 (JSON (weatherJSON moscow "1970-01-01T00:00:00Z")));
              phase := Idle |}).
  - apply twoRequests_reachable.
  - vm_compute. reflexivity.
  - reflexivity.
Defined.

Lemma no_deadlock_witness :
  (mu (storage (world assigning.2)) = unlocked →
   ∀ i g, assigning.1 !! i = Some g → (∀ rsp, code g ≠ Ret rsp) →
     ∃ p acc s', step (code g) (phase g) assigning.2 = Steps p acc s') ∧
  (mu (storage (world assigning.2)) ≠ unlocked →
   ∃ j gj p acc s', assigning.1 !! j = Some gj ∧ acquiring (code gj) = false ∧
     step (code gj) (phase gj) assigning.2 = Steps p acc s').
Proof.
  apply (@no_deadlock epochCodec 0%Z assigning), twoRequests_reachable.
Defined.

(** The mutex is what excludes the race: a lookup that began without it while
    the PUT of [assigning] is assigning to the map would be a data race. *)
Lemma unguarded_lookup_races :
  step (Act (MapLoad "Moscow")) Idle assigning.2 =
    Steps (Act (MapLoad "Moscow")) InLoad (begin InLoad assigning.2) ∧
  raced assigning.2 = false ∧
  raced (begin InLoad assigning.2) = true.
Proof. split; [|split]; vm_compute; reflexivity. Qed.

Lemma client_get_reads_store_witness :
  @getWeather epochCodec _ (@loopback epochCodec "Moscow") "Moscow" moscowServed =
    ((contents moscowServed !! "Moscow", None), moscowServed).
Proof.
  apply (@client_get_reads_store epochCodec (@loopback epochCodec "Moscow") "Moscow"
           0%Z [OpPutRequest putMoscow]).
  - apply epochCodec_roundTrips.
  - apply loopback_delivers.
  - discriminate.
  - by eexists.
  - by repeat constructor.
Defined.

Lemma client_update_then_get_witness :
  ∃ σ', @updateWeather epochCodec _ (@loopback epochCodec "Moscow") "Moscow"
          (Some nowhere) moscowServed =
          ((Some {| City := "Moscow"; Temperature := (-3)%float; UpdatedAt := 0%Z |},
            None), σ') ∧
        @getWeather epochCodec _ (@loopback epochCodec "Moscow") "Moscow" σ' =
          ((Some {| City := "Moscow"; Temperature := (-3)%float; UpdatedAt := 0%Z |},
            None), σ') ∧
        contents σ' =
          <["Moscow" := {| City := "Moscow"; Temperature := (-3)%float; UpdatedAt := 0%Z |}]>
            (contents moscowServed).
Proof.
  apply (@client_update_then_get epochCodec (@loopback epochCodec "Moscow") "Moscow"
           nowhere 0%Z [OpPutRequest putMoscow]).
  - apply epochCodec_roundTrips.
  - apply loopback_delivers.
  - discriminate.
  - by eexists.
  - by repeat constructor.
  - split; [reflexivity|by eexists].
Defined.

Lemma client_update_nil_witness :
  ∃ σ', @updateWeather epochCodec _ (@loopback epochCodec "Moscow") "Moscow"
          None moscowServed =
          ((Some {| City := "Moscow"; Temperature := 0%float; UpdatedAt := 0%Z |},
            None), σ') ∧
        weathers (storage σ') !! "Moscow" =
          Some (addr (fresh (dom (heap moscowServed)))) ∧
        heap σ' !! fresh (dom (heap moscowServed)) =
          Some {| City := "Moscow"; Temperature := 0%float; UpdatedAt := 0%Z |}.
Proof.
  apply (@client_update_nil epochCodec (@loopback epochCodec "Moscow") "Moscow"
           0%Z [OpPutRequest putMoscow]).
  - apply epochCodec_roundTrips.
  - apply loopback_delivers.
  - discriminate.
  - by eexists.
  - by repeat constructor.
Defined.

Lemma client_update_unencodable_witness :
  ∃ e, @Marshal epochCodec feverish = inr e ∧
       @updateWeather epochCodec _ (@loopback epochCodec "Moscow") "Moscow"
         (Some feverish) (boot 0%Z) = ((None, Some (JSONEncode e)), boot 0%Z).
Proof.
  apply (@client_update_unencodable epochCodec World (@loopback epochCodec "Moscow")
           "Moscow" feverish (boot 0%Z)).
  intros [Hf _]. discriminate.
Defined.

Lemma client_main_finishes_witness :
  ∃ σ', @main yearOneCodec _ (@loopback yearOneCodec "Moscow") 21.5%float (boot 0%Z) =
          (Finished moscow, σ') ∧
        contents σ' = <["Moscow" := moscow]> (contents (boot 0%Z)).
Proof.
  apply (@client_main_finishes yearOneCodec (@loopback yearOneCodec "Moscow")
           21.5%float 0%Z []).
  - apply yearOneCodec_roundTrips.
  - apply loopback_delivers.
  - by eexists.
  - constructor.
  - by eexists.
  - reflexivity.
Defined.
